(** * qrs: the fountain-code (Luby Transform) encoding engine

    A shallow embedding of the checksum utilities (checksum.js), of the
    Luby Transform encoder (the block codec, the slicer, the Ideal Soliton
    sampler and [LtEncoder]), of the Base64 and QR code of a block
    (qrcode.js) and of the file utilities (file-handler.js), followed by the
    properties of the engine.

    Conventions of the embedding:
    - an integer-valued JS number is a [Z]; the 32-bit coercions of the
      bitwise operators ([ToInt32], [ToUint32]) are written out;
    - the contents of a [Uint8Array] are a [list Z] of values in [0, 256);
    - a non-integer JS number (a probability, a draw of [Math.random]) is an
      IEEE 754 binary64 value, Rocq's primitive [float];
    - the byte order in which the host lays out a [Uint32Array] is a
      parameter, [host];
    - a thrown exception is the [Throw] case of [result];
    - a loop that need not terminate takes fuel, one unit for every pass;
    - the global generator behind [Math.random] is made explicit: a function
      that draws takes the list of the values the next calls return and gives
      back the unused rest;
    - [Pending] is the result of a call that has not returned when the fuel
      or the draws supplied have run out;
    - a method takes the receiver [this] and gives back, with its value, the
      receiver as the call leaves it;
    - a JS string is the list of its UTF-16 code units;
    - what the page loads besides these files ([pako.deflate], the QR code
      library, [JSON]) is a variable of a section;
    - the number of arguments the platform takes in one call is a
      parameter, [arguments_limit];
    - the file utilities throw more than the engine does: their calls end
      in an [outcome], and a promise that is rejected is a call that
      throws;
    - the handlers of the drop zone are functions of the state they share,
      and give with the new state what they do outside it. *)

From Stdlib Require Import Ascii String.
From Stdlib Require Import ZArith NArith List Sorted Lia Bool Arith Floats.
From Stdlib Require Import Permutation.
Import ListNotations.

Local Open Scope Z_scope.

(** ** JS numbers as 32-bit integers *)

Module JS.

(** [ToUint32]: the value modulo 2^32. *)
Definition ToUint32 (x : Z) : Z := x mod 2 ^ 32.

(** [ToInt32]: the value modulo 2^32, read as a signed two's complement
    word. *)
Definition ToInt32 (x : Z) : Z := (x + 2 ^ 31) mod 2 ^ 32 - 2 ^ 31.

(** [a ^ b], [a & b]: both operands through [ToInt32], the result is an
    int32. *)
Definition xor (a b : Z) : Z := Z.lxor (ToInt32 a) (ToInt32 b).
Definition and (a b : Z) : Z := Z.land (ToInt32 a) (ToInt32 b).

(** [a >>> n]: the left operand through [ToUint32], the shift count
    modulo 32, the result is a uint32. *)
Definition ushr (a n : Z) : Z := Z.shiftr (ToUint32 a) (n mod 32).

(** The store into an element of a [Uint8Array]. *)
Definition ToUint8 (x : Z) : Z := x mod 2 ^ 8.

(** The exceptions the modelled code can raise. *)
Inductive error : Set :=
| RangeError
| TypeError.

(** What a call does: it returns a value, it throws, or it is still
    running when the fuel or the supplied draws are used up. *)
Inductive result (A : Type) : Type :=
| Ok (a : A)
| Throw (e : error)
| Pending.

Arguments Ok {A} a.
Arguments Throw {A} e.
Arguments Pending {A}.

Definition bind {A B : Type} (r : result A) (f : A -> result B) : result B :=
  match r with
  | Ok a => f a
  | Throw e => Throw e
  | Pending => Pending
  end.

End JS.

Import JS.

Notation "x <- r ;; f" := (JS.bind r (fun x => f))
  (at level 61, r at next level, right associativity).

(** ** checksum.js *)

(** One pass of the inner loop that builds a table entry:
    [crc = (crc & 1) ? (0xEDB88320 ^ (crc >>> 1)) : (crc >>> 1)]. *)
Definition crc_table_step (crc : Z) : Z :=
  if JS.and crc 1 =? 0 then JS.ushr crc 1 else JS.xor 0xEDB88320 (JS.ushr crc 1).

(** [table[i] = crc] after eight passes; the table is a [Uint32Array]. *)
Definition crc_table_entry (i : Z) : Z :=
  JS.ToUint32 (Nat.iter 8 crc_table_step i).

Definition CRC_TABLE_build : list Z :=
  map (fun i => crc_table_entry (Z.of_nat i)) (seq 0 256).

(** The table is built once, when the module is loaded. *)
Definition CRC_TABLE : list Z := Eval vm_compute in CRC_TABLE_build.

(** [CRC_TABLE[i]]; an index outside the table reads [undefined], which the
    bitwise operators take as 0. *)
Definition CRC_TABLE_get (i : Z) : Z :=
  if i <? 0 then 0 else nth (Z.to_nat i) CRC_TABLE 0.

(** The body of the loop of [crc32]:
    [crc = (crc >>> 8) ^ CRC_TABLE[(crc ^ buf[i]) & 0xFF]]. *)
Definition crc32_update (crc b : Z) : Z :=
  JS.xor (JS.ushr crc 8) (CRC_TABLE_get (JS.and (JS.xor crc b) 0xFF)).

Definition crc32 (buf : list Z) : Z :=
  let crc := fold_left crc32_update buf 0xFFFFFFFF in
  JS.ushr (JS.xor crc 0xFFFFFFFF) 0.

Definition getChecksum (data : list Z) (k : Z) : Z :=
  JS.xor (crc32 data) k.


(** ** Typed arrays *)

(** [new Uint8Array(n)]: [n] zero bytes. *)
Definition Uint8Array_new (n : nat) : list Z := repeat 0 n.

(** [target.set(source, offset)]: a [RangeError] when the source does not fit,
    else the bytes of the source overwrite the target from [offset] on. *)
Definition Uint8Array_set (target source : list Z) (offset : nat) : result (list Z) :=
  if (offset + length source <=? length target)%nat then
    Ok (firstn offset target ++ map JS.ToUint8 source
          ++ skipn (offset + length source) target)
  else Throw RangeError.

(** [a[i] = v] on a [Uint8Array]: nothing happens outside the array. *)
Fixpoint Uint8Array_store (a : list Z) (i : nat) (v : Z) : list Z :=
  match a, i with
  | [], _ => []
  | _ :: t, O => JS.ToUint8 v :: t
  | h :: t, S i' => h :: Uint8Array_store t i' v
  end.

(** [a[i]] inside a bitwise operator: [undefined] outside the array, which
    the operator takes as 0. *)
Definition Uint8Array_get (a : list Z) (i : nat) : Z := nth i a 0.

(** The byte order in which the host lays out the elements of a typed array
    wider than a byte. *)
Inductive endianness : Set :=
| LittleEndian
| BigEndian.

(** The four bytes of a 32-bit word, least significant first. *)
Definition word_bytes_le (w : Z) : list Z :=
  [w mod 256; (w / 2 ^ 8) mod 256; (w / 2 ^ 16) mod 256; (w / 2 ^ 24) mod 256].

(** The four bytes of a 32-bit word, most significant first. *)
Definition word_bytes_be (w : Z) : list Z := rev (word_bytes_le w).

(** [new Uint32Array(numbers)]: every element through [ToUint32]. *)
Definition Uint32Array_from (numbers : list Z) : list Z := map JS.ToUint32 numbers.

(** [new Uint8Array(words.buffer)]: the bytes of the words in the order of
    the host. *)
Definition Uint32Array_buffer (host : endianness) (words : list Z) : list Z :=
  flat_map (match host with
            | LittleEndian => word_bytes_le
            | BigEndian => word_bytes_be
            end) words.

(** A [Uint8Array] as a view of an [ArrayBuffer]: [length] bytes of [buffer]
    from [byteOffset] on. *)
Module U8.
Record t : Type := mk { buffer : list Z; byteOffset : nat; length : nat }.

(** The bytes of the array itself. *)
Definition contents (a : t) : list Z :=
  firstn (length a) (skipn (byteOffset a) (buffer a)).

(** A freshly allocated array with the given contents. *)
Definition fresh (bytes : list Z) : t := mk bytes 0 (List.length bytes).

(** [a.slice(start)] for [start >= 0]: a copy of the bytes from [start]
    to the end of the array, empty when [start] is past the end. *)
Definition slice (a : t) (start : Z) : list Z :=
  skipn (Z.to_nat start) (contents a).
End U8.

(** [new DataView(buffer, byteOffset)]: the view runs from [byteOffset] to
    the end of the buffer. *)
Definition DataView_new (buffer : list Z) (byteOffset : nat) : list Z :=
  skipn byteOffset buffer.

(** [dataView.getUint32(pos, false)]: a [RangeError] unless the four bytes
    from [pos] on lie inside the view, else their big-endian value. *)
Definition getUint32 (dataView : list Z) (pos : Z) : result Z :=
  if (0 <=? pos) && (pos + 4 <=? Z.of_nat (length dataView)) then
    let p := Z.to_nat pos in
    Ok (nth p dataView 0 * 2 ^ 24 + nth (p + 1) dataView 0 * 2 ^ 16
        + nth (p + 2) dataView 0 * 2 ^ 8 + nth (p + 3) dataView 0)
  else Throw RangeError.

(** ** The block codec *)

Module Block.
Record t : Type := mk {
  k : Z;
  bytes : Z;
  checksum : Z;
  indices : list Z;
  data : list Z
}.
End Block.

Definition blockToBinary (host : endianness) (block : Block.t) : result (list Z) :=
  let header :=
    Uint32Array_from
      ([Z.of_nat (length (Block.indices block))] ++ Block.indices block
         ++ [Block.k block; Block.bytes block; Block.checksum block]) in
  let binary := Uint8Array_new (length header * 4 + length (Block.data block)) in
  let offset := 0%nat in
  binary <- Uint8Array_set binary (Uint32Array_buffer host header) offset ;;
  let offset := (offset + length header * 4)%nat in
  binary <- Uint8Array_set binary (Block.data block) offset ;;
  Ok binary.

(** One pass of the loop that extracts the indices; the state is the counter
    [i] and the array built so far. *)
Definition readIndex (dataView : list Z) (st : result (Z * list Z))
  : result (Z * list Z) :=
  st <- st ;;
  w <- getUint32 dataView ((fst st + 1) * 4) ;;
  Ok (fst st + 1, snd st ++ [w]).

(** [for (let i = 0; i < degree; i++) indices.push(...)]: [degree] passes. *)
Definition readIndices (dataView : list Z) (degree : Z) : result (list Z) :=
  st <- N.iter (Z.to_N degree) (readIndex dataView) (Ok (0, [])) ;;
  Ok (snd st).

Definition binaryToBlock (binary : U8.t) : result Block.t :=
  let dataView := DataView_new (U8.buffer binary) (U8.byteOffset binary) in
  degree <- getUint32 dataView 0 ;;
  indices <- readIndices dataView degree ;;
  k <- getUint32 dataView ((degree + 1) * 4) ;;
  bytes <- getUint32 dataView ((degree + 2) * 4) ;;
  checksum <- getUint32 dataView ((degree + 3) * 4) ;;
  let data := U8.slice binary ((degree + 4) * 4) in
  Ok (Block.mk k bytes checksum indices data).

(** ** Luby Transform: helpers *)

(** [xorUint8Array(a, b)]: a new array as long as [a]; a byte of [b] past its
    end reads [undefined], which [^] takes as 0. *)
Definition xorUint8Array (a b : list Z) : list Z :=
  fold_left
    (fun result i =>
       Uint8Array_store result i (JS.xor (Uint8Array_get a i) (Uint8Array_get b i)))
    (seq 0 (length a)) (Uint8Array_new (length a)).

(** The loop of [sliceData]; every pass takes one unit of fuel.
    [data.slice(i, i + blockSize)] is [firstn blockSize (skipn i data)]. *)
Fixpoint sliceData_loop (fuel : nat) (data : list Z) (blockSize i : nat)
    (blocks : list (list Z)) : result (list (list Z)) :=
  if (i <? length data)%nat then
    match fuel with
    | O => Pending
    | S fuel' =>
        let block := Uint8Array_new blockSize in
        block <- Uint8Array_set block (firstn blockSize (skipn i data)) 0 ;;
        sliceData_loop fuel' data blockSize (i + blockSize) (blocks ++ [block])
    end
  else Ok blocks.

Definition sliceData (fuel : nat) (data : list Z) (blockSize : nat)
  : result (list (list Z)) :=
  sliceData_loop fuel data blockSize 0 [].

(** ** The Ideal Soliton sampler *)

Local Open Scope float_scope.

(** An integer as a JS number: the binary64 value nearest to it (a tie
    goes to the even one), the integer itself up to 2^53 on either side
    of 0. *)
Definition num (z : Z) : float := SF2Prim (binary_normalize prec emax z 0 false).

(** [Math.floor] of a finite number, as an integer: [m * 2^e] shifted to
    its integer part, towards minus infinity. The product of a draw and a
    count is finite; an infinity or a NaN, which has no integer part, is
    sent to 0. *)
Definition Math_floor (x : float) : Z :=
  match Prim2SF x with
  | S754_finite s m e => Z.shiftl (cond_Zopp s (Zpos m)) e
  | _ => 0%Z
  end.

(** [a[i] = v] on an ordinary array: inside the array the element is
    replaced, past its end the array grows; the holes left in between read
    [undefined], which arithmetic takes as NaN. *)
Fixpoint Array_set (a : list float) (i : nat) (v : float) : list float :=
  match a, i with
  | [], O => [v]
  | [], S i' => nan :: Array_set [] i' v
  | _ :: t, O => v :: t
  | h :: t, S i' => h :: Array_set t i' v
  end.

(** The probabilities of the Ideal Soliton Distribution, as [getRandomDegree]
    fills them in: [P(1) = 1/k], [P(d) = 1/(d (d-1))] for [d] from 2 to [k]. *)
Definition soliton_probabilities (k : Z) : list float :=
  let probabilities := repeat 0 (Z.to_nat k) in
  let probabilities := Array_set probabilities 0 (1 / num k) in
  fold_left
    (fun probabilities d =>
       Array_set probabilities (d - 1)
         (1 / (num (Z.of_nat d) * num (Z.of_nat d - 1))))
    (seq 2 (Z.to_nat k - 1)) probabilities.

(** [sum += p; cumulativeProbabilities.push(sum)] for every [p]. *)
Fixpoint accumulate (sum : float) (probabilities : list float) : list float :=
  match probabilities with
  | [] => []
  | p :: rest => let sum := sum + p in sum :: accumulate sum rest
  end.

(** The scan for the first cumulative probability above the draw, from
    position [i] on; [None] when the loop runs to its end. *)
Fixpoint scan_degree (randomValue : float) (cumulative : list float) (i : Z)
  : option Z :=
  match cumulative with
  | [] => None
  | c :: rest =>
      if randomValue <? c then Some (i + 1)%Z
      else scan_degree randomValue rest (i + 1)%Z
  end.

(** [Array(k)] throws a [RangeError] unless [k] is the length of an array,
    from 0 to 2^32 - 1. *)
Definition getRandomDegree (k : Z) (draws : list float) : result (Z * list float) :=
  if ((k <? 0) || (2 ^ 32 <=? k))%Z then Throw RangeError
  else
    let cumulativeProbabilities := accumulate 0 (soliton_probabilities k) in
    match draws with
    | [] => Pending
    | randomValue :: draws =>
        match scan_degree randomValue cumulativeProbabilities 0 with
        | Some degree => Ok (degree, draws)
        | None => Ok (k, draws)
        end
    end.

(** [indices.add(x)] on a [Set], kept in insertion order. *)
Definition Set_add (x : Z) (s : list Z) : list Z :=
  if existsb (Z.eqb x) s then s else s ++ [x].

(** The loop of [getRandomIndices]; every pass takes one draw. *)
Fixpoint getRandomIndices_loop (k degree : Z) (indices : list Z)
    (draws : list float) : result (list Z * list float) :=
  if (Z.of_nat (length indices) <? degree)%Z then
    match draws with
    | [] => Pending
    | random :: draws =>
        let randomIndex := Math_floor (random * num k) in
        getRandomIndices_loop k degree (Set_add randomIndex indices) draws
    end
  else Ok (indices, draws).

Definition getRandomIndices (k degree : Z) (draws : list float)
  : result (list Z * list float) :=
  getRandomIndices_loop k degree [] draws.

Local Close Scope float_scope.

(** ** The encoder *)

Module LtEncoder.
Record t : Type := mk {
  data : list Z;
  sliceSize : nat;
  compress : bool;
  compressed : list Z;
  indices : list (list Z);
  k : Z;
  checksum : Z;
  bytes : Z
}.
End LtEncoder.

(** [this.indices[index]]: [None] is [undefined]. *)
Definition Array_get {A : Type} (a : list A) (index : Z) : option A :=
  if index <? 0 then None else nth_error a (Z.to_nat index).

(** The inner loop of [createBlock]:
    [data[i] = data[i] ^ indicesIndex[i]] for [i] below [sliceSize]. *)
Definition xor_into (sliceSize : nat) (data indicesIndex : list Z) : list Z :=
  fold_left
    (fun data i =>
       Uint8Array_store data i
         (JS.xor (Uint8Array_get data i) (Uint8Array_get indicesIndex i)))
    (seq 0 sliceSize) data.

(** The outer loop of [createBlock]; indexing [undefined] is a [TypeError],
    raised by the first pass of the inner loop. *)
Fixpoint createBlock_loop (this : LtEncoder.t) (indices : list Z) (data : list Z)
  : result (list Z) :=
  match indices with
  | [] => Ok data
  | index :: rest =>
      match Array_get (LtEncoder.indices this) index with
      | Some indicesIndex =>
          createBlock_loop this rest
            (xor_into (LtEncoder.sliceSize this) data indicesIndex)
      | None =>
          match LtEncoder.sliceSize this with
          | O => createBlock_loop this rest data
          | S _ => Throw TypeError
          end
      end
  end.

Definition createBlock (this : LtEncoder.t) (indices : list Z)
  : result (Block.t * LtEncoder.t) :=
  let data := Uint8Array_new (LtEncoder.sliceSize this) in
  data <- createBlock_loop this indices data ;;
  Ok (Block.mk (LtEncoder.k this) (LtEncoder.bytes this)
        (LtEncoder.checksum this) indices data, this).

(** One step of the generator [fountain]: the block the next call of
    [next()] yields. *)
Definition fountain_next (this : LtEncoder.t) (draws : list float)
  : result (Block.t * LtEncoder.t * list float) :=
  d <- getRandomDegree (LtEncoder.k this) draws ;;
  s <- getRandomIndices (LtEncoder.k this) (fst d) (snd d) ;;
  b <- createBlock this (fst s) ;;
  Ok (fst b, snd b, snd s).

(** The first [n] blocks of the stream. *)
Fixpoint fountain (n : nat) (this : LtEncoder.t) (draws : list float)
  : result (list Block.t * LtEncoder.t * list float) :=
  match n with
  | O => Ok ([], this, draws)
  | S n' =>
      b <- fountain_next this draws ;;
      r <- fountain n' (snd (fst b)) (snd b) ;;
      Ok (fst (fst b) :: fst (fst r), snd (fst r), snd r)
  end.

Section Encoder.

(** [pako.deflate], the compression the page loads. *)
Variable deflate : list Z -> list Z.

(** [new LtEncoder(data, sliceSize, compress)]. *)
Definition LtEncoder_new (fuel : nat) (data : list Z) (sliceSize : nat)
    (compress : bool) : result LtEncoder.t :=
  let compressed := if compress then deflate data else data in
  indices <- sliceData fuel compressed sliceSize ;;
  let k := Z.of_nat (length indices) in
  let checksum := getChecksum data k in
  let bytes := Z.of_nat (length compressed) in
  Ok (LtEncoder.mk data sliceSize compress compressed indices k checksum bytes).

Definition createEncoder := LtEncoder_new.

End Encoder.

(** ** More of the 32-bit operators *)

Module Int32.

(** [a << n]: the left operand through [ToInt32], the shift count modulo
    32, the result is an int32. *)
Definition shl (a n : Z) : Z := JS.ToInt32 (Z.shiftl (JS.ToInt32 a) (n mod 32)).

(** [a >> n]: the sign-propagating shift of an int32. *)
Definition sar (a n : Z) : Z := Z.shiftr (JS.ToInt32 a) (n mod 32).

(** [a | b]. *)
Definition or (a b : Z) : Z := Z.lor (JS.ToInt32 a) (JS.ToInt32 b).

End Int32.

(** ** Strings *)

(** A JS string is the sequence of its UTF-16 code units. *)
Definition JSString : Type := list Z.

(** A string literal of the source; the literals are ASCII. *)
Definition str (s : String.string) : JSString :=
  map (fun c => Z.of_N (Ascii.N_of_ascii c)) (String.list_ascii_of_string s).

Arguments str s%_string.

(** [s[n]] where a string is wanted: the character at position [n], and the
    text of [undefined] outside the string. *)
Definition String_at (s : JSString) (n : Z) : JSString :=
  if n <? 0 then str "undefined"
  else match nth_error s (Z.to_nat n) with
       | Some c => [c]
       | None => str "undefined"
       end.

(** [s.charCodeAt(i)] stored into a typed array: the code unit, and [NaN]
    outside the string, which the store takes as 0. *)
Definition charCodeAt (s : JSString) (i : nat) : Z := nth i s 0.

(** ** qrcode.js *)

Module ErrorCorrectionLevel.
Definition L : JSString := str "L".
Definition M : JSString := str "M".
Definition Q : JSString := str "Q".
Definition H : JSString := str "H".
End ErrorCorrectionLevel.

Definition chars : JSString :=
  str "ABCDEFGHIJKLMNOPQRSTUVWXYZabcdefghijklmnopqrstuvwxyz0123456789+/".

(** [binary[i] || 0]: the element, and 0 when it is falsy, that is 0 or
    [undefined]. *)
Definition or_zero (element : option Z) : Z :=
  match element with
  | Some b => if b =? 0 then 0 else b
  | None => 0
  end.

(** One pass of the loop of [binaryToBase64]; the state is the counter [i]
    and the string built so far. *)
Definition base64_pass (binary : list Z) (st : nat * JSString) : nat * JSString :=
  let i := fst st in
  let base64 := snd st in
  let b1 := or_zero (nth_error binary i) in
  let i := S i in
  let b2 := or_zero (nth_error binary i) in
  let i := S i in
  let b3 := or_zero (nth_error binary i) in
  let i := S i in
  let triplet := Int32.or (Int32.or (Int32.shl b1 16) (Int32.shl b2 8)) b3 in
  let base64 := base64 ++ String_at chars (JS.and (Int32.sar triplet 18) 0x3F) in
  let base64 := base64 ++ String_at chars (JS.and (Int32.sar triplet 12) 0x3F) in
  let base64 :=
    base64 ++ (if (length binary + 1 <? i)%nat then str "="
               else String_at chars (JS.and (Int32.sar triplet 6) 0x3F)) in
  let base64 :=
    base64 ++ (if (length binary <? i)%nat then str "="
               else String_at chars (JS.and triplet 0x3F)) in
  (i, base64).

(** [while (i < binary.length)]: every pass adds 3 to [i], so the loop makes
    no more passes than the array has bytes, and the passes allowed here are
    never used up. *)
Fixpoint binaryToBase64_loop (passes : nat) (binary : list Z) (st : nat * JSString)
  : JSString :=
  if (fst st <? length binary)%nat then
    match passes with
    | O => snd st
    | S passes' => binaryToBase64_loop passes' binary (base64_pass binary st)
    end
  else snd st.

Definition binaryToBase64 (binary : list Z) : JSString :=
  binaryToBase64_loop (length binary) binary (0%nat, []).

(** The object [generateQRCodeSVG] hands to the QR code library. *)
Module QRCode.
Record options : Type := mk {
  content : JSString;
  padding : Z;
  width : Z;
  height : Z;
  color : JSString;
  background : JSString;
  ecl : JSString
}.
End QRCode.

(** The [options] of [generateQRCodeSVG]; [None] is a property that is
    missing, [undefined] or [null]. *)
Module Options.
Record t : Type := mk {
  border : option Z;
  color : option JSString;
  background : option JSString;
  ecLevel : option JSString
}.

(** [{}], the default of the parameter. *)
Definition empty : t := mk None None None None.
End Options.

(** [a ?? b]. *)
Definition nullish {A : Type} (a : option A) (b : A) : A :=
  match a with
  | Some v => v
  | None => b
  end.

Section QR.

(** [new QRCode(options).svg()], the library the page loads. *)
Variable QRCode_svg : QRCode.options -> result JSString.

Definition generateQRCodeSVG (data : JSString) (options : Options.t)
  : result JSString :=
  let border := nullish (Options.border options) 4 in
  let color := nullish (Options.color options) (str "#000000") in
  let background := nullish (Options.background options) (str "#ffffff") in
  let ecLevel := nullish (Options.ecLevel options) ErrorCorrectionLevel.M in
  QRCode_svg (QRCode.mk data border 256 256 color background ecLevel).

Definition generateBlockQRCode (host : endianness) (block : Block.t)
    (prefix : JSString) : result JSString :=
  binary <- blockToBinary host block ;;
  let base64 := binaryToBase64 binary in
  generateQRCodeSVG (prefix ++ base64)
    (Options.mk (Some 5) None None (Some ErrorCorrectionLevel.M)).

End QR.

(** ** file-handler.js *)

(** [a[i]] inside a bitwise operator, for any integer [i]: [undefined]
    outside the array, which the operator takes as 0. *)
Definition Uint8Array_at (a : list Z) (i : Z) : Z :=
  if i <? 0 then 0 else nth (Z.to_nat i) a 0.

(** An index of [slice] relative to the length: a negative one counts from
    the end, and both are clamped to the array. *)
Definition relative_index (len i : Z) : Z :=
  if i <? 0 then Z.max (len + i) 0 else Z.min i len.

(** [a.slice(start, end)]. *)
Definition Uint8Array_slice (a : list Z) (start end_ : Z) : list Z :=
  let len := Z.of_nat (length a) in
  let k := relative_index len start in
  let final := relative_index len end_ in
  firstn (Z.to_nat (final - k)) (skipn (Z.to_nat k) a).

(** The callback of [arrays.forEach] in [mergeUint8Arrays]; the state is the
    merged array and [offset]. *)
Definition merge_chunk (st : result (list Z * nat)) (arr : list Z)
  : result (list Z * nat) :=
  st <- st ;;
  let mergedArray := fst st in
  let offset := snd st in
  let len := Z.of_nat (length arr) in
  let mergedArray :=
    Uint8Array_store mergedArray offset (JS.and (Int32.sar len 24) 0xFF) in
  let offset := S offset in
  let mergedArray :=
    Uint8Array_store mergedArray offset (JS.and (Int32.sar len 16) 0xFF) in
  let offset := S offset in
  let mergedArray :=
    Uint8Array_store mergedArray offset (JS.and (Int32.sar len 8) 0xFF) in
  let offset := S offset in
  let mergedArray := Uint8Array_store mergedArray offset (JS.and len 0xFF) in
  let offset := S offset in
  mergedArray <- Uint8Array_set mergedArray arr offset ;;
  let offset := (offset + length arr)%nat in
  Ok (mergedArray, offset).

Definition mergeUint8Arrays (arrays : list (list Z)) : result (list Z) :=
  let totalLength :=
    fold_left (fun sum arr => (sum + length arr + 4)%nat) arrays 0%nat in
  let mergedArray := Uint8Array_new totalLength in
  let offset := 0%nat in
  st <- fold_left merge_chunk arrays (Ok (mergedArray, offset)) ;;
  Ok (fst st).

(** The loop of [splitUint8Arrays]; every pass takes one unit of fuel. The
    length read is an int32: [offset] is an integer of either sign. *)
Fixpoint splitUint8Arrays_loop (fuel : nat) (mergedArray : list Z) (offset : Z)
    (arrays : list (list Z)) : result (list (list Z)) :=
  if offset <? Z.of_nat (length mergedArray) then
    match fuel with
    | O => Pending
    | S fuel' =>
        let b1 := Uint8Array_at mergedArray offset in
        let offset := offset + 1 in
        let b2 := Uint8Array_at mergedArray offset in
        let offset := offset + 1 in
        let b3 := Uint8Array_at mergedArray offset in
        let offset := offset + 1 in
        let b4 := Uint8Array_at mergedArray offset in
        let offset := offset + 1 in
        let len :=
          Int32.or
            (Int32.or (Int32.or (Int32.shl b1 24) (Int32.shl b2 16))
               (Int32.shl b3 8))
            b4 in
        let arr := Uint8Array_slice mergedArray offset (offset + len) in
        splitUint8Arrays_loop fuel' mergedArray (offset + len) (arrays ++ [arr])
    end
  else Ok arrays.

Definition splitUint8Arrays (fuel : nat) (mergedArray : list Z)
  : result (list (list Z)) :=
  splitUint8Arrays_loop fuel mergedArray 0 [].

Definition stringToUint8Array (s : JSString) : list Z :=
  fold_left (fun data i => Uint8Array_store data i (charCodeAt s i))
    (seq 0 (length s)) (Uint8Array_new (length s)).

(** [String.fromCharCode.apply(null, data)]: every element of [data] is an
    argument of the one call, which throws a [RangeError] when they are more
    than the platform takes, [arguments_limit]; else the string has one code
    unit for every element, through [ToUint16]. *)
Definition uint8ArrayToString (arguments_limit : nat) (data : list Z)
  : result JSString :=
  if (length data <=? arguments_limit)%nat then
    Ok (map (fun b => b mod 2 ^ 16) data)
  else Throw RangeError.

(** *** Exceptions and values *)

(** What the file utilities throw: an exception of the language, the
    [SyntaxError] of [JSON.parse], an [Error] with its message, and the
    [DOMException] with which reading a file fails. *)
Inductive exception : Type :=
| Builtin (e : JS.error)
| SyntaxError
| Error (message : JSString)
| DOMException (name : JSString).

(** What a call of the file utilities does: it returns, it throws (an
    [async] function rejects its promise), or it is still running when the
    fuel is used up. *)
Inductive outcome (A : Type) : Type :=
| Returns (a : A)
| Raises (e : exception)
| Running.

Arguments Returns {A} a.
Arguments Raises {A} e.
Arguments Running {A}.

Definition outcome_bind {A B : Type} (r : outcome A) (f : A -> outcome B)
  : outcome B :=
  match r with
  | Returns a => f a
  | Raises e => Raises e
  | Running => Running
  end.

Notation "x <~ r ;; f" := (outcome_bind r (fun x => f))
  (at level 61, r at next level, right associativity).

Definition of_result {A : Type} (r : result A) : outcome A :=
  match r with
  | Ok a => Returns a
  | Throw e => Raises (Builtin e)
  | Pending => Running
  end.

(** The values [JSON.parse] builds, and what an assignment makes of them:
    an array can carry properties besides its elements. The properties of an
    object are kept in the order of their creation. *)
#[warnings="-register-all"]
Inductive value : Type :=
| VNull
| VBool (b : bool)
| VNumber (x : float)
| VString (s : JSString)
| VArray (elements : list value) (properties : list (JSString * value))
| VObject (properties : list (JSString * value)).

Definition JSString_eqb (a b : JSString) : bool :=
  if list_eq_dec Z.eq_dec a b then true else false.

(** The value of an own property; [None] is [undefined]. *)
Fixpoint property (properties : list (JSString * value)) (key : JSString)
  : option value :=
  match properties with
  | [] => None
  | (name, v) :: rest => if JSString_eqb name key then Some v else property rest key
  end.

(** An assignment to a property: the value of an existing property is
    replaced where it stands, a new property comes last. *)
Fixpoint assign (properties : list (JSString * value)) (key : JSString) (v : value)
  : list (JSString * value) :=
  match properties with
  | [] => [(key, v)]
  | (name, w) :: rest =>
      if JSString_eqb name key then (name, v) :: rest
      else (name, w) :: assign rest key v
  end.

(** [meta.key] for a key that is neither an index nor a property of the
    prototypes: a [TypeError] on [null], [undefined] on the other
    primitives. *)
Definition Get (meta : value) (key : JSString) : outcome (option value) :=
  match meta with
  | VNull => Raises (Builtin TypeError)
  | VObject properties => Returns (property properties key)
  | VArray _ properties => Returns (property properties key)
  | VBool _ | VNumber _ | VString _ => Returns None
  end.

(** [meta.key = v]: on a primitive the assignment is dropped, and in strict
    code it is a [TypeError]. *)
Definition Put (strict : bool) (meta : value) (key : JSString) (v : value)
  : outcome value :=
  match meta with
  | VNull => Raises (Builtin TypeError)
  | VObject properties => Returns (VObject (assign properties key v))
  | VArray elements properties => Returns (VArray elements (assign properties key v))
  | VBool _ | VNumber _ | VString _ =>
      if strict then Raises (Builtin TypeError) else Returns meta
  end.

(** [ToBoolean]: [undefined], [null], [false], a zero, [NaN] and the empty
    string are falsy. *)
Definition ToBoolean (v : option value) : bool :=
  match v with
  | None => false
  | Some VNull => false
  | Some (VBool b) => b
  | Some (VNumber x) => negb (PrimFloat.eqb x 0 || negb (PrimFloat.eqb x x))
  | Some (VString s) => negb (JSString_eqb s [])
  | Some (VArray _ _) => true
  | Some (VObject _) => true
  end.

(** *** Metadata *)

Section Meta.

(** The number of arguments the platform takes in one call. *)
Variable arguments_limit : nat.

(** [JSON.stringify] on a value of the kind above, and [JSON.parse], where
    [None] is its [SyntaxError]. *)
Variable JSON_stringify : value -> JSString.
Variable JSON_parse : JSString -> option value.

Definition appendMetaToBuffer (data : list Z) (meta : value) : result (list Z) :=
  let json := JSON_stringify meta in
  let metaBuffer := stringToUint8Array json in
  mergeUint8Arrays [metaBuffer; data].

Definition appendFileHeaderMetaToBuffer (data : list Z) (meta : value)
  : result (list Z) :=
  appendMetaToBuffer data meta.

Definition readMetaFromBuffer (fuel : nat) (buffer : list Z)
  : outcome (list Z * value) :=
  splitted <~ of_result (splitUint8Arrays fuel buffer) ;;
  if negb (length splitted =? 2)%nat then Raises (Error (str "Invalid buffer"))
  else
    let metaBuffer := nth 0 splitted [] in
    let data := nth 1 splitted [] in
    json <~ of_result (uint8ArrayToString arguments_limit metaBuffer) ;;
    match JSON_parse json with
    | Some meta => Returns (data, meta)
    | None => Raises SyntaxError
    end.

(** [strict] tells whether the page loads the file as strict code. *)
Definition readFileHeaderMetaFromBuffer (strict : bool) (fuel : nat)
    (buffer : list Z) : outcome (list Z * value) :=
  r <~ readMetaFromBuffer fuel buffer ;;
  let data := fst r in
  let meta := snd r in
  contentType <~ Get meta (str "contentType") ;;
  if negb (ToBoolean contentType) then
    meta <~ Put strict meta (str "contentType")
              (VString (str "application/octet-stream")) ;;
    Returns (data, meta)
  else Returns (data, meta).

(** A [File]: its name, its type and what reading it gives. *)
Record File : Type := mkFile {
  File_name : JSString;
  File_type : JSString;
  File_arrayBuffer : outcome (list Z)
}.

(** What [handleFileSelection] resolves to. *)
Record Selection : Type := mkSelection {
  Selection_data : list Z;
  Selection_filename : JSString;
  Selection_contentType : JSString
}.

(** [file] is [None] when no file is given ([null] or [undefined]). *)
Definition handleFileSelection (file : option File) : outcome Selection :=
  match file with
  | None => Raises (Error (str "No file selected"))
  | Some file =>
      let filename := File_name file in
      let contentType :=
        if JSString_eqb (File_type file) [] then str "application/octet-stream"
        else File_type file in
      buffer <~ File_arrayBuffer file ;;
      data <~ of_result
                (appendFileHeaderMetaToBuffer buffer
                   (VObject [(str "filename", VString filename);
                             (str "contentType", VString contentType)])) ;;
      Returns (mkSelection data filename contentType)
  end.

End Meta.

(** *** The drop zone *)

Module DropZone.

(** What the handlers share: the counter of [setupDropZone] and the class
    list of the drop zone. *)
Record state : Type := mk {
  dragCounter : Z;
  classList : list JSString
}.

(** A drag event; the data transfer of a drop is [None] when it is [null],
    else it carries its files. *)
Inductive event : Type :=
| dragenter
| dragleave
| dragover
| drop (dataTransfer : option (list File)).

(** What a handler does outside the state. *)
Inductive effect : Type :=
| preventDefault
| onFileDropped (file : File)
| clearData.

(** [classList.add(token)] and [classList.remove(token)]. *)
Definition add (token : JSString) (classList : list JSString) : list JSString :=
  if existsb (JSString_eqb token) classList then classList else classList ++ [token].

Definition remove (token : JSString) (classList : list JSString) : list JSString :=
  filter (fun t => negb (JSString_eqb token t)) classList.

Definition onDragEnter (st : state) : state * list effect :=
  let dragCounter := dragCounter st + 1 in
  (mk dragCounter (add (str "dragging") (classList st)), [preventDefault]).

Definition onDragLeave (st : state) : state * list effect :=
  let dragCounter := dragCounter st - 1 in
  if dragCounter <=? 0 then
    (mk 0 (remove (str "dragging") (classList st)), [preventDefault])
  else (mk dragCounter (classList st), [preventDefault]).

Definition onDragOver (st : state) : state * list effect :=
  (st, [preventDefault]).

Definition onDrop (dataTransfer : option (list File)) (st : state)
  : state * list effect :=
  let st := mk 0 (remove (str "dragging") (classList st)) in
  match dataTransfer with
  | Some (file :: _) => (st, [preventDefault; onFileDropped file; clearData])
  | Some [] => (st, [preventDefault])
  | None => (st, [preventDefault])
  end.

(** The listener the window calls for an event. *)
Definition handle (e : event) (st : state) : state * list effect :=
  match e with
  | dragenter => onDragEnter st
  | dragleave => onDragLeave st
  | dragover => onDragOver st
  | drop dataTransfer => onDrop dataTransfer st
  end.

(** A sequence of events, from the first on. *)
Fixpoint run (events : list event) (st : state) : state * list effect :=
  match events with
  | [] => (st, [])
  | e :: rest =>
      let r := handle e st in
      let r' := run rest (fst r) in
      (fst r', snd r ++ snd r')
  end.

(** The state when [setupDropZone] returns. *)
Definition setup (classList : list JSString) : state := mk 0 classList.

End DropZone.

(** * The vocabulary of the properties

    What the statements below say of the code: the ranges of bytes and
    words, what the codec writes and reads, the slices of a payload, the XOR
    of slices, the Ideal Soliton distribution, the draws of [Math.random]
    and the bit-by-bit CRC-32. *)

(** ** Bytes, words and blocks *)

(** The contents of a [Uint8Array]: every element is a byte. *)
Definition bytes_ok (l : list Z) : Prop := Forall (fun b => 0 <= b < 256) l.

(** A number that a [Uint32Array] element holds as it is. *)
Definition uint32 (x : Z) : Prop := 0 <= x < 2 ^ 32.

(** The header words of a block: the degree, the indices, then [k], [bytes]
    and [checksum]. *)
Definition header_words (block : Block.t) : list Z :=
  Z.of_nat (length (Block.indices block))
    :: Block.indices block
    ++ [Block.k block; Block.bytes block; Block.checksum block].

(** The big-endian value of the four bytes at position [p]. *)
Definition be32_at (dataView : list Z) (p : nat) : Z :=
  nth p dataView 0 * 2 ^ 24 + nth (p + 1) dataView 0 * 2 ^ 16
  + nth (p + 2) dataView 0 * 2 ^ 8 + nth (p + 3) dataView 0.

(** The indices read by [n] passes of the loop. *)
Definition indices_read (dataView : list Z) (n : nat) : list Z :=
  map (fun i => be32_at dataView ((i + 1) * 4)) (seq 0 n).

(** What [binaryToBlock] returns when the header lies inside the bytes from
    [byteOffset] to the end of the buffer. *)
Definition block_read (binary : U8.t) : Block.t :=
  let dataView := DataView_new (U8.buffer binary) (U8.byteOffset binary) in
  let degree := Z.to_nat (be32_at dataView 0) in
  Block.mk (be32_at dataView ((degree + 1) * 4))
    (be32_at dataView ((degree + 2) * 4))
    (be32_at dataView ((degree + 3) * 4))
    (indices_read dataView degree)
    (skipn ((degree + 4) * 4) (U8.contents binary)).

(** The bytes a [DataView] on the array can read. *)
Definition available (binary : U8.t) : nat :=
  length (DataView_new (U8.buffer binary) (U8.byteOffset binary)).

(** The degree field, when four bytes are available. *)
Definition degree_field (binary : U8.t) : Z :=
  be32_at (DataView_new (U8.buffer binary) (U8.byteOffset binary)) 0.

(** A block whose header words a [Uint32Array] holds as they are and whose
    data are bytes. *)
Definition block_representable (block : Block.t) : Prop :=
  Forall uint32 (header_words block) /\ bytes_ok (Block.data block).

(** A block of degree 1 over a payload of one slice. *)
Definition block_one : Block.t := Block.mk 1 1 0 [0] [7].

(** ** Slices *)

(** [ceil(n / d)]. *)
Definition ceil_div (n d : nat) : nat := ((n + d - 1) / d)%nat.

(** A chunk followed by zeros up to [blockSize] bytes. *)
Definition zero_pad (blockSize : nat) (chunk : list Z) : list Z :=
  chunk ++ repeat 0 (blockSize - length chunk).

(** Slice [j]: the bytes of [data] from [j * blockSize] on, [blockSize] of
    them or as many as are left, zero-padded. *)
Definition slice_at (data : list Z) (blockSize j : nat) : list Z :=
  zero_pad blockSize (firstn blockSize (skipn (j * blockSize) data)).

Definition slices_of (data : list Z) (blockSize : nat) : list (list Z) :=
  map (slice_at data blockSize) (seq 0 (ceil_div (length data) blockSize)).

(** The bitwise XOR of two byte sequences of one length. *)
Fixpoint xor_bytes (a b : list Z) : list Z :=
  match a, b with
  | x :: a', y :: b' => Z.lxor x y :: xor_bytes a' b'
  | _, _ => []
  end.

(** The XOR of a list of slices, starting from [sliceSize] zero bytes. *)
Definition xor_slices (sliceSize : nat) (slices : list (list Z)) : list Z :=
  fold_left xor_bytes slices (repeat 0 sliceSize).

(** The slice an index names. *)
Definition slice_of (this : LtEncoder.t) (index : Z) : list Z :=
  nth (Z.to_nat index) (LtEncoder.indices this) [].

(** The invariant of an encoder: [k] counts the slices, every slice has
    [sliceSize] bytes. *)
Definition encoder_ok (this : LtEncoder.t) : Prop :=
  LtEncoder.k this = Z.of_nat (length (LtEncoder.indices this))
  /\ Forall (fun s => length s = LtEncoder.sliceSize this) (LtEncoder.indices this)
  /\ Forall bytes_ok (LtEncoder.indices this).

(** One pass of the inner loop. *)
Definition xor_step (indicesIndex : list Z) (data : list Z) (i : nat) : list Z :=
  Uint8Array_store data i
    (JS.xor (Uint8Array_get data i) (Uint8Array_get indicesIndex i)).

(** ** Degrees and draws *)

(** The Ideal Soliton probability of degree [d] among [k] slices, in the
    arithmetic of the code. *)
Definition soliton_P (k : Z) (d : nat) : float :=
  match d with
  | 1%nat => (1 / num k)%float
  | _ => (1 / (num (Z.of_nat d) * num (Z.of_nat d - 1)))%float
  end.

(** The cumulative probability of the degrees 1 to [d]: the running sum
    [((0 + P(1)) + P(2)) + ... + P(d)]. *)
Definition soliton_cdf (k : Z) (d : nat) : float :=
  fold_left PrimFloat.add (map (soliton_P k) (seq 1 d)) 0%float.

(** A value [Math.random] returns: a number in [0, 1). *)
Definition unit_draw (r : float) : Prop :=
  (0 <=? r)%float = true /\ (r <? 1)%float = true.

(** The index a draw selects among [k] slices. *)
Definition randomIndex (k : Z) (random : float) : Z :=
  Math_floor (random * num k)%float.

(** The state of a right shift of [M] by [j] bits: the quotient, and a
    round bit that is set only when the remainder is at least half. *)
Definition shr_inv (M j : Z) (mrs : shr_record) : Prop :=
  exists R,
    M = shr_m mrs * 2 ^ j + R /\ 0 <= R < 2 ^ j /\ 0 <= shr_m mrs
    /\ (shr_r mrs = true -> 2 ^ j <= 2 * R).

(** ** Encoders and their blocks *)

(** The encoder the constructor returns. *)
Definition encoder_of (deflate : list Z -> list Z) (data : list Z)
    (sliceSize : nat) (compress : bool) : LtEncoder.t :=
  let compressed := if compress then deflate data else data in
  let k := Z.of_nat (ceil_div (length compressed) sliceSize) in
  LtEncoder.mk data sliceSize compress compressed
    (slices_of compressed sliceSize) k (getChecksum data k)
    (Z.of_nat (length compressed)).

(** The indices a list of draws selects among [k] slices, each at the place
    of its first draw. *)
Definition drawn_order (k : Z) (draws : list float) : list Z :=
  fold_left (fun indices r => Set_add (randomIndex k r) indices) draws [].


(** The payload [1 .. 7] in slices of 3 bytes, not compressed. *)
Definition encoder_seven : LtEncoder.t :=
  encoder_of (fun data => data) [1; 2; 3; 4; 5; 6; 7] 3 false.

(** ** CRC-32 *)

(** The IEEE 802.3 CRC-32 bit by bit: the register is shifted right one bit
    at a time and the reflected polynomial 0xEDB88320 is XORed in when the
    bit shifted out is 1; the register starts at 0xFFFFFFFF and the result is
    XORed with 0xFFFFFFFF. *)
Definition crc32_bit (crc : Z) : Z :=
  if Z.odd crc then Z.lxor (Z.shiftr crc 1) 0xEDB88320 else Z.shiftr crc 1.

Definition crc32_byte (crc b : Z) : Z := Nat.iter 8 crc32_bit (Z.lxor crc b).

Definition crc32_ieee (buf : list Z) : Z :=
  Z.lxor (fold_left crc32_byte buf 0xFFFFFFFF) 0xFFFFFFFF.

Ltac bitwise :=
  apply Z.bits_inj'; intros ?n ?Hn;
  repeat (rewrite ?Z.lxor_spec, ?Z.land_spec, ?Z.shiftr_spec, ?Z.testbit_0_l by lia).

(** The bytes of "The quick brown fox jumps over the lazy dog". *)
Definition fox : list Z :=
  [84; 104; 101; 32; 113; 117; 105; 99; 107; 32; 98; 114; 111; 119; 110; 32;
   102; 111; 120; 32; 106; 117; 109; 112; 115; 32; 111; 118; 101; 114; 32;
   116; 104; 101; 32; 108; 97; 122; 121; 32; 100; 111; 103].

(** ** More of the codec *)

(** A block as a [Uint32Array] holds its header: every field modulo 2^32. *)
Definition uint32_block (block : Block.t) : Block.t :=
  Block.mk (JS.ToUint32 (Block.k block)) (JS.ToUint32 (Block.bytes block))
    (JS.ToUint32 (Block.checksum block))
    (map JS.ToUint32 (Block.indices block)) (Block.data block).

(** ** Base64 *)

(** The 24-bit number of a group of three bytes. *)
Definition group24 (b1 b2 b3 : Z) : Z := b1 * 2 ^ 16 + b2 * 2 ^ 8 + b3.

(** The 6-bit part [j] of a 24-bit number, 0 the highest. *)
Definition sextet (t : Z) (j : Z) : Z := (t / 2 ^ (18 - 6 * j)) mod 64.

(** The character of a 6-bit value in the Base64 alphabet. *)
Definition base64_char (n : Z) : Z := nth (Z.to_nat n) chars 0.

(** The code unit of [=]. *)
Definition pad_char : Z := 61.

(** The four characters of the group that begins a byte sequence: of three
    bytes, or of the one or two bytes left at the end, made up with zero
    bits and padded. *)
Definition base64_group (l : list Z) : JSString :=
  match l with
  | [] => []
  | [b1] =>
      let t := group24 b1 0 0 in
      [base64_char (sextet t 0); base64_char (sextet t 1); pad_char; pad_char]
  | [b1; b2] =>
      let t := group24 b1 b2 0 in
      [base64_char (sextet t 0); base64_char (sextet t 1);
       base64_char (sextet t 2); pad_char]
  | b1 :: b2 :: b3 :: _ =>
      let t := group24 b1 b2 b3 in
      [base64_char (sextet t 0); base64_char (sextet t 1);
       base64_char (sextet t 2); base64_char (sextet t 3)]
  end.

(** Base64 with padding, as RFC 4648 defines it: group after group. *)
Fixpoint base64_rfc (l : list Z) : JSString :=
  match l with
  | _ :: _ :: _ :: rest => base64_group l ++ base64_rfc rest
  | _ => base64_group l
  end.

(** The number of [=] that end the Base64 of [n] bytes. *)
Definition pad_count (n : nat) : nat :=
  match (n mod 3)%nat with
  | 1%nat => 2%nat
  | 2%nat => 1%nat
  | _ => 0%nat
  end.

(** The position of a code unit in the alphabet. *)
Definition base64_index (c : Z) : option nat :=
  (fix find (l : list Z) (n : nat) : option nat :=
     match l with
     | [] => None
     | x :: l' => if x =? c then Some n else find l' (S n)
     end) chars 0%nat.

(** ** Frames *)

(** A chunk in a merged array: its length as four big-endian bytes, then
    its bytes. *)
Definition frame (arr : list Z) : list Z :=
  word_bytes_be (Z.of_nat (length arr)) ++ arr.

Definition frames (arrays : list (list Z)) : list Z := flat_map frame arrays.

(** A string all of whose code units are below 256. *)
Definition latin1 (s : JSString) : Prop := Forall (fun c => 0 <= c < 256) s.

(** ** The drop zone *)

(** The files of the drops of a sequence of events, and the files a sequence
    of effects hands to the callback. *)
Definition files_dropped (events : list DropZone.event) : list File :=
  flat_map (fun e => match e with
                     | DropZone.drop (Some (file :: _)) => [file]
                     | _ => []
                     end) events.

Definition files_handed (effects : list DropZone.effect) : list File :=
  flat_map (fun x => match x with
                     | DropZone.onFileDropped file => [file]
                     | _ => []
                     end) effects.

(** The metadata [handleFileSelection] writes for a file. *)
Definition contentType_of (file : File) : JSString :=
  if JSString_eqb (File_type file) [] then str "application/octet-stream"
  else File_type file.

Definition meta_of (file : File) : value :=
  VObject [(str "filename", VString (File_name file));
           (str "contentType", VString (contentType_of file))].

(** A file of three bytes and no type. *)
Definition file_abc : File := mkFile (str "a.bin") [] (Returns [1; 2; 3]).

(** What the drop zone keeps true. *)
Definition DropZone_ok (classList : list JSString) (st : DropZone.state) : Prop :=
  0 <= DropZone.dragCounter st
  /\ (In (str "dragging") (DropZone.classList st) <-> 1 <= DropZone.dragCounter st)
  /\ DropZone.remove (str "dragging") (DropZone.classList st) = classList.

(** * Properties *)

(** ** Bytes and words *)

Lemma ToUint8_id (b : Z) : 0 <= b < 256 -> JS.ToUint8 b = b.
Proof. intros H. unfold JS.ToUint8. apply Z.mod_small. exact H. Qed.

Lemma ToUint8_range (b : Z) : 0 <= JS.ToUint8 b < 256.
Proof. unfold JS.ToUint8. apply Z.mod_pos_bound. reflexivity. Qed.

Lemma map_ToUint8_id (l : list Z) : bytes_ok l -> map JS.ToUint8 l = l.
Proof.
  induction 1 as [|b l Hb _ IH]; simpl.
  - reflexivity.
  - rewrite ToUint8_id by exact Hb. now rewrite IH.
Qed.

Lemma bytes_ok_firstn (n : nat) (l : list Z) : bytes_ok l -> bytes_ok (firstn n l).
Proof.
  unfold bytes_ok. intros H. rewrite <- (firstn_skipn n l) in H.
  apply Forall_app in H. tauto.
Qed.

Lemma bytes_ok_skipn (n : nat) (l : list Z) : bytes_ok l -> bytes_ok (skipn n l).
Proof.
  unfold bytes_ok. intros H. rewrite <- (firstn_skipn n l) in H.
  apply Forall_app in H. tauto.
Qed.

Lemma ToUint32_id (x : Z) : uint32 x -> JS.ToUint32 x = x.
Proof. intros H. unfold JS.ToUint32. apply Z.mod_small. exact H. Qed.

Lemma ToUint32_range (x : Z) : uint32 (JS.ToUint32 x).
Proof. unfold uint32, JS.ToUint32. apply Z.mod_pos_bound. reflexivity. Qed.

Lemma word_bytes_le_ok (w : Z) : bytes_ok (word_bytes_le w).
Proof.
  unfold bytes_ok, word_bytes_le.
  repeat constructor; apply Z.mod_pos_bound; reflexivity.
Qed.

Lemma word_bytes_be_ok (w : Z) : bytes_ok (word_bytes_be w).
Proof.
  unfold word_bytes_be, bytes_ok. apply Forall_rev. apply word_bytes_le_ok.
Qed.

Lemma Uint32Array_buffer_ok (host : endianness) (words : list Z) :
  bytes_ok (Uint32Array_buffer host words).
Proof.
  unfold Uint32Array_buffer, bytes_ok.
  induction words as [|w ws IH]; simpl.
  - constructor.
  - apply Forall_app. split; [|exact IH].
    destruct host; [apply word_bytes_le_ok | apply word_bytes_be_ok].
Qed.

Lemma Uint32Array_buffer_length (host : endianness) (words : list Z) :
  length (Uint32Array_buffer host words) = (length words * 4)%nat.
Proof.
  unfold Uint32Array_buffer.
  induction words as [|w ws IH]; simpl.
  - reflexivity.
  - rewrite length_app, IH. destruct host; reflexivity.
Qed.

(** ** [Uint8Array.set] *)

Lemma Uint8Array_set_new_front (n m : nat) (source : list Z) :
  length source = n ->
  Uint8Array_set (Uint8Array_new (n + m)) source 0
  = Ok (map JS.ToUint8 source ++ Uint8Array_new m).
Proof.
  intros Hlen. unfold Uint8Array_set, Uint8Array_new.
  rewrite repeat_length. simpl plus.
  destruct (Nat.leb_spec (length source) (n + m)) as [_|Hgt]; [|lia].
  simpl firstn. simpl app. f_equal. f_equal.
  rewrite Hlen, repeat_app, skipn_app, repeat_length, Nat.sub_diag.
  rewrite skipn_all2 by (rewrite repeat_length; lia). reflexivity.
Qed.

Lemma Uint8Array_set_back (front : list Z) (m : nat) (source : list Z) :
  length source = m ->
  Uint8Array_set (front ++ Uint8Array_new m) source (length front)
  = Ok (front ++ map JS.ToUint8 source).
Proof.
  intros Hlen. unfold Uint8Array_set, Uint8Array_new.
  rewrite length_app, repeat_length, Hlen.
  rewrite Nat.leb_refl.
  rewrite firstn_app, Nat.sub_diag, firstn_all. simpl firstn. rewrite app_nil_r.
  rewrite skipn_all2 by (rewrite length_app, repeat_length; lia).
  now rewrite app_nil_r.
Qed.

(** ** The layout [blockToBinary] writes *)

Lemma header_words_length (block : Block.t) :
  length (header_words block) = (length (Block.indices block) + 4)%nat.
Proof. unfold header_words. simpl. rewrite length_app. simpl. lia. Qed.

(** On every host [blockToBinary] returns: the header words, each reduced
    modulo 2^32 and laid out in the byte order of the host, then the data. *)
Lemma blockToBinary_layout (host : endianness) (block : Block.t) :
  blockToBinary host block
  = Ok (Uint32Array_buffer host (map JS.ToUint32 (header_words block))
          ++ map JS.ToUint8 (Block.data block)).
Proof.
  unfold blockToBinary, Uint32Array_from.
  change ([Z.of_nat (length (Block.indices block))] ++ Block.indices block
            ++ [Block.k block; Block.bytes block; Block.checksum block])
    with (header_words block).
  set (hb := Uint32Array_buffer host (map JS.ToUint32 (header_words block))).
  assert (Hhb : length hb = (length (map JS.ToUint32 (header_words block)) * 4)%nat)
    by apply Uint32Array_buffer_length.
  rewrite Uint8Array_set_new_front by exact Hhb.
  cbn [JS.bind].
  rewrite (map_ToUint8_id hb) by apply Uint32Array_buffer_ok.
  rewrite Nat.add_0_l, <- Hhb.
  rewrite Uint8Array_set_back by reflexivity.
  reflexivity.
Qed.

(** The length of the buffer is [(degree + 4) * 4 + len(data)], on every
    host. *)
Lemma blockToBinary_length (host : endianness) (block : Block.t) :
  exists binary,
    blockToBinary host block = Ok binary
    /\ length binary
       = ((length (Block.indices block) + 4) * 4 + length (Block.data block))%nat.
Proof.
  eexists. split; [apply blockToBinary_layout|].
  rewrite length_app, Uint32Array_buffer_length, !length_map, header_words_length.
  reflexivity.
Qed.

(** On a big-endian host the header of a representable block is laid out
    as big-endian words: the degree, the indices, [k], [bytes], [checksum];
    the data follow as they are. *)
Lemma blockToBinary_big_endian (block : Block.t) :
  block_representable block ->
  blockToBinary BigEndian block
  = Ok (flat_map word_bytes_be (header_words block) ++ Block.data block).
Proof.
  intros [Hws Hdata]. rewrite blockToBinary_layout.
  rewrite (map_ToUint8_id _ Hdata). do 2 f_equal.
  induction Hws as [|w ws Hw _ IH]; simpl.
  - reflexivity.
  - now rewrite ToUint32_id, IH.
Qed.

(** On a little-endian host the same words are laid out least significant
    byte first. *)
Lemma blockToBinary_little_endian (block : Block.t) :
  block_representable block ->
  blockToBinary LittleEndian block
  = Ok (flat_map word_bytes_le (header_words block) ++ Block.data block).
Proof.
  intros [Hws Hdata]. rewrite blockToBinary_layout.
  rewrite (map_ToUint8_id _ Hdata). do 2 f_equal.
  induction Hws as [|w ws Hw _ IH]; simpl.
  - reflexivity.
  - now rewrite ToUint32_id, IH.
Qed.

(** ** What [binaryToBlock] reads *)

Lemma getUint32_inside (dataView : list Z) (p : nat) :
  (p + 4 <= length dataView)%nat ->
  getUint32 dataView (Z.of_nat p) = Ok (be32_at dataView p).
Proof.
  intros H. unfold getUint32.
  destruct (Z.leb_spec 0 (Z.of_nat p)) as [_|]; [|lia].
  destruct (Z.leb_spec (Z.of_nat p + 4) (Z.of_nat (length dataView))) as [_|]; [|lia].
  simpl andb. cbv iota. rewrite Nat2Z.id. reflexivity.
Qed.

Lemma getUint32_outside (dataView : list Z) (pos : Z) :
  Z.of_nat (length dataView) < pos + 4 ->
  getUint32 dataView pos = Throw RangeError.
Proof.
  intros H. unfold getUint32.
  destruct (Z.leb_spec (pos + 4) (Z.of_nat (length dataView))) as [|_]; [lia|].
  now rewrite andb_false_r.
Qed.

Lemma be32_at_range (dataView : list Z) (p : nat) :
  bytes_ok dataView -> uint32 (be32_at dataView p).
Proof.
  intros Hok.
  assert (Hn : forall i, 0 <= nth i dataView 0 < 256).
  { intros i. destruct (Nat.lt_ge_cases i (length dataView)) as [Hi|Hi].
    - unfold bytes_ok in Hok. rewrite Forall_forall in Hok.
      apply Hok. now apply nth_In.
    - rewrite nth_overflow by exact Hi. lia. }
  unfold uint32, be32_at.
  pose proof (Hn p). pose proof (Hn (p + 1)%nat).
  pose proof (Hn (p + 2)%nat). pose proof (Hn (p + 3)%nat).
  change (2 ^ 24) with 16777216. change (2 ^ 16) with 65536.
  change (2 ^ 8) with 256. change (2 ^ 32) with 4294967296. lia.
Qed.

Lemma indices_read_succ (dataView : list Z) (n : nat) :
  indices_read dataView (S n)
  = indices_read dataView n ++ [be32_at dataView ((n + 1) * 4)].
Proof. unfold indices_read. rewrite seq_S, map_app. reflexivity. Qed.

(** The state of the loop after [n] passes, when the buffer holds word
    [n]. *)
Lemma readIndex_iter_inside (dataView : list Z) (n : N) :
  (N.to_nat n = 0 \/ (N.to_nat n + 1) * 4 <= length dataView)%nat ->
  N.iter n (readIndex dataView) (Ok (0, []))
  = Ok (Z.of_N n, indices_read dataView (N.to_nat n)).
Proof.
  induction n as [|n IH] using N.peano_ind; intros H.
  - reflexivity.
  - rewrite N.iter_succ, IH by lia.
    rewrite N2Nat.inj_succ, indices_read_succ.
    unfold readIndex at 1. cbn [JS.bind fst snd].
    replace ((Z.of_N n + 1) * 4) with (Z.of_nat ((N.to_nat n + 1) * 4)) by lia.
    rewrite getUint32_inside by lia.
    cbn [JS.bind]. do 2 f_equal. lia.
Qed.

(** A pass whose word lies past the end of the buffer throws, and so does
    every pass after it. *)
Lemma readIndex_iter_outside (dataView : list Z) (n : N) :
  (N.to_nat n <> 0 /\ length dataView < (N.to_nat n + 1) * 4)%nat ->
  N.iter n (readIndex dataView) (Ok (0, [])) = Throw RangeError.
Proof.
  induction n as [|n IH] using N.peano_ind; intros [Hn H].
  - now elim Hn.
  - rewrite N.iter_succ. rewrite N2Nat.inj_succ in H.
    destruct (Nat.le_gt_cases ((N.to_nat n + 1) * 4) (length dataView)) as [Hin|Hout].
    + rewrite readIndex_iter_inside by lia.
      unfold readIndex. cbn [JS.bind fst snd].
      rewrite getUint32_outside by lia. reflexivity.
    + destruct (Nat.eq_dec (N.to_nat n) 0) as [E|E].
      * assert (n = 0%N) by lia. subst n. simpl N.iter.
        unfold readIndex. cbn [JS.bind fst snd].
        rewrite getUint32_outside by (simpl in *; lia). reflexivity.
      * rewrite IH by lia. reflexivity.
Qed.

Lemma readIndices_inside (dataView : list Z) (degree : Z) :
  0 <= degree ->
  (degree + 1) * 4 <= Z.of_nat (length dataView) ->
  readIndices dataView degree = Ok (indices_read dataView (Z.to_nat degree)).
Proof.
  intros H0 H. unfold readIndices.
  rewrite readIndex_iter_inside by lia.
  cbn [JS.bind snd]. now rewrite Z_N_nat.
Qed.

Lemma DataView_ok (binary : U8.t) :
  bytes_ok (U8.buffer binary) ->
  bytes_ok (DataView_new (U8.buffer binary) (U8.byteOffset binary)).
Proof.
  unfold DataView_new. apply bytes_ok_skipn.
Qed.

Lemma binaryToBlock_inside (binary : U8.t) :
  bytes_ok (U8.buffer binary) ->
  (degree_field binary + 4) * 4 <= Z.of_nat (available binary) ->
  binaryToBlock binary = Ok (block_read binary).
Proof.
  intros Hok H. unfold binaryToBlock, block_read, degree_field, available in *.
  set (dv := DataView_new (U8.buffer binary) (U8.byteOffset binary)) in *.
  pose proof (be32_at_range dv 0 (DataView_ok binary Hok)) as [Hd0 _].
  set (d := be32_at dv 0) in *.
  change 0 with (Z.of_nat 0) at 1. rewrite getUint32_inside by lia.
  cbn [JS.bind]. fold d.
  rewrite readIndices_inside by lia. cbn [JS.bind].
  replace ((d + 1) * 4) with (Z.of_nat ((Z.to_nat d + 1) * 4)) by lia.
  replace ((d + 2) * 4) with (Z.of_nat ((Z.to_nat d + 2) * 4)) by lia.
  replace ((d + 3) * 4) with (Z.of_nat ((Z.to_nat d + 3) * 4)) by lia.
  rewrite !getUint32_inside by lia. cbn [JS.bind].
  unfold U8.slice.
  replace (Z.to_nat ((d + 4) * 4)) with ((Z.to_nat d + 4) * 4)%nat by lia.
  reflexivity.
Qed.

Lemma binaryToBlock_outside (binary : U8.t) :
  bytes_ok (U8.buffer binary) ->
  (available binary < 4)%nat
  \/ Z.of_nat (available binary) < (degree_field binary + 4) * 4 ->
  binaryToBlock binary = Throw RangeError.
Proof.
  intros Hok H. unfold binaryToBlock, degree_field, available in *.
  set (dv := DataView_new (U8.buffer binary) (U8.byteOffset binary)) in *.
  destruct (Nat.lt_ge_cases (length dv) 4) as [Hshort|Hlong].
  { rewrite getUint32_outside by lia. reflexivity. }
  destruct H as [H|H]; [lia|].
  pose proof (be32_at_range dv 0 (DataView_ok binary Hok)) as [Hd0 _].
  set (d := be32_at dv 0) in *.
  change 0 with (Z.of_nat 0) at 1. rewrite getUint32_inside by lia.
  cbn [JS.bind]. fold d.
  destruct (Z.le_gt_cases ((d + 1) * 4) (Z.of_nat (length dv))) as [Hin|Hout].
  - rewrite readIndices_inside by lia. cbn [JS.bind].
    destruct (Z.le_gt_cases ((d + 2) * 4) (Z.of_nat (length dv))) as [Hin2|Hout2].
    + replace ((d + 1) * 4) with (Z.of_nat ((Z.to_nat d + 1) * 4)) by lia.
      rewrite getUint32_inside by lia. cbn [JS.bind].
      destruct (Z.le_gt_cases ((d + 3) * 4) (Z.of_nat (length dv))) as [Hin3|Hout3].
      * replace ((d + 2) * 4) with (Z.of_nat ((Z.to_nat d + 2) * 4)) by lia.
        rewrite getUint32_inside by lia. cbn [JS.bind].
        rewrite (getUint32_outside dv ((d + 3) * 4)) by lia. reflexivity.
      * rewrite (getUint32_outside dv ((d + 2) * 4)) by lia. reflexivity.
    + rewrite (getUint32_outside dv ((d + 1) * 4)) by lia. reflexivity.
  - unfold readIndices.
    rewrite readIndex_iter_outside by lia. reflexivity.
Qed.

(** ** Decoding what a big-endian host encodes *)

Lemma be32_of_word_bytes_be (w : Z) (rest : list Z) :
  uint32 w -> be32_at (word_bytes_be w ++ rest) 0 = w.
Proof.
  unfold uint32, be32_at, word_bytes_be, word_bytes_le. simpl.
  change (2 ^ 32) with 4294967296. change (2 ^ 24) with 16777216.
  change (2 ^ 16) with 65536. change (2 ^ 8) with 256.
  intros H. Z.to_euclidean_division_equations. lia.
Qed.

Lemma be32_at_skip_word (b0 b1 b2 b3 : Z) (rest : list Z) (p : nat) :
  be32_at (b0 :: b1 :: b2 :: b3 :: rest) (4 + p) = be32_at rest p.
Proof. reflexivity. Qed.

Lemma be32_at_buffer (ws rest : list Z) (j : nat) :
  Forall uint32 ws -> (j < length ws)%nat ->
  be32_at (Uint32Array_buffer BigEndian ws ++ rest) (j * 4) = nth j ws 0.
Proof.
  intros Hws. revert j.
  induction Hws as [|w ws Hw _ IH]; intros j Hj; simpl in Hj.
  - lia.
  - destruct j as [|j].
    + change (Uint32Array_buffer BigEndian (w :: ws))
        with (word_bytes_be w ++ Uint32Array_buffer BigEndian ws).
      rewrite <- app_assoc. now apply be32_of_word_bytes_be.
    + replace (S j * 4)%nat with (4 + j * 4)%nat by lia.
      change (Uint32Array_buffer BigEndian (w :: ws) ++ rest)
        with ((w / 2 ^ 24) mod 256 :: (w / 2 ^ 16) mod 256 :: (w / 2 ^ 8) mod 256
                :: w mod 256 :: (Uint32Array_buffer BigEndian ws ++ rest)).
      rewrite be32_at_skip_word. apply IH. lia.
Qed.

Lemma map_nth_seq_shift (front l back : list Z) :
  map (fun i => nth (length front + i) (front ++ l ++ back) 0) (seq 0 (length l)) = l.
Proof.
  revert front. induction l as [|x l IH]; intros front.
  - reflexivity.
  - simpl length. simpl seq. simpl map. f_equal.
    + rewrite Nat.add_0_r, app_nth2, Nat.sub_diag by lia. reflexivity.
    + rewrite <- seq_shift, map_map.
      specialize (IH (front ++ [x])).
      rewrite <- app_assoc in IH. simpl in IH.
      rewrite <- IH at 2. apply map_ext. intros i.
      rewrite length_app. simpl. f_equal. lia.
Qed.

Lemma header_words_nth_index (block : Block.t) (i : nat) :
  nth (i + 1) (header_words block) 0
  = nth i (Block.indices block
             ++ [Block.k block; Block.bytes block; Block.checksum block]) 0.
Proof. unfold header_words. now rewrite Nat.add_1_r. Qed.

Lemma header_words_nth_tail (block : Block.t) (j : nat) :
  nth (length (Block.indices block) + j + 1) (header_words block) 0
  = nth j [Block.k block; Block.bytes block; Block.checksum block] 0.
Proof.
  rewrite header_words_nth_index, app_nth2 by lia.
  f_equal. lia.
Qed.

(** On a big-endian host, decoding the serialized form of a representable
    block gives the block back. *)
Lemma roundtrip_big_endian (block : Block.t) :
  block_representable block ->
  exists binary,
    blockToBinary BigEndian block = Ok binary
    /\ binaryToBlock (U8.fresh binary) = Ok block.
Proof.
  intros [Hws Hdata].
  eexists. split; [apply blockToBinary_layout|].
  assert (Hid : map JS.ToUint32 (header_words block) = header_words block).
  { clear Hdata. induction Hws as [|w ws Hw _ IH]; simpl.
    - reflexivity.
    - now rewrite ToUint32_id, IH. }
  rewrite Hid, (map_ToUint8_id _ Hdata).
  set (hb := Uint32Array_buffer BigEndian (header_words block)).
  set (d := length (Block.indices block)).
  assert (Hlen : length (header_words block) = (d + 4)%nat)
    by apply header_words_length.
  assert (Hhb : length hb = ((d + 4) * 4)%nat).
  { unfold hb. now rewrite Uint32Array_buffer_length, Hlen. }
  assert (Hword : forall j, (j < d + 4)%nat ->
            be32_at (hb ++ Block.data block) (j * 4) = nth j (header_words block) 0).
  { intros j Hj. unfold hb. apply be32_at_buffer; [exact Hws|lia]. }
  assert (Hdeg : degree_field (U8.fresh (hb ++ Block.data block)) = Z.of_nat d).
  { unfold degree_field, U8.fresh, DataView_new.
    cbn [U8.buffer U8.byteOffset skipn].
    change 0%nat with (0 * 4)%nat. rewrite Hword by lia. reflexivity. }
  rewrite binaryToBlock_inside.
  - f_equal. unfold block_read.
    fold (degree_field (U8.fresh (hb ++ Block.data block))).
    rewrite Hdeg, Nat2Z.id.
    unfold U8.fresh, DataView_new, U8.contents.
    cbn [U8.buffer U8.byteOffset U8.length skipn].
    rewrite !Hword by lia.
    replace (d + 1)%nat with (d + 0 + 1)%nat at 1 by lia.
    replace (d + 2)%nat with (d + 1 + 1)%nat by lia.
    replace (d + 3)%nat with (d + 2 + 1)%nat by lia.
    unfold d at 1 2 3. rewrite !header_words_nth_tail. cbn [nth].
    rewrite firstn_all, <- Hhb, skipn_app, skipn_all, Nat.sub_diag.
    cbn [skipn app].
    replace (indices_read (hb ++ Block.data block) d) with (Block.indices block).
    + now destruct block.
    + unfold indices_read.
      rewrite <- (map_nth_seq_shift [Z.of_nat d] (Block.indices block)
                    [Block.k block; Block.bytes block; Block.checksum block]) at 1.
      fold d. apply map_ext_in. intros i Hi. apply in_seq in Hi.
      rewrite Hword by lia. rewrite Nat.add_1_r. reflexivity.
  - unfold U8.fresh. cbn [U8.buffer]. apply Forall_app.
    split; [apply Uint32Array_buffer_ok|exact Hdata].
  - rewrite Hdeg. unfold available, U8.fresh, DataView_new.
    cbn [U8.buffer U8.byteOffset skipn].
    rewrite length_app, Hhb. lia.
Qed.

(** ** Decoding what a little-endian host encodes *)

Lemma be32_of_word_bytes_le_small (d : Z) (rest : list Z) :
  0 <= d < 256 -> be32_at (word_bytes_le d ++ rest) 0 = d * 2 ^ 24.
Proof.
  unfold be32_at, word_bytes_le. simpl.
  change (2 ^ 24) with 16777216. change (2 ^ 16) with 65536.
  change (2 ^ 8) with 256.
  intros H. Z.to_euclidean_division_equations. lia.
Qed.

(** X1: on a little-endian host the decoder reads the degree [d] of an encoded
    block as [d * 2^24]: for a block of fewer than 256 indices whose data
    are shorter than 32 MiB the buffer is shorter than the header that
    degree announces, and decoding throws. *)
Lemma roundtrip_little_endian_throws (block : Block.t) :
  bytes_ok (Block.data block) ->
  (1 <= length (Block.indices block) < 256)%nat ->
  Z.of_nat (length (Block.data block)) < 2 ^ 25 ->
  exists binary,
    blockToBinary LittleEndian block = Ok binary
    /\ binaryToBlock (U8.fresh binary) = Throw RangeError.
Proof.
  intros Hdata Hd Hlen.
  eexists. split; [apply blockToBinary_layout|].
  set (d := length (Block.indices block)) in *.
  set (hb := Uint32Array_buffer LittleEndian (map JS.ToUint32 (header_words block))).
  assert (Hhb : length hb = ((d + 4) * 4)%nat).
  { unfold hb.
    now rewrite Uint32Array_buffer_length, length_map, header_words_length. }
  apply binaryToBlock_outside.
  - unfold U8.fresh. cbn [U8.buffer]. apply Forall_app. split.
    + apply Uint32Array_buffer_ok.
    + rewrite map_ToUint8_id by exact Hdata. exact Hdata.
  - right. unfold available, degree_field, U8.fresh, DataView_new.
    cbn [U8.buffer U8.byteOffset skipn].
    rewrite length_app, length_map, Hhb.
    unfold hb, header_words. fold d.
    change (Uint32Array_buffer LittleEndian (map JS.ToUint32 (Z.of_nat d :: ?l)))
      with (word_bytes_le (JS.ToUint32 (Z.of_nat d))
              ++ Uint32Array_buffer LittleEndian (map JS.ToUint32 l)).
    rewrite <- app_assoc.
    assert (H32 : uint32 (Z.of_nat d)).
    { unfold uint32. change (2 ^ 32) with 4294967296. lia. }
    rewrite ToUint32_id by exact H32.
    rewrite be32_of_word_bytes_le_small by lia.
    change (2 ^ 24) with 16777216.
    change (2 ^ 25) with 33554432 in Hlen. lia.
Qed.

(** The [DataView] is built without a length: on an array that stops
    before the end of its buffer the header is read past the end of the
    array. Here the array is the first 8 bytes of a buffer of 21, and the
    block comes back with the [k], [bytes] and [checksum] that lie beyond
    it. *)
Lemma binaryToBlock_reads_past_array :
  binaryToBlock
    (U8.mk [0; 0; 0; 1;  0; 0; 0; 0;  0; 0; 0; 1;  0; 0; 0; 1;  0; 0; 0; 0;  7]
       0 8)
  = Ok (Block.mk 1 1 0 [0] []).
Proof. reflexivity. Qed.

(** ** The codec: the claims *)

(** C1, at block [{k: 1, bytes: 1, checksum: 0, indices: [0], data: [7]}] on a
    little-endian host: [blockToBinary] writes the header words in the byte
    order of the host, [binaryToBlock] reads them big-endian, so the decoder
    takes the degree 1 for 16777216 and throws a [RangeError] instead of
    giving the block back. *)
Theorem roundtrip_little_endian_block_one :
  blockToBinary LittleEndian block_one
  = Ok [1; 0; 0; 0;  0; 0; 0; 0;  1; 0; 0; 0;  1; 0; 0; 0;  0; 0; 0; 0;  7]
  /\ degree_field
       (U8.fresh [1; 0; 0; 0;  0; 0; 0; 0;  1; 0; 0; 0;  1; 0; 0; 0;  0; 0; 0; 0;  7])
     = 16777216
  /\ binaryToBlock
       (U8.fresh [1; 0; 0; 0;  0; 0; 0; 0;  1; 0; 0; 0;  1; 0; 0; 0;  0; 0; 0; 0;  7])
     = Throw RangeError.
Proof.
  split; [reflexivity|]. split; [reflexivity|].
  apply binaryToBlock_outside.
  - unfold bytes_ok, U8.fresh. cbn [U8.buffer]. repeat constructor; lia.
  - right. vm_compute. reflexivity.
Qed.

(** C3, at the same block on a little-endian host: the buffer has the length
    the layout gives, [(1 + 4) * 4 + 1 = 21], but its header words are
    little-endian; the big-endian layout is the one a big-endian host
    writes. *)
Theorem blockToBinary_little_endian_block_one :
  blockToBinary LittleEndian block_one
  = Ok [1; 0; 0; 0;  0; 0; 0; 0;  1; 0; 0; 0;  1; 0; 0; 0;  0; 0; 0; 0;  7]
  /\ blockToBinary BigEndian block_one
     = Ok [0; 0; 0; 1;  0; 0; 0; 0;  0; 0; 0; 1;  0; 0; 0; 1;  0; 0; 0; 0;  7].
Proof. split; reflexivity. Qed.

(** C2 does not hold as stated: a buffer of sixteen zero bytes has degree
    0 and is decoded to a block with no index; a buffer with the index 5
    twice under [k = 2] is decoded as well, duplicate and out of range as
    the index is. *)
Lemma binaryToBlock_accepts_malformed :
  binaryToBlock (U8.fresh (repeat 0 16)) = Ok (Block.mk 0 0 0 [] [])
  /\ binaryToBlock
       (U8.fresh [0; 0; 0; 2;  0; 0; 0; 5;  0; 0; 0; 5;  0; 0; 0; 2;
                  0; 0; 0; 1;  0; 0; 0; 0;  9])
     = Ok (Block.mk 2 1 0 [5; 5] [9]).
Proof. split; reflexivity. Qed.

(** C2, amended: on an array that reaches the end of its buffer,
    [binaryToBlock] throws a [RangeError] when the array is shorter than the
    four bytes of the degree or than the [(degree + 4) * 4] bytes of the
    header that degree announces, and on every other array it returns the
    block it reads, whatever the degree and the indices are. *)
Theorem binaryToBlock_range_check (binary : U8.t) :
  bytes_ok (U8.buffer binary) ->
  (U8.byteOffset binary + U8.length binary = length (U8.buffer binary))%nat ->
  let n := Z.of_nat (U8.length binary) in
  (n < 4 \/ n < (degree_field binary + 4) * 4 ->
   binaryToBlock binary = Throw RangeError)
  /\ (4 <= n /\ (degree_field binary + 4) * 4 <= n ->
      binaryToBlock binary = Ok (block_read binary)).
Proof.
  intros Hok Hend n.
  assert (Hav : available binary = U8.length binary).
  { unfold available, DataView_new. rewrite length_skipn. lia. }
  split.
  - intros H. apply binaryToBlock_outside; [exact Hok|].
    rewrite Hav. fold n. lia.
  - intros [_ H]. apply binaryToBlock_inside; [exact Hok|].
    rewrite Hav. exact H.
Qed.

Lemma binaryToBlock_range_check_witness :
  binaryToBlock (U8.fresh [0; 0; 0; 1;  0; 0; 0; 0;  0; 0; 0; 1;  0; 0; 0; 1;
                           0; 0; 0; 0;  7])
  = Ok block_one
  /\ binaryToBlock (U8.fresh [0; 0; 0; 1;  0; 0; 0; 0;  0; 0; 0; 1;  0; 0; 0; 1;
                              0; 0; 0])
     = Throw RangeError.
Proof.
  split.
  - apply (proj2 (binaryToBlock_range_check
                    (U8.fresh [0; 0; 0; 1;  0; 0; 0; 0;  0; 0; 0; 1;  0; 0; 0; 1;
                               0; 0; 0; 0;  7])
                    ltac:(unfold bytes_ok; cbn; repeat constructor; lia)
                    ltac:(reflexivity))).
    vm_compute. split; discriminate.
  - apply (proj1 (binaryToBlock_range_check
                    (U8.fresh [0; 0; 0; 1;  0; 0; 0; 0;  0; 0; 0; 1;  0; 0; 0; 1;
                               0; 0; 0])
                    ltac:(unfold bytes_ok; cbn; repeat constructor; lia)
                    ltac:(reflexivity))).
    right. vm_compute. reflexivity.
Defined.

(** ** [sliceData] *)

Lemma ceil_div_spec (n d j : nat) :
  (1 <= d)%nat -> (j < ceil_div n d <-> j * d < n)%nat.
Proof.
  intros Hd. unfold ceil_div. split; intros H.
  - destruct (Nat.lt_ge_cases (j * d) n) as [|Hge]; [assumption|exfalso].
    assert ((n + d - 1) / d < S j)%nat; [|lia].
    apply Nat.Div0.div_lt_upper_bound. lia.
  - assert (S j <= (n + d - 1) / d)%nat; [|lia].
    apply Nat.div_le_lower_bound; lia.
Qed.

Lemma ceil_div_bounds (n d : nat) :
  (1 <= d)%nat ->
  (n <= ceil_div n d * d /\ ceil_div n d * d < n + d)%nat.
Proof.
  intros Hd. split.
  - destruct (Nat.le_gt_cases n (ceil_div n d * d)) as [|Hlt]; [assumption|].
    apply (ceil_div_spec n d (ceil_div n d) Hd) in Hlt. lia.
  - destruct (ceil_div n d) as [|j] eqn:E; [lia|].
    assert (Hj : (j < ceil_div n d)%nat) by lia.
    apply (ceil_div_spec n d j Hd) in Hj. lia.
Qed.

Lemma zero_pad_length (blockSize : nat) (chunk : list Z) :
  (length chunk <= blockSize)%nat -> length (zero_pad blockSize chunk) = blockSize.
Proof. intros H. unfold zero_pad. rewrite length_app, repeat_length. lia. Qed.

Lemma slice_at_length (data : list Z) (blockSize j : nat) :
  length (slice_at data blockSize j) = blockSize.
Proof.
  unfold slice_at. apply zero_pad_length. rewrite length_firstn. lia.
Qed.

(** The block one pass of the loop builds. *)
Lemma sliceData_block (data : list Z) (blockSize i : nat) :
  bytes_ok data ->
  Uint8Array_set (Uint8Array_new blockSize) (firstn blockSize (skipn i data)) 0
  = Ok (zero_pad blockSize (firstn blockSize (skipn i data))).
Proof.
  intros Hok. unfold Uint8Array_set, Uint8Array_new, zero_pad.
  set (chunk := firstn blockSize (skipn i data)).
  assert (Hlen : (length chunk <= blockSize)%nat).
  { unfold chunk. rewrite length_firstn. lia. }
  assert (Hchunk : bytes_ok chunk).
  { unfold chunk. now apply bytes_ok_firstn, bytes_ok_skipn. }
  rewrite repeat_length. simpl plus.
  destruct (Nat.leb_spec (length chunk) blockSize) as [_|]; [|lia].
  simpl firstn. simpl app. rewrite map_ToUint8_id by exact Hchunk.
  do 2 f_equal.
  replace blockSize with (length chunk + (blockSize - length chunk))%nat at 1 by lia.
  rewrite repeat_app, skipn_app, repeat_length, Nat.sub_diag.
  rewrite skipn_all2 by (rewrite repeat_length; lia). reflexivity.
Qed.

(** The loop, entered at slice [j] with enough fuel for the slices left. *)
Lemma sliceData_loop_spec (data : list Z) (blockSize : nat) :
  (1 <= blockSize)%nat -> bytes_ok data ->
  forall fuel j blocks,
    (ceil_div (length data) blockSize - j <= fuel)%nat ->
    sliceData_loop fuel data blockSize (j * blockSize) blocks
    = Ok (blocks ++ map (slice_at data blockSize)
                      (seq j (ceil_div (length data) blockSize - j))).
Proof.
  intros Hbs Hok. induction fuel as [|fuel IH]; intros j blocks Hfuel.
  - simpl.
    destruct (Nat.ltb_spec (j * blockSize) (length data)) as [Hlt|Hge].
    + apply (ceil_div_spec _ _ _ Hbs) in Hlt. lia.
    + replace (ceil_div (length data) blockSize - j)%nat with 0%nat by lia.
      simpl. now rewrite app_nil_r.
  - simpl.
    destruct (Nat.ltb_spec (j * blockSize) (length data)) as [Hlt|Hge].
    + apply (ceil_div_spec _ _ _ Hbs) in Hlt.
      rewrite sliceData_block by exact Hok. cbn [JS.bind].
      replace (j * blockSize + blockSize)%nat with (S j * blockSize)%nat by lia.
      rewrite IH by lia.
      replace (ceil_div (length data) blockSize - j)%nat
        with (S (ceil_div (length data) blockSize - S j)) by lia.
      simpl seq. simpl map. rewrite <- app_assoc. reflexivity.
    + assert (~ (j < ceil_div (length data) blockSize)%nat).
      { intros Hj. apply (ceil_div_spec _ _ _ Hbs) in Hj. lia. }
      replace (ceil_div (length data) blockSize - j)%nat with 0%nat by lia.
      simpl. now rewrite app_nil_r.
Qed.

Lemma sliceData_spec (data : list Z) (blockSize fuel : nat) :
  (1 <= blockSize)%nat -> bytes_ok data ->
  (ceil_div (length data) blockSize <= fuel)%nat ->
  sliceData fuel data blockSize = Ok (slices_of data blockSize).
Proof.
  intros Hbs Hok Hfuel. unfold sliceData, slices_of.
  change 0%nat with (0 * blockSize)%nat at 1.
  rewrite sliceData_loop_spec by (assumption || lia).
  now rewrite Nat.sub_0_r.
Qed.

(** With less fuel than slices left the loop is still running when the fuel
    is used up. *)
Lemma sliceData_loop_pending (data : list Z) (blockSize : nat) :
  (1 <= blockSize)%nat -> bytes_ok data ->
  forall fuel j blocks,
    (fuel < ceil_div (length data) blockSize - j)%nat ->
    sliceData_loop fuel data blockSize (j * blockSize) blocks = Pending.
Proof.
  intros Hbs Hok. induction fuel as [|fuel IH]; intros j blocks Hfuel.
  - simpl.
    destruct (Nat.ltb_spec (j * blockSize) (length data)) as [_|Hge];
      [reflexivity|].
    assert (Hj : (j < ceil_div (length data) blockSize)%nat) by lia.
    apply (ceil_div_spec _ _ _ Hbs) in Hj. lia.
  - simpl.
    destruct (Nat.ltb_spec (j * blockSize) (length data)) as [_|Hge].
    + rewrite sliceData_block by exact Hok. cbn [JS.bind].
      replace (j * blockSize + blockSize)%nat with (S j * blockSize)%nat by lia.
      apply IH. lia.
    + assert (Hj : (j < ceil_div (length data) blockSize)%nat) by lia.
      apply (ceil_div_spec _ _ _ Hbs) in Hj. lia.
Qed.

(** With a block size of 0 the loop never advances: on data that are not
    empty no amount of fuel lets [sliceData] return. *)
Lemma sliceData_zero_blockSize (data : list Z) (fuel : nat) :
  data <> [] -> sliceData fuel data 0 = Pending.
Proof.
  intros Hne. unfold sliceData. generalize (@nil (list Z)).
  induction fuel as [|fuel IH]; intros blocks; simpl.
  - destruct data; [congruence|reflexivity].
  - destruct data as [|b data]; [congruence|]. simpl Nat.ltb. cbv iota.
    unfold Uint8Array_set, Uint8Array_new. simpl. apply IH.
Qed.

Lemma ceil_div_le (n d : nat) : (1 <= d)%nat -> (ceil_div n d <= n)%nat.
Proof.
  intros Hd. destruct (ceil_div n d) as [|j] eqn:E; [lia|].
  assert (Hj : (j < ceil_div n d)%nat) by lia.
  apply (ceil_div_spec n d j Hd) in Hj. nia.
Qed.

(** The slices put end to end are the data followed by the padding. *)
Lemma concat_slices_from (data : list Z) (blockSize : nat) :
  (1 <= blockSize)%nat ->
  forall n j,
    (j + n = ceil_div (length data) blockSize)%nat ->
    concat (map (slice_at data blockSize) (seq j n))
    = skipn (j * blockSize) data
        ++ repeat 0 ((j + n) * blockSize - Nat.max (j * blockSize) (length data)).
Proof.
  intros Hbs. induction n as [|n IH]; intros j Hj.
  - simpl. rewrite Nat.add_0_r in *. subst j.
    pose proof (ceil_div_bounds (length data) blockSize Hbs) as [Hle _].
    rewrite skipn_all2 by lia.
    replace (_ - _)%nat with 0%nat by lia. reflexivity.
  - simpl seq. simpl map. simpl concat. rewrite IH by lia.
    assert (Hlt : (j * blockSize < length data)%nat).
    { apply (ceil_div_spec _ _ _ Hbs). lia. }
    unfold slice_at, zero_pad. rewrite length_firstn, length_skipn.
    destruct (Nat.le_gt_cases (S j * blockSize) (length data)) as [Hfull|Hpart].
    + replace (blockSize - Nat.min blockSize (length data - j * blockSize))%nat
        with 0%nat by lia.
      simpl repeat. rewrite app_nil_r, app_assoc.
      replace (skipn (S j * blockSize) data)
        with (skipn blockSize (skipn (j * blockSize) data))
        by (rewrite skipn_skipn; f_equal; lia).
      rewrite firstn_skipn. f_equal. f_equal. lia.
    + rewrite (skipn_all2 data (n := S j * blockSize)) by lia.
      rewrite firstn_all2 by (rewrite length_skipn; lia).
      rewrite <- app_assoc. f_equal. simpl app.
      rewrite <- repeat_app. f_equal. lia.
Qed.

(** Whatever the fuel and the block size, the slices [sliceData] returns
    are [slices_of]. *)
Lemma sliceData_returns (data : list Z) (blockSize fuel : nat)
    (slices : list (list Z)) :
  bytes_ok data ->
  sliceData fuel data blockSize = Ok slices ->
  slices = slices_of data blockSize.
Proof.
  intros Hok Hrun. destruct blockSize as [|b].
  - destruct data as [|x data].
    + destruct fuel; simpl in Hrun; injection Hrun as <-; reflexivity.
    + rewrite sliceData_zero_blockSize in Hrun by discriminate. discriminate.
  - destruct (Nat.le_gt_cases (ceil_div (length data) (S b)) fuel) as [Hle|Hgt].
    + rewrite sliceData_spec in Hrun by (assumption || lia).
      now injection Hrun as <-.
    + unfold sliceData in Hrun. change 0%nat with (0 * S b)%nat in Hrun.
      rewrite sliceData_loop_pending in Hrun by (assumption || lia).
      discriminate.
Qed.

Lemma slices_of_length (data : list Z) (blockSize : nat) :
  length (slices_of data blockSize) = ceil_div (length data) blockSize.
Proof. unfold slices_of. now rewrite length_map, length_seq. Qed.

Lemma slices_of_nth (data : list Z) (blockSize j : nat) :
  (j < ceil_div (length data) blockSize)%nat ->
  nth j (slices_of data blockSize) [] = slice_at data blockSize j.
Proof.
  intros Hj. unfold slices_of.
  rewrite (nth_indep _ [] (slice_at data blockSize 0))
    by (now rewrite length_map, length_seq).
  rewrite (map_nth (slice_at data blockSize)), seq_nth by exact Hj. reflexivity.
Qed.

Lemma slices_of_Forall_length (data : list Z) (blockSize : nat) :
  Forall (fun s => length s = blockSize) (slices_of data blockSize).
Proof.
  unfold slices_of. apply Forall_forall. intros s Hs.
  apply in_map_iff in Hs. destruct Hs as [j [<- _]]. apply slice_at_length.
Qed.

Lemma slices_of_bytes_ok (data : list Z) (blockSize : nat) :
  bytes_ok data -> Forall bytes_ok (slices_of data blockSize).
Proof.
  intros Hok. unfold slices_of. apply Forall_forall. intros s Hs.
  apply in_map_iff in Hs. destruct Hs as [j [<- _]].
  unfold slice_at, zero_pad, bytes_ok. apply Forall_app. split.
  - now apply bytes_ok_firstn, bytes_ok_skipn.
  - apply Forall_forall. intros b Hb. apply repeat_spec in Hb. lia.
Qed.

(** C9: [sliceData] on data that are not empty and a block size of at least
    1 returns (the fuel covering its passes) [k = ceil(length / blockSize)]
    slices of exactly [blockSize] bytes each; slice [j] holds the bytes of
    the data from [j * blockSize] on, the last one the bytes that are left
    followed by zeros, so that the slices end to end are the data followed
    by fewer than [blockSize] zeros. *)
Theorem sliceData_partitions (data : list Z) (blockSize fuel : nat) :
  data <> [] ->
  (1 <= blockSize)%nat ->
  bytes_ok data ->
  (length data <= fuel)%nat ->
  let k := ceil_div (length data) blockSize in
  exists slices,
    sliceData fuel data blockSize = Ok slices
    /\ length slices = k
    /\ (1 <= k)%nat
    /\ Forall (fun s => length s = blockSize) slices
    /\ (forall j, (j < k)%nat ->
          nth j slices []
          = firstn blockSize (skipn (j * blockSize) data)
              ++ repeat 0 (blockSize
                           - length (firstn blockSize (skipn (j * blockSize) data))))
    /\ nth (k - 1) slices []
       = skipn ((k - 1) * blockSize) data
           ++ repeat 0 (k * blockSize - length data)
    /\ concat slices = data ++ repeat 0 (k * blockSize - length data)
    /\ (k * blockSize - length data < blockSize)%nat.
Proof.
  intros Hne Hbs Hok Hfuel k.
  pose proof (ceil_div_le (length data) blockSize Hbs) as Hk.
  pose proof (ceil_div_bounds (length data) blockSize Hbs) as [Hlo Hhi].
  fold k in Hk, Hlo, Hhi.
  assert (Hk1 : (1 <= k)%nat).
  { assert (0 < k)%nat; [|lia].
    apply (ceil_div_spec _ _ _ Hbs). destruct data; [congruence|simpl; lia]. }
  exists (slices_of data blockSize).
  split; [apply sliceData_spec; (assumption || lia)|].
  split; [apply slices_of_length|].
  split; [exact Hk1|].
  split; [apply slices_of_Forall_length|].
  split; [intros j Hj; now rewrite slices_of_nth|].
  split.
  - rewrite slices_of_nth by (fold k; lia).
    assert (Hlast : ((k - 1) * blockSize < length data)%nat).
    { apply (ceil_div_spec _ _ _ Hbs). fold k. lia. }
    unfold slice_at, zero_pad.
    rewrite firstn_all2 by (rewrite length_skipn; nia).
    f_equal. rewrite length_skipn. f_equal. nia.
  - split; [|lia].
    unfold slices_of. fold k.
    rewrite (concat_slices_from data blockSize Hbs k 0) by reflexivity.
    reflexivity.
Qed.

Lemma sliceData_partitions_witness :
  exists slices,
    sliceData 7 [1; 2; 3; 4; 5; 6; 7] 3 = Ok slices
    /\ length slices = 3%nat
    /\ (1 <= 3)%nat
    /\ Forall (fun s => length s = 3%nat) slices
    /\ (forall j, (j < 3)%nat ->
          nth j slices []
          = firstn 3 (skipn (j * 3) [1; 2; 3; 4; 5; 6; 7])
              ++ repeat 0 (3 - length (firstn 3 (skipn (j * 3) [1; 2; 3; 4; 5; 6; 7]))))
    /\ nth 2 slices [] = [7; 0; 0]
    /\ concat slices = [1; 2; 3; 4; 5; 6; 7; 0; 0]
    /\ (2 < 3)%nat.
Proof.
  apply (sliceData_partitions [1; 2; 3; 4; 5; 6; 7] 3 7).
  - discriminate.
  - lia.
  - unfold bytes_ok. repeat constructor; lia.
  - simpl. lia.
Defined.

(** ** [createBlock] *)

Lemma ToInt32_small (x : Z) : 0 <= x < 2 ^ 31 -> JS.ToInt32 x = x.
Proof.
  intros H. unfold JS.ToInt32.
  change (2 ^ 31) with 2147483648 in *. change (2 ^ 32) with 4294967296.
  rewrite Z.mod_small; lia.
Qed.

Lemma lxor_bound (n a b : Z) :
  0 <= n -> 0 <= a < 2 ^ n -> 0 <= b < 2 ^ n -> 0 <= Z.lxor a b < 2 ^ n.
Proof.
  intros Hn Ha Hb.
  assert (H0 : 0 <= Z.lxor a b) by (apply Z.lxor_nonneg; lia).
  split; [exact H0|].
  destruct (Z.eq_dec (Z.lxor a b) 0) as [E|E].
  { rewrite E. apply Z.pow_pos_nonneg; lia. }
  assert (Hpos : 0 < n).
  { destruct (Z.eq_dec n 0) as [->|]; [|lia].
    change (2 ^ 0) with 1 in *. assert (a = 0) by lia. assert (b = 0) by lia.
    subst. now elim E. }
  apply Z.log2_lt_pow2; [lia|].
  eapply Z.le_lt_trans; [apply Z.log2_lxor; lia|].
  apply Z.max_lub_lt.
  - destruct (Z.eq_dec a 0) as [->|]; [simpl; lia|]. apply Z.log2_lt_pow2; lia.
  - destruct (Z.eq_dec b 0) as [->|]; [simpl; lia|]. apply Z.log2_lt_pow2; lia.
Qed.

Lemma xor_byte (a b : Z) :
  0 <= a < 256 -> 0 <= b < 256 ->
  JS.ToUint8 (JS.xor a b) = Z.lxor a b /\ 0 <= Z.lxor a b < 256.
Proof.
  intros Ha Hb. unfold JS.xor.
  rewrite !ToInt32_small by (change (2 ^ 31) with 2147483648; lia).
  pose proof (lxor_bound 8 a b ltac:(lia) Ha Hb) as H.
  change (2 ^ 8) with 256 in H.
  split; [now apply ToUint8_id|exact H].
Qed.

Lemma xor_step_cons (s : list Z) (h : Z) (t : list Z) (i : nat) :
  xor_step s (h :: t) (S i) = h :: xor_step (tl s) t i.
Proof.
  unfold xor_step, Uint8Array_get. simpl Uint8Array_store. simpl nth at 1.
  do 3 f_equal. destruct s; [destruct i|]; reflexivity.
Qed.

Lemma xor_step_shift (s : list Z) (l : list nat) :
  forall h t,
    fold_left (xor_step s) (map S l) (h :: t)
    = h :: fold_left (xor_step (tl s)) l t.
Proof.
  induction l as [|i l IH]; intros h t; simpl.
  - reflexivity.
  - rewrite xor_step_cons. apply IH.
Qed.

Lemma xor_into_spec (data s : list Z) :
  length s = length data -> bytes_ok data -> bytes_ok s ->
  xor_into (length data) data s = xor_bytes data s.
Proof.
  revert s. induction data as [|x data IH]; intros s Hlen Hd Hs.
  - reflexivity.
  - destruct s as [|y s]; [discriminate|].
    inversion Hd as [|? ? Hx Hd']; subst. inversion Hs as [|? ? Hy Hs']; subst.
    unfold xor_into. simpl length. simpl seq. rewrite <- seq_shift.
    change (fold_left ?f (0%nat :: ?l) ?d) with (fold_left f l (f d 0%nat)).
    fold (xor_step (y :: s)).
    unfold xor_step at 2. unfold Uint8Array_get. simpl nth. simpl Uint8Array_store.
    rewrite xor_step_shift. simpl tl.
    destruct (xor_byte x y Hx Hy) as [-> _]. simpl xor_bytes. f_equal.
    apply IH; [simpl in Hlen; lia|assumption|assumption].
Qed.

Lemma xor_bytes_length (a b : list Z) :
  length b = length a -> length (xor_bytes a b) = length a.
Proof.
  revert b. induction a as [|x a IH]; intros [|y b] H; simpl in *; try lia.
  now rewrite IH by lia.
Qed.

Lemma xor_bytes_ok (a b : list Z) :
  bytes_ok a -> bytes_ok b -> bytes_ok (xor_bytes a b).
Proof.
  intros Ha. revert b. induction Ha as [|x a Hx _ IH]; intros b Hb.
  - constructor.
  - destruct Hb as [|y b Hy Hb]; simpl; constructor.
    + now apply xor_byte.
    + now apply IH.
Qed.

Lemma xor_bytes_zero (s : list Z) :
  bytes_ok s -> xor_bytes (repeat 0 (length s)) s = s.
Proof.
  induction 1 as [|y s _ _ IH]; simpl.
  - reflexivity.
  - now rewrite IH.
Qed.

Lemma Array_get_inside {A : Type} (a : list A) (index : Z) (d : A) :
  0 <= index < Z.of_nat (length a) ->
  Array_get a index = Some (nth (Z.to_nat index) a d).
Proof.
  intros H. unfold Array_get.
  destruct (Z.ltb_spec index 0) as [|_]; [lia|].
  apply nth_error_nth'. lia.
Qed.

Lemma createBlock_loop_spec (this : LtEncoder.t) (indices : list Z) :
  encoder_ok this ->
  Forall (fun i => 0 <= i < LtEncoder.k this) indices ->
  forall data,
    length data = LtEncoder.sliceSize this -> bytes_ok data ->
    createBlock_loop this indices data
    = Ok (fold_left xor_bytes (map (slice_of this) indices) data).
Proof.
  intros [Hk [Hlen Hok]] Hind.
  induction Hind as [|i indices Hi _ IH]; intros data Hdata Hbytes.
  - reflexivity.
  - simpl. rewrite (Array_get_inside _ _ []) by lia. fold (slice_of this i).
    assert (Hin : In (slice_of this i) (LtEncoder.indices this)).
    { unfold slice_of. apply nth_In. lia. }
    rewrite Forall_forall in Hlen, Hok.
    rewrite <- Hdata, xor_into_spec;
      [|rewrite Hdata; now apply Hlen|exact Hbytes|now apply Hok].
    apply IH.
    + rewrite xor_bytes_length; [exact Hdata|]. rewrite Hdata. now apply Hlen.
    + apply xor_bytes_ok; [exact Hbytes|now apply Hok].
Qed.

Lemma fold_xor_bytes_length (slices : list (list Z)) (n : nat) :
  Forall (fun s => length s = n) slices ->
  forall data, length data = n -> length (fold_left xor_bytes slices data) = n.
Proof.
  induction 1 as [|s slices Hs _ IH]; intros data Hdata; simpl.
  - exact Hdata.
  - apply IH. rewrite xor_bytes_length; congruence.
Qed.

Lemma repeat_zero_ok (n : nat) : bytes_ok (repeat 0 n).
Proof.
  unfold bytes_ok. apply Forall_forall. intros b Hb.
  apply repeat_spec in Hb. lia.
Qed.

Lemma slice_of_ok (this : LtEncoder.t) (i : Z) :
  encoder_ok this -> 0 <= i < LtEncoder.k this ->
  length (slice_of this i) = LtEncoder.sliceSize this
  /\ bytes_ok (slice_of this i).
Proof.
  intros [Hk [Hlen Hok]] Hi. rewrite Forall_forall in Hlen, Hok.
  assert (In (slice_of this i) (LtEncoder.indices this))
    by (unfold slice_of; apply nth_In; lia).
  split; [now apply Hlen|now apply Hok].
Qed.

(** What [createBlock] returns on indices that are slice positions. *)
Lemma createBlock_spec (this : LtEncoder.t) (indices : list Z) :
  encoder_ok this ->
  Forall (fun i => 0 <= i < LtEncoder.k this) indices ->
  createBlock this indices
  = Ok (Block.mk (LtEncoder.k this) (LtEncoder.bytes this)
          (LtEncoder.checksum this) indices
          (xor_slices (LtEncoder.sliceSize this) (map (slice_of this) indices)),
        this).
Proof.
  intros Hwf Hind. unfold createBlock, Uint8Array_new.
  rewrite createBlock_loop_spec;
    [reflexivity|exact Hwf|exact Hind|apply repeat_length|apply repeat_zero_ok].
Qed.

(** C6: on indices that are slice positions [createBlock] returns, with the
    encoder as it was, the block that carries the encoder's [k], [bytes] and
    [checksum], the indices given and as data [sliceSize] bytes, the XOR of
    the slices the indices name folded into an all-zero buffer; for a single
    index the data are that slice. *)
Theorem createBlock_xor (this : LtEncoder.t) (indices : list Z) :
  encoder_ok this ->
  Forall (fun i => 0 <= i < LtEncoder.k this) indices ->
  exists data,
    createBlock this indices
    = Ok (Block.mk (LtEncoder.k this) (LtEncoder.bytes this)
            (LtEncoder.checksum this) indices data, this)
    /\ length data = LtEncoder.sliceSize this
    /\ data = xor_slices (LtEncoder.sliceSize this) (map (slice_of this) indices)
    /\ (forall i, indices = [i] -> data = slice_of this i).
Proof.
  intros Hwf Hind.
  exists (xor_slices (LtEncoder.sliceSize this) (map (slice_of this) indices)).
  split; [now apply createBlock_spec|]. split; [|split].
  - unfold xor_slices. apply fold_xor_bytes_length; [|apply repeat_length].
    apply Forall_forall. intros s Hs. apply in_map_iff in Hs.
    destruct Hs as [i [<- Hi]]. rewrite Forall_forall in Hind.
    now apply slice_of_ok, Hind.
  - reflexivity.
  - intros i ->. inversion Hind as [|? ? Hi _]; subst.
    unfold xor_slices. simpl.
    destruct (slice_of_ok this i Hwf Hi) as [Hlen Hok].
    rewrite <- Hlen. now apply xor_bytes_zero.
Qed.

(** *** [xorUint8Array] *)

Lemma xorUint8Array_shift (f : nat -> Z) (l : list nat) :
  forall h t,
    fold_left (fun result i => Uint8Array_store result i (f i)) (map S l) (h :: t)
    = h :: fold_left (fun result i => Uint8Array_store result i (f (S i))) l t.
Proof.
  induction l as [|i l IH]; intros h t; simpl.
  - reflexivity.
  - apply IH.
Qed.

(** [xorUint8Array] on two arrays of one length is their bitwise XOR. *)
Lemma xorUint8Array_spec (a b : list Z) :
  length b = length a -> bytes_ok a -> bytes_ok b ->
  xorUint8Array a b = xor_bytes a b.
Proof.
  revert b. induction a as [|x a IH]; intros b Hlen Ha Hb.
  - reflexivity.
  - destruct b as [|y b]; [discriminate|].
    inversion Ha as [|? ? Hx Ha']; subst. inversion Hb as [|? ? Hy Hb']; subst.
    unfold xorUint8Array. simpl length. simpl seq. rewrite <- seq_shift.
    cbn [fold_left Uint8Array_new repeat Uint8Array_store Uint8Array_get nth].
    rewrite (xorUint8Array_shift
               (fun i => JS.xor (Uint8Array_get (x :: a) i) (Uint8Array_get (y :: b) i))).
    destruct (xor_byte x y Hx Hy) as [-> _]. simpl xor_bytes. f_equal.
    apply IH; [simpl in Hlen; lia|assumption|assumption].
Qed.

(** ** [getRandomDegree] *)

Lemma Array_set_middle (front : list float) (x v : float) (back : list float) :
  Array_set (front ++ x :: back) (length front) v = front ++ v :: back.
Proof.
  induction front as [|h front IH]; simpl.
  - reflexivity.
  - now rewrite IH.
Qed.

(** The loop that fills in the probabilities, after the degrees up to
    [m + 1]. *)
Lemma soliton_fill (k : Z) (n m : nat) :
  (m <= n)%nat ->
  fold_left
    (fun probabilities d =>
       Array_set probabilities (d - 1)
         (1 / (num (Z.of_nat d) * num (Z.of_nat d - 1)))%float)
    (seq 2 m) ((1 / num k)%float :: repeat 0%float n)
  = map (soliton_P k) (seq 1 (S m)) ++ repeat 0%float (n - m).
Proof.
  induction m as [|m IH]; intros Hm.
  - simpl. now rewrite Nat.sub_0_r.
  - rewrite seq_S, fold_left_app, IH by lia. cbn [fold_left].
    replace (n - m)%nat with (S (n - S m)) by lia. cbn [repeat].
    replace (2 + m - 1)%nat with (length (map (soliton_P k) (seq 1 (S m))))
      by (rewrite length_map, length_seq; lia).
    rewrite Array_set_middle.
    rewrite (seq_S (S m) 1), map_app, <- app_assoc. reflexivity.
Qed.

Lemma soliton_probabilities_spec (k : Z) :
  1 <= k ->
  soliton_probabilities k = map (soliton_P k) (seq 1 (Z.to_nat k)).
Proof.
  intros Hk. unfold soliton_probabilities.
  destruct (Z.to_nat k) as [|n] eqn:E; [lia|].
  cbn [repeat Array_set]. replace (S n - 1)%nat with n by lia.
  rewrite soliton_fill by lia. now rewrite Nat.sub_diag, app_nil_r.
Qed.

Lemma accumulate_length (sum : float) (ps : list float) :
  length (accumulate sum ps) = length ps.
Proof.
  revert sum. induction ps as [|p ps IH]; intros sum; simpl.
  - reflexivity.
  - now rewrite IH.
Qed.

Lemma accumulate_nth (ps : list float) :
  forall (sum : float) (j : nat),
    (j < length ps)%nat ->
    nth j (accumulate sum ps) 0%float
    = fold_left PrimFloat.add (firstn (S j) ps) sum.
Proof.
  induction ps as [|p ps IH]; intros sum j Hj; simpl in Hj.
  - lia.
  - destruct j as [|j]; simpl.
    + reflexivity.
    + apply IH. lia.
Qed.

Lemma firstn_seq_le (a d n : nat) : (d <= n)%nat -> firstn d (seq a n) = seq a d.
Proof.
  intros H. replace n with (d + (n - d))%nat by lia.
  rewrite seq_app, firstn_app, length_seq, Nat.sub_diag.
  rewrite firstn_all2 by (rewrite length_seq; lia).
  simpl. now rewrite app_nil_r.
Qed.

(** The cumulative probabilities the code builds are [soliton_cdf]. *)
Lemma cumulative_nth (k : Z) (d : nat) :
  1 <= k -> (1 <= d <= Z.to_nat k)%nat ->
  nth (d - 1) (accumulate 0%float (soliton_probabilities k)) 0%float
  = soliton_cdf k d.
Proof.
  intros Hk Hd. rewrite soliton_probabilities_spec by exact Hk.
  rewrite accumulate_nth by (rewrite length_map, length_seq; lia).
  replace (S (d - 1)) with d by lia.
  unfold soliton_cdf. f_equal.
  rewrite firstn_map, firstn_seq_le by lia. reflexivity.
Qed.

(** The scan returns the first position whose value is above the draw. *)
Lemma scan_degree_spec (randomValue : float) (cumulative : list float) :
  forall i,
    match scan_degree randomValue cumulative i with
    | Some degree =>
        i < degree <= i + Z.of_nat (length cumulative)
        /\ (randomValue <? nth (Z.to_nat (degree - i - 1)) cumulative 0)%float = true
        /\ forall j, (j < Z.to_nat (degree - i - 1))%nat ->
             (randomValue <? nth j cumulative 0)%float = false
    | None =>
        forall j, (j < length cumulative)%nat ->
          (randomValue <? nth j cumulative 0)%float = false
    end.
Proof.
  induction cumulative as [|c cumulative IH]; intros i; simpl.
  - intros j Hj. lia.
  - destruct (randomValue <? c)%float eqn:E.
    + replace (i + 1 - i - 1) with 0 by lia. simpl.
      split; [lia|]. split; [exact E|]. intros j Hj. lia.
    + specialize (IH (i + 1)).
      destruct (scan_degree randomValue cumulative (i + 1)) as [degree|].
      * destruct IH as [Hr [Hhit Hmiss]]. split; [lia|].
        replace (Z.to_nat (degree - i - 1))
          with (S (Z.to_nat (degree - (i + 1) - 1))) by lia.
        split; [exact Hhit|].
        intros [|j] Hj; [exact E|]. apply Hmiss. lia.
      * intros [|j] Hj; [exact E|]. apply IH. lia.
Qed.

(** [Array(k)] returns for the lengths an array can have, and the scan
    follows. *)
Lemma getRandomDegree_array_length (k : Z) (draws : list float) :
  0 <= k < 2 ^ 32 ->
  getRandomDegree k draws
  = match draws with
    | [] => Pending
    | randomValue :: draws =>
        match scan_degree randomValue
                (accumulate 0%float (soliton_probabilities k)) 0 with
        | Some degree => Ok (degree, draws)
        | None => Ok (k, draws)
        end
    end.
Proof.
  intros Hk. unfold getRandomDegree.
  destruct (Z.ltb_spec k 0) as [|_]; [lia|].
  destruct (Z.leb_spec (2 ^ 32) k) as [|_]; [lia|]. reflexivity.
Qed.

(** [Array(k)] throws on every other [k], before a draw is taken. *)
Lemma getRandomDegree_invalid_length (k : Z) (draws : list float) :
  k < 0 \/ 2 ^ 32 <= k ->
  getRandomDegree k draws = Throw RangeError.
Proof.
  intros Hk. unfold getRandomDegree.
  destruct (Z.ltb_spec k 0) as [|H0]; [reflexivity|].
  destruct (Z.leb_spec (2 ^ 32) k) as [|H32]; [reflexivity|]. lia.
Qed.

(** With at least one slice and a draw at hand [getRandomDegree] returns a
    degree from 1 to [k]. *)
Lemma getRandomDegree_returns (k : Z) (randomValue : float) (draws : list float) :
  1 <= k < 2 ^ 32 ->
  exists degree,
    getRandomDegree k (randomValue :: draws) = Ok (degree, draws)
    /\ 1 <= degree <= k.
Proof.
  intros Hk. rewrite getRandomDegree_array_length by lia.
  set (cumulative := accumulate 0%float (soliton_probabilities k)).
  assert (Hlen : length cumulative = Z.to_nat k).
  { unfold cumulative.
    rewrite accumulate_length, soliton_probabilities_spec by lia.
    now rewrite length_map, length_seq. }
  pose proof (scan_degree_spec randomValue cumulative 0) as Hscan.
  destruct (scan_degree randomValue cumulative 0) as [degree|].
  - exists degree. split; [reflexivity|]. lia.
  - exists k. split; [reflexivity|]. lia.
Qed.

(** C8: for [k >= 1], [k] the length of an array (below 2^32, or [Array(k)]
    throws), and any draw, [getRandomDegree] returns a degree in [1, k]: the
    smallest [d] whose cumulative Ideal Soliton probability is above the
    draw, and [k] itself when the scan finds none; for [k = 1] the degree
    is 1. *)
Theorem getRandomDegree_range (k : Z) (randomValue : float) (draws : list float) :
  1 <= k < 2 ^ 32 ->
  exists degree,
    getRandomDegree k (randomValue :: draws) = Ok (degree, draws)
    /\ 1 <= degree <= k
    /\ (forall d, (1 <= d < Z.to_nat degree)%nat ->
          (randomValue <? soliton_cdf k d)%float = false)
    /\ ((randomValue <? soliton_cdf k (Z.to_nat degree))%float = true
        \/ (degree = k
            /\ (randomValue <? soliton_cdf k (Z.to_nat k))%float = false))
    /\ (k = 1 -> degree = 1).
Proof.
  intros Hk. rewrite getRandomDegree_array_length by lia.
  set (cumulative := accumulate 0%float (soliton_probabilities k)).
  assert (Hlen : length cumulative = Z.to_nat k).
  { unfold cumulative.
    rewrite accumulate_length, soliton_probabilities_spec by lia.
    now rewrite length_map, length_seq. }
  assert (Hcdf : forall d, (1 <= d <= Z.to_nat k)%nat ->
            nth (d - 1) cumulative 0%float = soliton_cdf k d).
  { intros d Hd. apply cumulative_nth; lia. }
  pose proof (scan_degree_spec randomValue cumulative 0) as Hscan.
  destruct (scan_degree randomValue cumulative 0) as [degree|].
  - destruct Hscan as [Hr [Hhit Hmiss]]. rewrite Hlen in Hr.
    exists degree. split; [reflexivity|]. split; [lia|].
    replace (Z.to_nat (degree - 0 - 1)) with (Z.to_nat degree - 1)%nat in * by lia.
    split; [|split].
    + intros d Hd. rewrite <- Hcdf by lia. apply Hmiss. lia.
    + left. rewrite <- Hcdf by lia. exact Hhit.
    + lia.
  - exists k. split; [reflexivity|]. split; [lia|].
    split; [|split].
    + intros d Hd. rewrite <- Hcdf by lia. apply Hscan. lia.
    + right. split; [reflexivity|].
      rewrite <- Hcdf by lia. apply Hscan. lia.
    + trivial.
Qed.

Lemma getRandomDegree_range_witness :
  exists degree,
    getRandomDegree 4 [0.5%float; 0.25%float] = Ok (degree, [0.25%float])
    /\ 1 <= degree <= 4
    /\ (forall d, (1 <= d < Z.to_nat degree)%nat ->
          (0.5 <? soliton_cdf 4 d)%float = false)
    /\ ((0.5 <? soliton_cdf 4 (Z.to_nat degree))%float = true
        \/ (degree = 4 /\ (0.5 <? soliton_cdf 4 (Z.to_nat 4))%float = false))
    /\ (4 = 1 -> degree = 1).
Proof. apply (getRandomDegree_range 4 0.5%float [0.25%float]). lia. Defined.

(** At [k = 3] the cumulative probabilities end at [1 - 2^-53], the sum
    [1/3 + 1/2 + 1/6] rounded: the largest draw below 1 is above none of
    them, and the fallback after the scan returns [k]. *)
Lemma getRandomDegree_clamp_example :
  accumulate 0%float (soliton_probabilities 3)
  = [0x1.5555555555555p-2; 0x1.aaaaaaaaaaaaap-1; 0x1.fffffffffffffp-1]%float
  /\ scan_degree 0x1.fffffffffffffp-1%float
       (accumulate 0%float (soliton_probabilities 3)) 0 = None
  /\ getRandomDegree 3 [0x1.fffffffffffffp-1%float] = Ok (3, []).
Proof. repeat split; vm_compute; reflexivity. Qed.

(** ** [getRandomIndices] *)

(** *** Binary64 arithmetic on a draw *)

Lemma digits2_pos_bounds (p : positive) :
  2 ^ (Zpos (digits2_pos p) - 1) <= Zpos p < 2 ^ Zpos (digits2_pos p).
Proof.
  induction p as [p IH|p IH|]; simpl digits2_pos.
  - rewrite Pos2Z.inj_succ.
    replace (Z.succ (Zpos (digits2_pos p)) - 1) with (Z.succ (Zpos (digits2_pos p) - 1)) by lia.
    rewrite !Z.pow_succ_r by lia. lia.
  - rewrite Pos2Z.inj_succ.
    replace (Z.succ (Zpos (digits2_pos p)) - 1) with (Z.succ (Zpos (digits2_pos p) - 1)) by lia.
    rewrite !Z.pow_succ_r by lia. lia.
  - simpl. lia.
Qed.

Lemma shr_1_inv (M j : Z) (mrs : shr_record) :
  0 <= j -> shr_inv M j mrs -> shr_inv M (j + 1) (shr_1 mrs).
Proof.
  intros Hj [R [HM [HR [Hm Hr]]]].
  destruct mrs as [m r s]. cbn [shr_m shr_r] in *.
  assert (Hp : 2 ^ (j + 1) = 2 * 2 ^ j) by (rewrite Z.pow_add_r by lia; lia).
  assert (0 < 2 ^ j) by (apply Z.pow_pos_nonneg; lia).
  unfold shr_inv. rewrite Hp.
  destruct m as [|[p|p|]|p]; cbn [shr_1 shr_m shr_r]; try lia.
  - exists R. repeat split; try lia; discriminate.
  - exists (2 ^ j + R). repeat split; lia.
  - exists R. repeat split; try lia; discriminate.
  - exists (2 ^ j + R). repeat split; lia.
Qed.

Lemma iter_pos_shr_inv (M : Z) (p : positive) :
  forall j mrs,
    0 <= j -> shr_inv M j mrs -> shr_inv M (j + Zpos p) (iter_pos shr_1 p mrs).
Proof.
  induction p as [p IH|p IH|]; intros j mrs Hj H; simpl.
  - replace (j + Zpos p~1) with (j + 1 + Zpos p + Zpos p) by lia.
    apply IH; [lia|]. apply IH; [lia|]. now apply shr_1_inv.
  - replace (j + Zpos p~0) with (j + Zpos p + Zpos p) by lia.
    apply IH; [lia|]. now apply IH.
  - now apply shr_1_inv.
Qed.

Lemma shr_inv_start (M : Z) : 0 <= M -> shr_inv M 0 (Build_shr_record M false false).
Proof. intros H. exists 0. cbn [shr_m shr_r]. repeat split; try lia; discriminate. Qed.

(** Rounding to nearest after the shift adds at most half a unit. *)
Lemma round_after_shr (M j : Z) (mrs : shr_record) :
  shr_inv M j mrs ->
  let m1 := round_nearest_even (shr_m mrs) (loc_of_shr_record mrs) in
  0 <= m1 /\ (shr_r mrs = false -> m1 = shr_m mrs)
  /\ 2 * (m1 * 2 ^ j) <= 2 * M + (if shr_r mrs then 2 ^ j else 0).
Proof.
  intros [R [HM [HR [Hm Hr]]]].
  destruct mrs as [m [|] [|]]; cbn [shr_m shr_r loc_of_shr_record round_nearest_even] in *.
  - specialize (Hr eq_refl). split; [lia|]. split; [discriminate|]. nia.
  - specialize (Hr eq_refl).
    destruct (Z.even m); (split; [lia|]); (split; [discriminate|]); nia.
  - split; [lia|]. split; [reflexivity|]. nia.
  - split; [lia|]. split; [reflexivity|]. nia.
Qed.

Lemma shr_spec (M e n : Z) :
  0 <= M ->
  exists mrs,
    shr (Build_shr_record M false false) e n = (mrs, e + Z.max 0 n)
    /\ shr_inv M (Z.max 0 n) mrs
    /\ (n <= 0 -> shr_r mrs = false).
Proof.
  intros HM. destruct n as [|p|p]; cbn [shr].
  - exists (Build_shr_record M false false).
    rewrite Z.add_0_r. split; [reflexivity|]. split; [now apply shr_inv_start|reflexivity].
  - exists (iter_pos shr_1 p (Build_shr_record M false false)).
    replace (Z.max 0 (Zpos p)) with (Zpos p) by lia.
    split; [reflexivity|]. split; [|lia].
    apply (iter_pos_shr_inv M p 0); [lia|now apply shr_inv_start].
  - exists (Build_shr_record M false false).
    replace (Z.max 0 (Zneg p)) with 0 by lia.
    rewrite Z.add_0_r. split; [reflexivity|]. split; [now apply shr_inv_start|reflexivity].
Qed.

(** What rounding [M * 2^E] to binary64 gives: a number of exponent
    [E + a] at most half a unit of the first shift above [M * 2^E]. *)
Lemma binary_round_aux_bound (M E : Z) :
  0 < M ->
  let n := Z.max 0 (fexp prec emax (Zdigits2 M + E) - E) in
  match binary_round_aux prec emax false M E loc_Exact with
  | S754_finite s m2 e2 =>
      s = false
      /\ exists a, n <= a /\ e2 = E + a
           /\ 2 * (Zpos m2 * 2 ^ a) <= 2 * M + (if 0 <? n then 2 ^ n else 0)
  | S754_nan => False
  | _ => True
  end.
Proof.
  intros HM n. unfold binary_round_aux, shr_fexp.
  cbn [shr_record_of_loc].
  destruct (shr_spec M E (fexp prec emax (Zdigits2 M + E) - E) ltac:(lia))
    as [mrs1 [E1 [Hinv1 Hr1]]].
  rewrite E1. fold n in E1, Hinv1 |- *.
  pose proof (round_after_shr M n mrs1 Hinv1) as Hround.
  set (m1 := round_nearest_even (shr_m mrs1) (loc_of_shr_record mrs1)) in *.
  cbv zeta in Hround. destruct Hround as [Hm1 [_ Hbound]].
  destruct (shr_spec m1 (E + n) (fexp prec emax (Zdigits2 m1 + (E + n)) - (E + n)) Hm1)
    as [mrs2 [E2 [Hinv2 _]]].
  rewrite E2.
  set (n2 := Z.max 0 (fexp prec emax (Zdigits2 m1 + (E + n)) - (E + n))) in *.
  destruct Hinv2 as [R2 [Hm2 [HR2 [Hpos2 _]]]].
  destruct (shr_m mrs2) as [|m2|m2] eqn:Em2; [exact I| |lia].
  destruct (E + n + n2 <=? emax - prec); [|exact I].
  split; [reflexivity|]. exists (n + n2).
  assert (0 <= n) by (unfold n; lia). assert (0 <= n2) by (unfold n2; lia).
  split; [lia|]. split; [lia|].
  rewrite Z.pow_add_r by lia.
  assert (0 < 2 ^ n) by (apply Z.pow_pos_nonneg; lia).
  assert (Hle : Zpos m2 * 2 ^ n2 <= m1) by lia.
  assert (Hr : (if shr_r mrs1 then 2 ^ n else 0) <= (if 0 <? n then 2 ^ n else 0)).
  { destruct (shr_r mrs1) eqn:Er.
    - destruct (Z.ltb_spec 0 n) as [_|Hn0]; [lia|].
      assert (Hle0 : fexp prec emax (Zdigits2 M + E) - E <= 0)
        by (unfold n in Hn0; lia).
      specialize (Hr1 Hle0). congruence.
    - destruct (0 <? n); lia. }
  nia.
Qed.

Lemma iter_xO_spec (p d : positive) :
  Zpos (Pos.iter xO p d) = Zpos p * 2 ^ Zpos d
  /\ Zpos (digits2_pos (Pos.iter xO p d)) = Zpos (digits2_pos p) + Zpos d.
Proof.
  induction d as [|d IH] using Pos.peano_ind.
  - simpl. split; lia.
  - rewrite Pos.iter_succ. destruct IH as [IH1 IH2].
    cbn [digits2_pos]. rewrite Pos2Z.inj_xO, IH1, !Pos2Z.inj_succ, IH2.
    rewrite Z.pow_succ_r by lia. split; lia.
Qed.

(** An integer from 1 to 2^53 - 1 is a binary64 number, of non-positive
    exponent. *)
Lemma binary_normalize_integer (k : Z) :
  1 <= k < 2 ^ 53 ->
  exists mk ek,
    binary_normalize prec emax k 0 false = S754_finite false mk ek
    /\ ek <= 0 /\ Zpos mk = k * 2 ^ (- ek).
Proof.
  intros Hk. destruct k as [|p|p]; try lia.
  cbn [binary_normalize]. unfold binary_round.
  pose proof (digits2_pos_bounds p) as Hd.
  set (d := Zpos (digits2_pos p)) in *.
  assert (Hd53 : 1 <= d <= 53).
  { split; [unfold d; lia|].
    destruct (Z.le_gt_cases d 53) as [|Hgt]; [assumption|exfalso].
    assert (2 ^ 53 <= 2 ^ (d - 1)) by (apply Z.pow_le_mono_r; lia). lia. }
  assert (Hfexp : fexp prec emax (d + 0) = d - 53).
  { unfold fexp, SpecFloat.emin, prec, emax. lia. }
  rewrite Hfexp. unfold shl_align.
  assert (Hround : forall mz ez,
             Zpos (digits2_pos mz) = 53 -> -52 <= ez <= 0 ->
             binary_round_aux prec emax false (Zpos mz) ez loc_Exact
             = S754_finite false mz ez).
  { intros mz ez Hmz Hez. unfold binary_round_aux, shr_fexp.
    cbn [shr_record_of_loc Zdigits2]. rewrite Hmz.
    assert (Hz : fexp prec emax (53 + ez) - ez = 0).
    { unfold fexp, SpecFloat.emin, prec, emax. lia. }
    rewrite Hz. cbn [shr shr_m loc_of_shr_record round_nearest_even Zdigits2].
    rewrite Hmz, Hz. cbn [shr shr_m].
    destruct (Z.leb_spec ez (emax - prec)) as [_|Hgt]; [reflexivity|].
    unfold emax, prec in Hgt. lia. }
  destruct (d - 53 - 0) as [|q|q] eqn:Eq.
  - exists p, 0. rewrite Hround by (fold d; lia).
    split; [reflexivity|]. split; [lia|]. simpl. lia.
  - lia.
  - destruct (iter_xO_spec p q) as [Hv Hdig]. fold d in Hdig.
    exists (Pos.iter xO p q), (d - 53).
    rewrite Hround by lia.
    split; [reflexivity|]. split; [lia|].
    rewrite Hv. f_equal. f_equal. lia.
Qed.

Lemma Prim2SF_num (k : Z) :
  1 <= k < 2 ^ 53 ->
  exists mk ek,
    Prim2SF (num k) = S754_finite false mk ek
    /\ ek <= 0 /\ Zpos mk = k * 2 ^ (- ek).
Proof.
  intros Hk. unfold num. rewrite Prim2SF_SF2Prim.
  - now apply binary_normalize_integer.
  - (* the value is the one a 63-bit integer converts to *)
    replace k with (Uint63Axioms.to_Z (Uint63.of_Z k)).
    + rewrite <- of_uint63_spec. apply Prim2SF_valid.
    + change (Uint63Axioms.to_Z (Uint63.of_Z k)) with (Uint63.to_Z (Uint63.of_Z k)).
      rewrite Uint63.of_Z_spec. apply Z.mod_small.
      change Uint63.wB with (2 ^ 63). split; [lia|].
      assert (2 ^ 53 < 2 ^ 63) by (apply Z.pow_lt_mono_r; lia). lia.
Qed.

(** A draw in [0, 1) is a zero or [m * 2^e] with [m < 2^53] and
    [e <= -53]. *)
Lemma unit_draw_spec (r : float) :
  unit_draw r ->
  (exists s, Prim2SF r = S754_zero s)
  \/ (exists m e,
        Prim2SF r = S754_finite false m e
        /\ -1074 <= e <= -53 /\ Zpos m < 2 ^ 53).
Proof.
  intros [H0 H1]. rewrite FloatAxioms.leb_spec in H0.
  rewrite FloatAxioms.ltb_spec in H1.
  change (Prim2SF 0) with (S754_zero false) in H0.
  change (Prim2SF 1) with (S754_finite false 4503599627370496 (-52)) in H1.
  pose proof (Prim2SF_valid r) as Hv.
  destruct (Prim2SF r) as [s|s| |s m e].
  - left. now exists s.
  - destruct s; discriminate.
  - discriminate.
  - right. destruct s; [discriminate|]. exists m, e. split; [reflexivity|].
    cbn [SpecFloat.valid_binary] in Hv. unfold bounded, canonical_mantissa in Hv.
    apply andb_prop in Hv. destruct Hv as [Hc _]. apply Z.eqb_eq in Hc.
    unfold fexp, SpecFloat.emin, prec, emax in Hc.
    pose proof (digits2_pos_bounds m) as [Hlo Hhi].
    set (d := Zpos (digits2_pos m)) in *.
    assert (Hmax : e = Z.max (d + e - 53) (-1074)) by (symmetry; exact Hc).
    assert (Hd : d <= 53) by lia.
    assert (Hm : Zpos m < 2 ^ 53).
    { eapply Z.lt_le_trans; [exact Hhi|]. apply Z.pow_le_mono_r; lia. }
    split; [|exact Hm]. split; [lia|].
    unfold SFltb, SFcompare in H1.
    destruct (Z.compare_spec e (-52)) as [He|He|He]; [|lia|discriminate].
    exfalso. subst e. assert (Hd1 : d - 1 = 52) by lia.
    assert (Hlt : Zpos m < 4503599627370496).
    { apply Pos2Z.pos_lt_pos. unfold Pos.lt.
      destruct (Pos.compare_cont Eq m 4503599627370496) eqn:Ec;
        try discriminate. exact Ec. }
    rewrite Hd1 in Hlo. change (2 ^ 52) with 4503599627370496 in Hlo.
    clear - Hlo Hlt. lia.
Qed.

(** [floor (m2 * 2^(E + a)) < k] when [m2 * 2^a < k * 2^(-E)]. *)
Lemma shiftl_lt (m2 k E a : Z) :
  0 <= m2 -> 0 <= a -> E <= 0 ->
  m2 * 2 ^ a < k * 2 ^ (- E) ->
  0 <= Z.shiftl m2 (E + a) < k.
Proof.
  intros Hm Ha HE H. split; [apply Z.shiftl_nonneg; exact Hm|].
  destruct (Z.le_gt_cases 0 (E + a)) as [Hpos|Hneg].
  - rewrite Z.shiftl_mul_pow2 by exact Hpos.
    replace a with (E + a + - E) in H by lia.
    rewrite Z.pow_add_r in H by lia.
    assert (0 < 2 ^ (- E)) by (apply Z.pow_pos_nonneg; lia). nia.
  - rewrite Z.shiftl_div_pow2 by lia.
    assert (0 < 2 ^ (- (E + a))) by (apply Z.pow_pos_nonneg; lia).
    apply Z.div_lt_upper_bound; [assumption|].
    replace (- E) with (a + - (E + a)) in H by lia.
    rewrite Z.pow_add_r in H by lia.
    assert (0 < 2 ^ a) by (apply Z.pow_pos_nonneg; lia). nia.
Qed.

(** [Math.floor(Math.random() * k)] is an index below [k]. *)
Lemma random_index_range (k : Z) (r : float) :
  1 <= k < 2 ^ 53 -> unit_draw r ->
  0 <= randomIndex k r < k.
Proof.
  intros Hk Hr. unfold randomIndex, Math_floor. rewrite mul_spec.
  destruct (Prim2SF_num k Hk) as [mk [ek [-> [Hek Hmk]]]].
  destruct (unit_draw_spec r Hr) as [[s ->]|[m [e [-> [He Hm]]]]].
  { cbn. lia. }
  unfold SF64mul, SFmul. cbn [xorb].
  pose proof (binary_round_aux_bound (Zpos (m * mk)) (e + ek) ltac:(lia)) as Hb.
  cbv zeta in Hb.
  destruct (binary_round_aux prec emax false (Zpos (m * mk)) (e + ek) loc_Exact)
    as [s|s| |s m2 e2]; [lia|lia|contradiction|].
  destruct Hb as [-> [a [Hna [-> Hbound]]]]. cbn [cond_Zopp].
  set (M := Zpos (m * mk)) in *. set (E := e + ek) in *.
  set (n := Z.max 0 (fexp prec emax (Zdigits2 M + E) - E)) in *.
  assert (HM : M = Zpos m * Zpos mk) by (unfold M; lia).
  assert (Hpk : 0 < 2 ^ (- ek)) by (apply Z.pow_pos_nonneg; lia).
  (* the half unit of the first shift is below [mk] *)
  assert (Hhalf : (if 0 <? n then 2 ^ n else 0) < 2 * Zpos mk).
  { destruct (Z.ltb_spec 0 n) as [Hn|_]; [|lia].
    pose proof (digits2_pos_bounds (m * mk)) as [Hlo _].
    set (dM := Zpos (digits2_pos (m * mk))) in *.
    assert (Hn_eq : n = Z.max 0 (Z.max (dM + E - 53) (-1074) - E)) by reflexivity.
    assert (Hcases : (n = -1074 - E /\ n <= - ek) \/ n = dM - 53)
      by (unfold E in *; lia).
    destruct Hcases as [[_ Hsub]|Hnorm].
    - (* subnormal: the shift is at most [- ek] *)
      assert (2 ^ n <= 2 ^ (- ek)) by (apply Z.pow_le_mono_r; lia).
      nia.
    - (* normal: [2^(dM-1) <= M < 2^53 * mk] *)
      assert (Hsplit : 2 ^ (dM - 1) = 2 ^ n * 2 ^ 52).
      { rewrite <- Z.pow_add_r by lia. f_equal. lia. }
      rewrite Pos2Z.inj_mul in Hlo. rewrite Hsplit in Hlo.
      change (2 ^ 53) with 9007199254740992 in Hm.
      change (2 ^ 52) with 4503599627370496 in Hlo.
      assert (0 < 2 ^ n) by (apply Z.pow_pos_nonneg; lia).
      nia. }
  (* the product is at least [mk] below [k * 2^(-E)] *)
  assert (Hprod : M + Zpos mk <= k * 2 ^ (- E)).
  { replace (- E) with (- ek + - e) by (unfold E; lia).
    rewrite Z.pow_add_r, Z.mul_assoc, <- Hmk by lia.
    assert (2 ^ 53 <= 2 ^ (- e)) by (apply Z.pow_le_mono_r; lia).
    change (2 ^ 53) with 9007199254740992 in *. nia. }
  apply shiftl_lt; [lia| |unfold E; lia|].
  - unfold n in Hna. lia.
  - lia.
Qed.

(** *** The set of indices *)

Lemma Set_add_In (x y : Z) (s : list Z) :
  In y (Set_add x s) <-> y = x \/ In y s.
Proof.
  unfold Set_add. destruct (existsb (Z.eqb x) s) eqn:E.
  - apply existsb_exists in E. destruct E as [z [Hz Hxz]].
    apply Z.eqb_eq in Hxz. subst z. split; [tauto|].
    intros [->|H]; assumption.
  - rewrite in_app_iff. simpl. split; intros H; intuition congruence.
Qed.

Lemma Set_add_NoDup (x : Z) (s : list Z) : NoDup s -> NoDup (Set_add x s).
Proof.
  intros Hs. unfold Set_add. destruct (existsb (Z.eqb x) s) eqn:E.
  - exact Hs.
  - apply NoDup_app; [exact Hs|repeat constructor; intros []|].
    intros y Hy [Hxy|[]]. subst y.
    assert (existsb (Z.eqb x) s = true); [|congruence].
    apply existsb_exists. exists x. split; [exact Hy|apply Z.eqb_refl].
Qed.

Lemma Set_add_length (x : Z) (s : list Z) :
  (length s <= length (Set_add x s) <= S (length s))%nat.
Proof.
  unfold Set_add. destruct (existsb (Z.eqb x) s).
  - lia.
  - rewrite length_app. simpl. lia.
Qed.

(** The loop keeps a set of indices, keeps any property the indices drawn
    have, and leaves with [degree] of them: the indices it entered with,
    then those the draws it used selected, each at its first draw. *)
Lemma getRandomIndices_loop_inv (P : Z -> Prop) (k degree : Z) (draws : list float) :
  Forall (fun r => P (randomIndex k r)) draws ->
  forall indices indices' rest,
    NoDup indices ->
    Forall P indices ->
    Z.of_nat (length indices) <= degree ->
    getRandomIndices_loop k degree indices draws = Ok (indices', rest) ->
    NoDup indices'
    /\ Forall P indices'
    /\ Z.of_nat (length indices') = degree
    /\ exists used,
         draws = used ++ rest
         /\ indices'
            = fold_left (fun indices r => Set_add (randomIndex k r) indices)
                used indices.
Proof.
  induction 1 as [|r draws Hr _ IH]; intros indices indices' rest Hnd Hin Hlen Hrun.
  - simpl in Hrun.
    destruct (Z.ltb_spec (Z.of_nat (length indices)) degree) as [|Hge];
      [discriminate|].
    injection Hrun as <- <-. repeat split; try assumption; [lia|].
    exists []. split; reflexivity.
  - simpl in Hrun.
    destruct (Z.ltb_spec (Z.of_nat (length indices)) degree) as [Hlt|Hge].
    + fold (randomIndex k r) in Hrun.
      pose proof (Set_add_length (randomIndex k r) indices) as Hl.
      apply IH in Hrun.
      * destruct Hrun as [H1 [H2 [H3 [used [-> Hfold]]]]].
        repeat split; try assumption. exists (r :: used).
        split; [reflexivity|exact Hfold].
      * now apply Set_add_NoDup.
      * apply Forall_forall. intros y Hy. apply Set_add_In in Hy.
        destruct Hy as [->|Hy]; [exact Hr|].
        rewrite Forall_forall in Hin. now apply Hin.
      * lia.
    + injection Hrun as <- <-. repeat split; try assumption; [lia|].
      exists []. split; reflexivity.
Qed.

(** The loop returns as soon as the draws have selected [degree] distinct
    indices. *)
Lemma getRandomIndices_loop_returns (k degree : Z) (draws : list float) :
  forall indices distinct,
    NoDup distinct ->
    degree <= Z.of_nat (length distinct) ->
    incl distinct (indices ++ map (randomIndex k) draws) ->
    NoDup indices ->
    exists indices' rest,
      getRandomIndices_loop k degree indices draws = Ok (indices', rest).
Proof.
  induction draws as [|r draws IH]; intros indices distinct Hnd Hdeg Hincl Hind.
  - simpl. rewrite app_nil_r in Hincl.
    pose proof (NoDup_incl_length Hnd Hincl).
    destruct (Z.ltb_spec (Z.of_nat (length indices)) degree) as [|_]; [lia|].
    eauto.
  - simpl.
    destruct (Z.ltb_spec (Z.of_nat (length indices)) degree) as [_|_]; [|eauto].
    fold (randomIndex k r).
    apply (IH _ distinct Hnd Hdeg); [|now apply Set_add_NoDup].
    intros y Hy. apply Hincl in Hy. apply in_app_iff in Hy. apply in_app_iff.
    simpl in Hy. rewrite Set_add_In. intuition.
Qed.

Lemma unit_draws_indices (k : Z) (draws : list float) :
  1 <= k < 2 ^ 53 -> Forall unit_draw draws ->
  Forall (fun r => 0 <= randomIndex k r < k) draws.
Proof.
  intros Hk H. induction H as [|r draws Hr _ IH]; constructor.
  - now apply random_index_range.
  - exact IH.
Qed.

Lemma NoDup_map_of_nat (l : list nat) : NoDup l -> NoDup (map Z.of_nat l).
Proof.
  induction 1 as [|x l Hx _ IH]; simpl; constructor.
  - intros H. apply in_map_iff in H. destruct H as [y [Hy Hin]].
    apply Nat2Z.inj in Hy. now subst y.
  - exact IH.
Qed.

(** A list of [k] distinct indices below [k] holds every index below [k]. *)
Lemma all_indices (k : Z) (indices : list Z) :
  NoDup indices -> Forall (fun i => 0 <= i < k) indices ->
  Z.of_nat (length indices) = k ->
  forall i, 0 <= i < k -> In i indices.
Proof.
  intros Hnd Hr Hlen i Hi.
  assert (Hall : incl (map Z.of_nat (seq 0 (Z.to_nat k))) indices).
  { apply NoDup_length_incl; [exact Hnd| |].
    - rewrite length_map, length_seq. lia.
    - intros j Hj. rewrite Forall_forall in Hr. specialize (Hr j Hj).
      apply in_map_iff. exists (Z.to_nat j). split; [lia|].
      apply in_seq. lia. }
  apply Hall. apply in_map_iff. exists (Z.to_nat i). split; [lia|].
  apply in_seq. lia.
Qed.

(** The indices [getRandomIndices] returns: [degree] of them, distinct and
    in [0, k), in the order in which the draws it used selected them; the
    draws left are the end of the draws given. *)
Lemma getRandomIndices_inv (k degree : Z) (draws : list float)
    (indices : list Z) (rest : list float) :
  1 <= k < 2 ^ 53 ->
  0 <= degree ->
  Forall unit_draw draws ->
  getRandomIndices k degree draws = Ok (indices, rest) ->
  Z.of_nat (length indices) = degree
  /\ NoDup indices
  /\ Forall (fun i => 0 <= i < k) indices
  /\ Forall unit_draw rest
  /\ exists used, draws = used ++ rest /\ indices = drawn_order k used.
Proof.
  intros Hk Hdeg Hdraws Hrun. unfold getRandomIndices in Hrun.
  apply (getRandomIndices_loop_inv (fun i => 0 <= i < k)) in Hrun;
    [|now apply unit_draws_indices|constructor|constructor|simpl; lia].
  destruct Hrun as [Hnd [Hr [Hlen [used [-> Hfold]]]]].
  repeat split; try assumption.
  - apply Forall_app in Hdraws. tauto.
  - exists used. split; [reflexivity|exact Hfold].
Qed.

(** C7: for [1 <= degree <= k] and draws in [0, 1), whenever
    [getRandomIndices] returns, it returns exactly [degree] indices, distinct
    and all in [0, k): for [degree = k] every index below [k]. *)
Theorem getRandomIndices_distinct (k degree : Z) (draws : list float)
    (indices : list Z) (rest : list float) :
  1 <= k < 2 ^ 53 ->
  1 <= degree <= k ->
  Forall unit_draw draws ->
  getRandomIndices k degree draws = Ok (indices, rest) ->
  Z.of_nat (length indices) = degree
  /\ NoDup indices
  /\ Forall (fun i => 0 <= i < k) indices
  /\ (degree = k -> forall i, 0 <= i < k -> In i indices).
Proof.
  intros Hk Hdeg Hdraws Hrun.
  assert (Hdeg0 : 0 <= degree) by lia.
  destruct (getRandomIndices_inv k degree draws indices rest Hk Hdeg0
              Hdraws Hrun) as [Hlen [Hnd [Hr _]]].
  repeat split; try assumption.
  intros -> i Hi. now apply (all_indices k).
Qed.

Lemma getRandomIndices_distinct_witness :
  Z.of_nat (length [2; 0]) = 2
  /\ NoDup [2; 0]
  /\ Forall (fun i => 0 <= i < 3) [2; 0]
  /\ (2 = 3 -> forall i, 0 <= i < 3 -> In i [2; 0]).
Proof.
  apply (getRandomIndices_distinct 3 2 [0.75; 0.25; 0.75; 0.875]%float
           [2; 0] [0.75; 0.875]%float).
  - change (2 ^ 53) with 9007199254740992. lia.
  - lia.
  - repeat constructor.
  - vm_compute. reflexivity.
Defined.

(** [getRandomIndices] returns once the draws have selected [degree]
    distinct indices. *)
Lemma getRandomIndices_returns (k degree : Z) (draws : list float)
    (distinct : list Z) :
  NoDup distinct ->
  degree <= Z.of_nat (length distinct) ->
  incl distinct (map (randomIndex k) draws) ->
  exists indices rest, getRandomIndices k degree draws = Ok (indices, rest).
Proof.
  intros Hnd Hdeg Hincl. unfold getRandomIndices.
  apply (getRandomIndices_loop_returns k degree draws [] distinct);
    [exact Hnd|exact Hdeg|exact Hincl|constructor].
Qed.

(** Whatever the draws, the loop does not throw. *)
Lemma getRandomIndices_loop_no_throw (k degree : Z) (draws : list float) :
  forall indices e, getRandomIndices_loop k degree indices draws <> Throw e.
Proof.
  induction draws as [|r draws IH]; intros indices e; simpl;
    destruct (Z.of_nat (length indices) <? degree); try discriminate.
  apply IH.
Qed.

(** ** The encoder and its stream *)

Lemma LtEncoder_new_spec (deflate : list Z -> list Z) (fuel : nat)
    (data : list Z) (sliceSize : nat) (compress : bool) :
  (1 <= sliceSize)%nat ->
  bytes_ok (if compress then deflate data else data) ->
  (length (if compress then deflate data else data) <= fuel)%nat ->
  LtEncoder_new deflate fuel data sliceSize compress
  = Ok (encoder_of deflate data sliceSize compress).
Proof.
  intros Hs Hok Hfuel. unfold LtEncoder_new, encoder_of.
  rewrite sliceData_spec; [|exact Hs|exact Hok|].
  - cbn [JS.bind]. now rewrite slices_of_length.
  - pose proof (ceil_div_le (length (if compress then deflate data else data))
                  sliceSize Hs). lia.
Qed.

Lemma encoder_of_ok (deflate : list Z -> list Z) (data : list Z)
    (sliceSize : nat) (compress : bool) :
  bytes_ok (if compress then deflate data else data) ->
  encoder_ok (encoder_of deflate data sliceSize compress).
Proof.
  intros Hok. unfold encoder_ok, encoder_of. cbn.
  split; [now rewrite slices_of_length|].
  split; [apply slices_of_Forall_length|now apply slices_of_bytes_ok].
Qed.

(** Every encoder the constructor returns is [encoder_of], and satisfies
    the invariant. *)
Lemma LtEncoder_new_returns (deflate : list Z -> list Z) (fuel : nat)
    (data : list Z) (sliceSize : nat) (compress : bool) (this : LtEncoder.t) :
  bytes_ok (if compress then deflate data else data) ->
  LtEncoder_new deflate fuel data sliceSize compress = Ok this ->
  this = encoder_of deflate data sliceSize compress /\ encoder_ok this.
Proof.
  intros Hok Hrun. unfold LtEncoder_new in Hrun.
  destruct (sliceData fuel (if compress then deflate data else data) sliceSize)
    as [slices| |] eqn:Es; try discriminate.
  apply sliceData_returns in Es; [|exact Hok]. subst slices.
  cbn [JS.bind] in Hrun. injection Hrun as <-.
  rewrite slices_of_length.
  split; [reflexivity|]. now apply (encoder_of_ok deflate).
Qed.

Lemma unit_draw_lt_infinity (r : float) :
  unit_draw r -> (r <? infinity)%float = true.
Proof.
  intros Hr. rewrite FloatAxioms.ltb_spec.
  change (Prim2SF infinity) with (S754_infinity false).
  destruct (unit_draw_spec r Hr) as [[s ->]|[m [e [-> _]]]]; reflexivity.
Qed.

(** With no slice the degree drawn is 1: the only probability is
    [1 / 0], infinity. *)
Lemma getRandomDegree_zero (r : float) (draws : list float) :
  unit_draw r -> getRandomDegree 0 (r :: draws) = Ok (1, draws).
Proof.
  intros Hr. rewrite getRandomDegree_array_length by lia.
  change (accumulate 0%float (soliton_probabilities 0)) with [infinity].
  cbn [scan_degree]. now rewrite unit_draw_lt_infinity.
Qed.

(** The degree depends on the first draw alone. *)
Lemma getRandomDegree_tail (k : Z) (r : float) (draws draws' : list float)
    (degree : Z) :
  getRandomDegree k (r :: draws) = Ok (degree, draws) ->
  getRandomDegree k (r :: draws') = Ok (degree, draws').
Proof.
  unfold getRandomDegree.
  destruct ((k <? 0) || (2 ^ 32 <=? k))%bool; [discriminate|].
  destruct (scan_degree r (accumulate 0%float (soliton_probabilities k)) 0);
    intros H; injection H as <-; reflexivity.
Qed.

Lemma getRandomDegree_inv (k : Z) (draws : list float) (degree : Z)
    (rest : list float) :
  0 <= k ->
  Forall unit_draw draws ->
  getRandomDegree k draws = Ok (degree, rest) ->
  1 <= degree /\ (1 <= k -> degree <= k) /\ Forall unit_draw rest
  /\ exists r, draws = r :: rest /\ unit_draw r.
Proof.
  intros Hk Hdraws Hrun.
  destruct (Z.le_gt_cases (2 ^ 32) k) as [H32|H32].
  { rewrite getRandomDegree_invalid_length in Hrun by lia. discriminate. }
  destruct draws as [|r draws].
  - rewrite getRandomDegree_array_length in Hrun by lia. discriminate.
  - inversion Hdraws as [|? ? Hr Hrest]; subst.
    destruct (Z.eq_dec k 0) as [->|Hk0].
    + rewrite getRandomDegree_zero in Hrun by exact Hr.
      injection Hrun as <- <-. repeat split; try lia; try assumption.
      now exists r.
    + destruct (getRandomDegree_returns k r draws ltac:(lia))
        as [d [Hd Hrange]].
      rewrite Hd in Hrun. injection Hrun as <- <-.
      repeat split; try lia; try assumption. now exists r.
Qed.

(** One step of the stream leaves the encoder as it was and yields a block
    of the encoder's [k], [bytes] and [checksum], whose indices are as many
    as the degree drawn, distinct and in [0, k), in the order drawn, and
    whose data are the XOR of the slices they name. *)
Lemma fountain_next_inv (this : LtEncoder.t) (draws : list float)
    (block : Block.t) (this' : LtEncoder.t) (rest : list float) :
  encoder_ok this ->
  (1 <= LtEncoder.sliceSize this)%nat ->
  LtEncoder.k this < 2 ^ 53 ->
  Forall unit_draw draws ->
  fountain_next this draws = Ok (block, this', rest) ->
  this' = this
  /\ Forall unit_draw rest
  /\ (exists r used degree,
        draws = r :: used ++ rest
        /\ getRandomDegree (LtEncoder.k this) (r :: used) = Ok (degree, used)
        /\ 1 <= degree <= LtEncoder.k this
        /\ Z.of_nat (length (Block.indices block)) = degree
        /\ Block.indices block = drawn_order (LtEncoder.k this) used)
  /\ NoDup (Block.indices block)
  /\ Forall (fun i => 0 <= i < LtEncoder.k this) (Block.indices block)
  /\ block = Block.mk (LtEncoder.k this) (LtEncoder.bytes this)
               (LtEncoder.checksum this) (Block.indices block)
               (xor_slices (LtEncoder.sliceSize this)
                  (map (slice_of this) (Block.indices block))).
Proof.
  intros Hok Hs Hk53 Hdraws Hrun. unfold fountain_next in Hrun.
  assert (Hk0 : 0 <= LtEncoder.k this) by (destruct Hok as [-> _]; lia).
  destruct (getRandomDegree (LtEncoder.k this) draws) as [[degree draws1]| |] eqn:Ed;
    try discriminate.
  destruct (getRandomDegree_inv _ _ _ _ Hk0 Hdraws Ed)
    as [Hd1 [Hdk [Hdraws1 [r [-> Hr]]]]].
  cbn [JS.bind fst snd] in Hrun.
  destruct (getRandomIndices (LtEncoder.k this) degree draws1)
    as [[indices draws2]| |] eqn:Ei; try discriminate.
  cbn [JS.bind fst snd] in Hrun.
  destruct (Z.eq_dec (LtEncoder.k this) 0) as [Ek|Ek].
  - (* no slice: the index drawn names none, and [createBlock] throws *)
    exfalso. unfold getRandomIndices in Ei.
    apply (getRandomIndices_loop_inv (fun _ => True)) in Ei;
      [|apply Forall_forall; trivial|constructor|constructor|simpl; lia].
    destruct Ei as [_ [_ [Hlen _]]].
    destruct indices as [|i indices]; [simpl in Hlen; lia|].
    unfold createBlock in Hrun. cbn [createBlock_loop] in Hrun.
    destruct Hok as [Hkl _]. rewrite Ek in Hkl.
    destruct (LtEncoder.indices this) as [|s slices]; [|simpl in Hkl; lia].
    unfold Array_get in Hrun.
    destruct (i <? 0); [|rewrite nth_error_nil in Hrun];
      (destruct (LtEncoder.sliceSize this); [lia|discriminate]).
  - assert (Hk1 : 1 <= LtEncoder.k this < 2 ^ 53) by lia.
    assert (Hdeg : 0 <= degree) by lia.
    destruct (getRandomIndices_inv _ _ _ _ _ Hk1 Hdeg Hdraws1 Ei)
      as [Hlen [Hnd [Hrange [Hdraws2 [used [-> Horder]]]]]].
    rewrite (createBlock_spec this indices Hok Hrange) in Hrun.
    cbn [JS.bind fst snd] in Hrun.
    injection Hrun as <- <- <-. cbn [Block.indices].
    split; [reflexivity|]. split; [exact Hdraws2|].
    split.
    { exists r, used, degree. split; [reflexivity|].
      split; [exact (getRandomDegree_tail _ _ _ _ _ Ed)|].
      split; [lia|]. split; [exact Hlen|exact Horder]. }
    split; [exact Hnd|]. split; [exact Hrange|]. reflexivity.
Qed.



Lemma encoder_seven_ok : encoder_ok encoder_seven.
Proof.
  apply encoder_of_ok. unfold bytes_ok. repeat constructor; lia.
Qed.


Lemma createBlock_xor_witness :
  exists data,
    createBlock encoder_seven [0; 2]
    = Ok (Block.mk 3 7 (LtEncoder.checksum encoder_seven) [0; 2] data,
          encoder_seven)
    /\ length data = 3%nat
    /\ data = xor_slices 3 [[1; 2; 3]; [7; 0; 0]]
    /\ (forall i, [0; 2] = [i] -> data = slice_of encoder_seven i).
Proof.
  apply (createBlock_xor encoder_seven [0; 2]).
  - exact encoder_seven_ok.
  - repeat constructor; (vm_compute; congruence).
Defined.

(** With at least one slice a step of the stream does not throw: it yields
    a block, or is still drawing when the draws run out. *)
Lemma fountain_next_no_throw (this : LtEncoder.t) (draws : list float) :
  encoder_ok this ->
  1 <= LtEncoder.k this < 2 ^ 32 ->
  Forall unit_draw draws ->
  fountain_next this draws = Pending
  \/ exists block rest, fountain_next this draws = Ok (block, this, rest).
Proof.
  intros Hok Hk32 Hdraws. unfold fountain_next.
  assert (Hk : 1 <= LtEncoder.k this < 2 ^ 53) by lia.
  destruct draws as [|r draws].
  { left. now rewrite getRandomDegree_array_length by lia. }
  inversion Hdraws as [|? ? Hr Hdraws1]; subst.
  destruct (getRandomDegree_returns (LtEncoder.k this) r draws ltac:(lia))
    as [degree [-> Hdeg]].
  cbn [JS.bind fst snd].
  destruct (getRandomIndices (LtEncoder.k this) degree draws)
    as [[indices draws2]|e|] eqn:Ei.
  - assert (Hdeg0 : 0 <= degree) by lia.
    destruct (getRandomIndices_inv _ _ _ _ _ Hk Hdeg0 Hdraws1 Ei)
      as [_ [_ [Hrange _]]].
    right. cbn [JS.bind fst snd].
    rewrite (createBlock_spec this indices Hok Hrange).
    cbn [JS.bind fst snd]. eauto.
  - exfalso. exact (getRandomIndices_loop_no_throw _ _ _ _ _ Ei).
  - now left.
Qed.

(** A step of the stream yields a block once the draws after the first
    have selected every index. *)
Lemma fountain_next_returns (this : LtEncoder.t) (r : float) (draws : list float) :
  encoder_ok this ->
  1 <= LtEncoder.k this < 2 ^ 32 ->
  Forall unit_draw (r :: draws) ->
  (forall i, 0 <= i < LtEncoder.k this ->
     In i (map (randomIndex (LtEncoder.k this)) draws)) ->
  exists block rest, fountain_next this (r :: draws) = Ok (block, this, rest).
Proof.
  intros Hok Hk32 Hdraws Hall.
  assert (Hk : 1 <= LtEncoder.k this < 2 ^ 53) by lia.
  destruct (fountain_next_no_throw this (r :: draws) Hok Hk32 Hdraws) as [Hp|H];
    [exfalso|exact H].
  unfold fountain_next in Hp.
  destruct (getRandomDegree_returns (LtEncoder.k this) r draws ltac:(lia))
    as [degree [Hd Hdeg]].
  rewrite Hd in Hp. cbn [JS.bind fst snd] in Hp.
  destruct (getRandomIndices_returns (LtEncoder.k this) degree draws
              (map Z.of_nat (seq 0 (Z.to_nat (LtEncoder.k this)))))
    as [indices [rest Hi]].
  - apply NoDup_map_of_nat, seq_NoDup.
  - rewrite length_map, length_seq. lia.
  - intros i Hi. apply in_map_iff in Hi. destruct Hi as [j [<- Hj]].
    apply in_seq in Hj. apply Hall. lia.
  - rewrite Hi in Hp. cbn [JS.bind fst snd] in Hp.
    inversion Hdraws as [|? ? _ Hdraws1]; subst.
    assert (Hdeg0 : 0 <= degree) by lia.
    destruct (getRandomIndices_inv _ _ _ _ _ Hk Hdeg0 Hdraws1 Hi)
      as [_ [_ [Hrange _]]].
    rewrite (createBlock_spec this indices Hok Hrange) in Hp. discriminate.
Qed.

(** C4 does not hold as stated: on an empty payload the constructor
    returns an encoder, with no slice and [k = 0]; it is the first block of
    its stream that fails, with a [TypeError]. *)
Lemma LtEncoder_new_empty_payload :
  LtEncoder_new (fun data => data) 0 [] 3 false
  = Ok (LtEncoder.mk [] 3 false [] [] 0 0 0)
  /\ fountain_next (LtEncoder.mk [] 3 false [] [] 0 0 0) [0.5; 0.5]%float
     = Throw TypeError.
Proof. split; vm_compute; reflexivity. Qed.

(** C4, amended: for slices of at least one byte the constructor returns
    an encoder whatever the payload; its [k] is the number of slices,
    [ceil(length / sliceSize)], at least 1 exactly when the (compressed)
    payload is not empty; and with [k >= 1], [k] being the length of an
    array (below 2^32), no step of the stream throws. *)
Theorem LtEncoder_new_total (deflate : list Z -> list Z) (fuel : nat)
    (data : list Z) (sliceSize : nat) (compress : bool) :
  let compressed := if compress then deflate data else data in
  (1 <= sliceSize)%nat ->
  bytes_ok compressed ->
  (length compressed <= fuel)%nat ->
  exists this,
    LtEncoder_new deflate fuel data sliceSize compress = Ok this
    /\ LtEncoder.k this = Z.of_nat (length (LtEncoder.indices this))
    /\ LtEncoder.k this = Z.of_nat (ceil_div (length compressed) sliceSize)
    /\ (1 <= LtEncoder.k this <-> compressed <> [])
    /\ (1 <= LtEncoder.k this < 2 ^ 32 ->
        forall draws, Forall unit_draw draws ->
          fountain_next this draws = Pending
          \/ exists block rest, fountain_next this draws = Ok (block, this, rest)).
Proof.
  intros compressed Hs Hok Hfuel.
  exists (encoder_of deflate data sliceSize compress).
  pose proof (encoder_of_ok deflate data sliceSize compress Hok) as Henc.
  split; [now apply LtEncoder_new_spec|].
  split; [apply Henc|]. split; [reflexivity|].
  assert (Hk : LtEncoder.k (encoder_of deflate data sliceSize compress)
               = Z.of_nat (ceil_div (length compressed) sliceSize)) by reflexivity.
  pose proof (ceil_div_le (length compressed) sliceSize Hs) as Hle.
  split.
  - rewrite Hk. split.
    + intros H1 E. rewrite E in H1. unfold ceil_div in H1. simpl length in H1.
      rewrite Nat.add_0_l, Nat.div_small in H1 by lia. simpl in H1. lia.
    + intros Hne. assert (0 < ceil_div (length compressed) sliceSize)%nat; [|lia].
      apply (ceil_div_spec _ _ _ Hs). destruct compressed; [congruence|simpl; lia].
  - intros H1 draws Hdraws.
    apply fountain_next_no_throw; [exact Henc|exact H1|exact Hdraws].
Qed.

Lemma LtEncoder_new_total_witness :
  exists this,
    LtEncoder_new (fun data => data) 7 [1; 2; 3; 4; 5; 6; 7] 3 false = Ok this
    /\ LtEncoder.k this = Z.of_nat (length (LtEncoder.indices this))
    /\ LtEncoder.k this = Z.of_nat (ceil_div 7 3)
    /\ (1 <= LtEncoder.k this <-> [1; 2; 3; 4; 5; 6; 7] <> [])
    /\ (1 <= LtEncoder.k this < 2 ^ 32 ->
        forall draws, Forall unit_draw draws ->
          fountain_next this draws = Pending
          \/ exists block rest, fountain_next this draws = Ok (block, this, rest)).
Proof.
  apply (LtEncoder_new_total (fun data => data) 7 [1; 2; 3; 4; 5; 6; 7] 3 false).
  - lia.
  - unfold bytes_ok. repeat constructor; lia.
  - simpl. lia.
Defined.

(** ** The checksum *)

Lemma mod_pow2_lxor (a b n : Z) :
  0 <= n -> Z.lxor a b mod 2 ^ n = Z.lxor (a mod 2 ^ n) (b mod 2 ^ n).
Proof.
  intros Hn. apply Z.bits_inj'. intros i Hi. rewrite Z.lxor_spec.
  destruct (Z.lt_ge_cases i n) as [Hlt|Hge].
  - rewrite !Z.mod_pow2_bits_low by lia. apply Z.lxor_spec.
  - rewrite !Z.mod_pow2_bits_high by lia. reflexivity.
Qed.

Lemma ToUint32_ToInt32 (x : Z) : JS.ToUint32 (JS.ToInt32 x) = JS.ToUint32 x.
Proof.
  unfold JS.ToUint32, JS.ToInt32.
  rewrite Zminus_mod_idemp_l. f_equal. lia.
Qed.

Lemma ToUint32_xor (a b : Z) :
  JS.ToUint32 (JS.xor a b) = Z.lxor (JS.ToUint32 a) (JS.ToUint32 b).
Proof.
  unfold JS.xor. unfold JS.ToUint32 at 1.
  rewrite mod_pow2_lxor by lia.
  fold (JS.ToUint32 (JS.ToInt32 a)). fold (JS.ToUint32 (JS.ToInt32 b)).
  now rewrite !ToUint32_ToInt32.
Qed.

Lemma mod_256_ToInt32 (x : Z) : JS.ToInt32 x mod 2 ^ 8 = x mod 2 ^ 8.
Proof.
  pose proof (ToUint32_ToInt32 x) as H. unfold JS.ToUint32 in H.
  change (2 ^ 32) with (2 ^ 8 * 2 ^ 24) in H.
  rewrite <- (Z.mod_mod_divide (JS.ToInt32 x) (2 ^ 8 * 2 ^ 24) (2 ^ 8))
    by (exists (2 ^ 24); lia).
  rewrite H. apply Z.mod_mod_divide. exists (2 ^ 24). lia.
Qed.

(** The index into the table: the low byte of [crc ^ b]. *)
Lemma table_index (crc b : Z) :
  0 <= b < 256 ->
  JS.and (JS.xor crc b) 0xFF = Z.lxor (JS.ToUint32 crc) b mod 2 ^ 8.
Proof.
  intros Hb. unfold JS.and.
  change (JS.ToInt32 255) with (Z.ones 8).
  rewrite Z.land_ones by lia.
  rewrite mod_256_ToInt32. unfold JS.xor.
  rewrite !mod_pow2_lxor, !mod_256_ToInt32 by lia.
  f_equal. unfold JS.ToUint32. change (2 ^ 32) with (2 ^ 8 * 2 ^ 24).
  symmetry. apply Z.mod_mod_divide. exists (2 ^ 24). lia.
Qed.

(** Every entry of the table is the bit-by-bit register after eight shifts
    of its index. *)
Lemma CRC_TABLE_spec (i : Z) :
  0 <= i < 256 -> CRC_TABLE_get i = Nat.iter 8 crc32_bit i.
Proof.
  intros Hi.
  assert (Hall : forallb
            (fun j => CRC_TABLE_get (Z.of_nat j) =? Nat.iter 8 crc32_bit (Z.of_nat j))
            (seq 0 256) = true) by (vm_compute; reflexivity).
  rewrite forallb_forall in Hall.
  specialize (Hall (Z.to_nat i)). rewrite Z2Nat.id in Hall by lia.
  apply Z.eqb_eq, Hall. apply in_seq. lia.
Qed.

Lemma CRC_TABLE_built : CRC_TABLE = CRC_TABLE_build.
Proof. vm_compute. reflexivity. Qed.

(** One shift of the register is linear for XOR. *)
Lemma crc32_bit_lxor (a b : Z) :
  crc32_bit (Z.lxor a b) = Z.lxor (crc32_bit a) (crc32_bit b).
Proof.
  unfold crc32_bit. rewrite <- !Z.bit0_odd, Z.lxor_spec.
  destruct (Z.testbit a 0), (Z.testbit b 0); cbn [xorb];
    rewrite Z.shiftr_lxor; bitwise;
    destruct (Z.testbit a (n + 1)), (Z.testbit b (n + 1)),
      (Z.testbit 3988292384 n); reflexivity.
Qed.

Lemma crc32_bit_iter_lxor (j : nat) (a b : Z) :
  Nat.iter j crc32_bit (Z.lxor a b)
  = Z.lxor (Nat.iter j crc32_bit a) (Nat.iter j crc32_bit b).
Proof.
  induction j as [|j IH]; simpl.
  - reflexivity.
  - now rewrite IH, crc32_bit_lxor.
Qed.

(** Above the byte that is shifted out the register only moves. *)
Lemma crc32_bit_shiftl (y m : Z) :
  0 <= m -> crc32_bit (Z.shiftl y (m + 1)) = Z.shiftl y m.
Proof.
  intros Hm. unfold crc32_bit.
  rewrite <- Z.bit0_odd, Z.shiftl_spec_low by lia.
  rewrite Z.shiftr_shiftl_l by lia. f_equal. lia.
Qed.

Lemma crc32_bit_iter_shiftl (y : Z) :
  Nat.iter 8 crc32_bit (Z.shiftl y 8) = y.
Proof.
  unfold Nat.iter. cbn [nat_rect].
  change 8 with (7 + 1). rewrite crc32_bit_shiftl by lia.
  change 7 with (6 + 1). rewrite crc32_bit_shiftl by lia.
  change 6 with (5 + 1). rewrite crc32_bit_shiftl by lia.
  change 5 with (4 + 1). rewrite crc32_bit_shiftl by lia.
  change 4 with (3 + 1). rewrite crc32_bit_shiftl by lia.
  change 3 with (2 + 1). rewrite crc32_bit_shiftl by lia.
  change 2 with (1 + 1). rewrite crc32_bit_shiftl by lia.
  change 1 with (0 + 1). rewrite crc32_bit_shiftl by lia.
  apply Z.shiftl_0_r.
Qed.

Lemma split_low_byte (x : Z) :
  x = Z.lxor (Z.shiftl (Z.shiftr x 8) 8) (x mod 2 ^ 8).
Proof.
  apply Z.bits_inj'. intros n Hn. rewrite Z.lxor_spec.
  destruct (Z.lt_ge_cases n 8) as [Hlt|Hge].
  - rewrite Z.shiftl_spec_low, Z.mod_pow2_bits_low by lia. reflexivity.
  - rewrite Z.shiftl_spec, Z.shiftr_spec, Z.mod_pow2_bits_high by lia.
    rewrite xorb_false_r. f_equal. lia.
Qed.

(** The table-driven step: eight shifts of the register are a shift by a
    byte XORed with the table entry of the low byte. *)
Lemma crc32_bit_iter_table (x : Z) :
  0 <= x ->
  Nat.iter 8 crc32_bit x = Z.lxor (Z.shiftr x 8) (CRC_TABLE_get (x mod 2 ^ 8)).
Proof.
  intros Hx. rewrite (split_low_byte x) at 1.
  rewrite crc32_bit_iter_lxor, crc32_bit_iter_shiftl.
  rewrite CRC_TABLE_spec; [reflexivity|].
  change 256 with (2 ^ 8). apply Z.mod_pos_bound. lia.
Qed.

Lemma ToUint32_small (x : Z) : 0 <= x < 2 ^ 32 -> JS.ToUint32 x = x.
Proof. apply ToUint32_id. Qed.

Lemma CRC_TABLE_get_range (i : Z) : 0 <= CRC_TABLE_get i < 2 ^ 32.
Proof.
  unfold CRC_TABLE_get. destruct (i <? 0); [lia|].
  assert (Hall : forallb (fun v => (0 <=? v) && (v <? 2 ^ 32)) CRC_TABLE = true)
    by (vm_compute; reflexivity).
  rewrite forallb_forall in Hall.
  destruct (Nat.lt_ge_cases (Z.to_nat i) (length CRC_TABLE)) as [Hlt|Hge].
  - specialize (Hall _ (nth_In CRC_TABLE 0 Hlt)).
    apply andb_prop in Hall. destruct Hall as [H1 H2].
    apply Z.leb_le in H1. apply Z.ltb_lt in H2. lia.
  - rewrite nth_overflow by exact Hge. lia.
Qed.

(** One byte through [crc32]'s loop, read modulo 2^32, is one byte through
    the bit-by-bit register. *)
Lemma crc32_update_spec (crc b : Z) :
  0 <= b < 256 ->
  JS.ToUint32 (crc32_update crc b) = crc32_byte (JS.ToUint32 crc) b.
Proof.
  intros Hb. unfold crc32_update, crc32_byte.
  rewrite ToUint32_xor, table_index by exact Hb.
  pose proof (ToUint32_range crc) as Hc. unfold uint32 in Hc.
  set (C := JS.ToUint32 crc) in *.
  assert (Hx : 0 <= Z.lxor C b) by (apply Z.lxor_nonneg; lia).
  rewrite crc32_bit_iter_table by exact Hx.
  rewrite (ToUint32_small (CRC_TABLE_get _)) by apply CRC_TABLE_get_range.
  f_equal. unfold JS.ushr. fold C. change (8 mod 32) with 8.
  assert (Hr : 0 <= Z.shiftr C 8 < 2 ^ 32).
  { rewrite Z.shiftr_div_pow2 by lia. split.
    - apply Z.div_pos; lia.
    - apply Z.div_lt_upper_bound; lia. }
  rewrite ToUint32_small by exact Hr.
  rewrite Z.shiftr_lxor.
  replace (Z.shiftr b 8) with 0; [now rewrite Z.lxor_0_r|].
  symmetry. rewrite Z.shiftr_div_pow2 by lia. apply Z.div_small.
  change (2 ^ 8) with 256. lia.
Qed.

Lemma crc32_fold_spec (buf : list Z) :
  bytes_ok buf ->
  forall crc,
    JS.ToUint32 (fold_left crc32_update buf crc)
    = fold_left crc32_byte buf (JS.ToUint32 crc).
Proof.
  induction 1 as [|b buf Hb _ IH]; intros crc; simpl.
  - reflexivity.
  - now rewrite IH, crc32_update_spec.
Qed.

(** X2: [crc32] is the IEEE CRC-32 on every byte sequence. *)
Lemma crc32_is_ieee (buf : list Z) : bytes_ok buf -> crc32 buf = crc32_ieee buf.
Proof.
  intros Hok. unfold crc32, crc32_ieee, JS.ushr.
  change (0 mod 32) with 0. rewrite Z.shiftr_0_r.
  rewrite ToUint32_xor, crc32_fold_spec by exact Hok. reflexivity.
Qed.

Lemma crc32_range (buf : list Z) : uint32 (crc32 buf).
Proof.
  unfold crc32, JS.ushr. change (0 mod 32) with 0. rewrite Z.shiftr_0_r.
  apply ToUint32_range.
Qed.

(** Modulo 2^32 the checksum is [crc32(data) XOR k]. *)
Lemma getChecksum_mod (data : list Z) (k : Z) :
  JS.ToUint32 (getChecksum data k) = Z.lxor (crc32 data) (JS.ToUint32 k).
Proof.
  unfold getChecksum. rewrite ToUint32_xor.
  now rewrite (ToUint32_id (crc32 data)) by apply crc32_range.
Qed.

(** The checksum is the uint32 [crc32(data) XOR k] when the CRC and [k] are
    both below 2^31, and negative when the CRC is not and [k] is. *)
Lemma getChecksum_sign (data : list Z) (k : Z) :
  0 <= k < 2 ^ 31 ->
  (crc32 data < 2 ^ 31 -> getChecksum data k = Z.lxor (crc32 data) k)
  /\ (2 ^ 31 <= crc32 data -> getChecksum data k < 0).
Proof.
  intros Hk. pose proof (crc32_range data) as Hc. unfold uint32 in Hc.
  unfold getChecksum, JS.xor. rewrite (ToInt32_small k) by exact Hk. split.
  - intros H. now rewrite ToInt32_small by lia.
  - intros H.
    assert (Hneg : JS.ToInt32 (crc32 data) < 0).
    { unfold JS.ToInt32. change (2 ^ 31) with 2147483648 in *.
      change (2 ^ 32) with 4294967296 in *.
      replace (crc32 data + 2147483648)
        with (crc32 data - 2147483648 + 1 * 4294967296) by lia.
      rewrite Z.mod_add, Z.mod_small by lia. lia. }
    apply Z.nle_gt. intros Hge. apply Z.lxor_nonneg in Hge. lia.
Qed.

(** The encoder keeps the checksum of the payload as it was given, not of
    its compressed form. *)
Lemma encoder_checksum_original (deflate : list Z -> list Z) (fuel : nat)
    (data : list Z) (sliceSize : nat) (compress : bool) (this : LtEncoder.t) :
  LtEncoder_new deflate fuel data sliceSize compress = Ok this ->
  LtEncoder.checksum this = getChecksum data (LtEncoder.k this)
  /\ LtEncoder.data this = data.
Proof.
  unfold LtEncoder_new. intros H.
  destruct (sliceData fuel (if compress then deflate data else data) sliceSize)
    as [indices| |]; try discriminate.
  cbn [JS.bind] in H. injection H as <-. split; reflexivity.
Qed.

(** The published test vector, and the CRC of no byte at all. *)
Lemma crc32_test_vectors : crc32 fox = 0x414FA339 /\ crc32 [] = 0.
Proof. split; vm_compute; reflexivity. Qed.

(** C5, at the payload ["a"] (the byte 97) and [k = 1]: the CRC-32 is
    0xE8B7BE43, its XOR with 1 as a uint32 is 3904355906, and [getChecksum]
    returns -390611390: [^] gives a signed 32-bit number, and the [>>> 0]
    that makes the result of [crc32] unsigned is not applied to it. *)
Theorem getChecksum_signed :
  crc32 [97] = 0xE8B7BE43
  /\ Z.lxor (crc32 [97]) 1 = 3904355906
  /\ getChecksum [97] 1 = -390611390.
Proof. repeat split; vm_compute; reflexivity. Qed.

(** * Further properties

    The codec, the XOR of slices, the stream and the checksum beyond the
    statements above, then Base64 and the QR code of a block, the merged
    arrays and the metadata of a file, and the drop zone. *)

(** ** The algebra of XOR on byte sequences *)

Lemma xor_bytes_swap (d x y : list Z) :
  xor_bytes (xor_bytes d x) y = xor_bytes (xor_bytes d y) x.
Proof.
  revert x y. induction d as [|a d IH]; intros [|b x] [|c y]; simpl;
    try reflexivity.
  rewrite IH. f_equal.
  rewrite !Z.lxor_assoc. f_equal. apply Z.lxor_comm.
Qed.

Lemma fold_xor_bytes_perm (l l' : list (list Z)) :
  Permutation l l' ->
  forall d, fold_left xor_bytes l d = fold_left xor_bytes l' d.
Proof.
  induction 1 as [|x l l' _ IH|x y l|l l' l'' _ IH1 _ IH2]; intros d; simpl.
  - reflexivity.
  - apply IH.
  - now rewrite xor_bytes_swap.
  - now rewrite IH1.
Qed.

Lemma xor_bytes_cancel (d s : list Z) :
  length s = length d -> xor_bytes (xor_bytes d s) s = d.
Proof.
  revert s. induction d as [|a d IH]; intros [|b s] Hlen; simpl;
    try reflexivity; try discriminate.
  rewrite IH by (simpl in Hlen; lia). f_equal.
  now rewrite Z.lxor_assoc, Z.lxor_nilpotent, Z.lxor_0_r.
Qed.

Lemma fold_xor_bytes_swap (l : list (list Z)) :
  forall d s, fold_left xor_bytes l (xor_bytes d s)
              = xor_bytes (fold_left xor_bytes l d) s.
Proof.
  induction l as [|x l IH]; intros d s; simpl.
  - reflexivity.
  - rewrite (xor_bytes_swap d s x). apply IH.
Qed.

Lemma fold_xor_bytes_cancel (l : list (list Z)) (n : nat) :
  Forall (fun s => length s = n) l ->
  forall d, length d = n ->
    fold_left xor_bytes l (fold_left xor_bytes l d) = d.
Proof.
  induction 1 as [|x l Hx Hl IH]; intros d Hd; simpl.
  - reflexivity.
  - rewrite !fold_xor_bytes_swap. rewrite IH by exact Hd.
    apply xor_bytes_cancel. lia.
Qed.

Lemma fold_xor_bytes_ok (l : list (list Z)) :
  Forall bytes_ok l ->
  forall d, bytes_ok d -> bytes_ok (fold_left xor_bytes l d).
Proof.
  induction 1 as [|x l Hx _ IH]; intros d Hd; simpl.
  - exact Hd.
  - apply IH. now apply xor_bytes_ok.
Qed.

(** Folding [xorUint8Array] over slices of the length of the data is
    folding the bitwise XOR. *)
Lemma fold_xorUint8Array (l : list (list Z)) (n : nat) :
  Forall (fun s => length s = n) l -> Forall bytes_ok l ->
  forall d, length d = n -> bytes_ok d ->
    fold_left xorUint8Array l d = fold_left xor_bytes l d.
Proof.
  induction 1 as [|x l Hx _ IH]; intros Hok d Hd Hdok; simpl.
  - reflexivity.
  - inversion Hok as [|? ? Hxok Hlok]; subst.
    rewrite xorUint8Array_spec by (assumption || lia).
    apply IH; [exact Hlok| |now apply xor_bytes_ok].
    rewrite xor_bytes_length; lia.
Qed.

Lemma slices_named_ok (this : LtEncoder.t) (indices : list Z) :
  encoder_ok this ->
  Forall (fun i => 0 <= i < LtEncoder.k this) indices ->
  Forall (fun s => length s = LtEncoder.sliceSize this) (map (slice_of this) indices)
  /\ Forall bytes_ok (map (slice_of this) indices).
Proof.
  intros Hwf Hind. split; apply Forall_map; eapply Forall_impl; try exact Hind;
    intros i Hi; now apply slice_of_ok.
Qed.

(** X3: the data of a block depend on the indices, not on their order. *)
Theorem createBlock_any_order (this : LtEncoder.t) (indices indices' : list Z) :
  encoder_ok this ->
  Forall (fun i => 0 <= i < LtEncoder.k this) indices ->
  Permutation indices indices' ->
  exists block block',
    createBlock this indices = Ok (block, this)
    /\ createBlock this indices' = Ok (block', this)
    /\ Block.data block = Block.data block'.
Proof.
  intros Hwf Hind Hperm.
  assert (Hind' : Forall (fun i => 0 <= i < LtEncoder.k this) indices').
  { rewrite Forall_forall in *. intros i Hi. apply Hind.
    eapply Permutation_in; [apply Permutation_sym; exact Hperm|exact Hi]. }
  do 2 eexists. split; [now apply createBlock_spec|].
  split; [now apply createBlock_spec|].
  cbn [Block.data]. unfold xor_slices.
  apply fold_xor_bytes_perm. now apply Permutation_map.
Qed.

Lemma createBlock_any_order_witness :
  exists block block',
    createBlock encoder_seven [0; 2] = Ok (block, encoder_seven)
    /\ createBlock encoder_seven [2; 0] = Ok (block', encoder_seven)
    /\ Block.data block = Block.data block'.
Proof.
  apply (createBlock_any_order encoder_seven [0; 2] [2; 0]).
  - apply encoder_seven_ok.
  - repeat constructor; vm_compute; congruence.
  - apply perm_swap.
Defined.

(** X4: the step of a decoder: XORing into the data of a block the slices of
    all its indices but one leaves the slice of that one. *)
Theorem createBlock_peel (this : LtEncoder.t) (indices : list Z) (i : Z)
    (rest : list Z) :
  encoder_ok this ->
  Forall (fun i => 0 <= i < LtEncoder.k this) indices ->
  Permutation indices (i :: rest) ->
  exists block,
    createBlock this indices = Ok (block, this)
    /\ fold_left xorUint8Array (map (slice_of this) rest) (Block.data block)
       = slice_of this i.
Proof.
  intros Hwf Hind Hperm.
  assert (Hind' : Forall (fun i => 0 <= i < LtEncoder.k this) (i :: rest)).
  { rewrite Forall_forall in *. intros j Hj. apply Hind.
    eapply Permutation_in; [apply Permutation_sym; exact Hperm|exact Hj]. }
  inversion Hind' as [|? ? Hi Hrest]; subst.
  destruct (slice_of_ok this i Hwf Hi) as [Hlen Hok].
  destruct (slices_named_ok this rest Hwf Hrest) as [Hlens Hoks].
  eexists. split; [now apply createBlock_spec|].
  cbn [Block.data]. unfold xor_slices.
  rewrite (fold_xor_bytes_perm _ _ (Permutation_map (slice_of this) Hperm)).
  cbn [map fold_left].
  assert (Hz : xor_bytes (repeat 0 (LtEncoder.sliceSize this)) (slice_of this i)
               = slice_of this i)
    by (rewrite <- Hlen; now apply xor_bytes_zero).
  rewrite Hz.
  rewrite (fold_xorUint8Array _ (LtEncoder.sliceSize this)); try assumption.
  - now apply (fold_xor_bytes_cancel _ (LtEncoder.sliceSize this)).
  - now apply fold_xor_bytes_length.
  - now apply fold_xor_bytes_ok.
Qed.

Lemma createBlock_peel_witness :
  exists block,
    createBlock encoder_seven [0; 2; 1] = Ok (block, encoder_seven)
    /\ fold_left xorUint8Array (map (slice_of encoder_seven) [0; 1]) (Block.data block)
       = slice_of encoder_seven 2.
Proof.
  apply (createBlock_peel encoder_seven [0; 2; 1] 2 [0; 1]).
  - apply encoder_seven_ok.
  - repeat constructor; vm_compute; congruence.
  - apply perm_swap.
Defined.
(** ** [xorUint8Array] on arrays of any lengths *)

Lemma fold_left_pointwise {A B : Type} (f g : A -> B -> A) (l : list B) :
  (forall a b, f a b = g a b) ->
  forall a, fold_left f l a = fold_left g l a.
Proof.
  intros Hfg. induction l as [|b l IH]; intros a; simpl.
  - reflexivity.
  - now rewrite Hfg, IH.
Qed.

Lemma xorUint8Array_cons (x : Z) (a b : list Z) :
  xorUint8Array (x :: a) b
  = JS.ToUint8 (JS.xor x (nth 0 b 0)) :: xorUint8Array a (tl b).
Proof.
  unfold xorUint8Array. simpl length. simpl seq. rewrite <- seq_shift.
  cbn [fold_left Uint8Array_new repeat Uint8Array_store Uint8Array_get nth].
  rewrite (xorUint8Array_shift
             (fun i => JS.xor (Uint8Array_get (x :: a) i) (Uint8Array_get b i))).
  f_equal. unfold Uint8Array_new. apply fold_left_pointwise.
  intros data i. unfold Uint8Array_get. do 2 f_equal.
  destruct b as [|y b]; [now destruct i|reflexivity].
Qed.

Lemma xorUint8Array_length (a b : list Z) :
  length (xorUint8Array a b) = length a.
Proof.
  revert b. induction a as [|x a IH]; intros b.
  - reflexivity.
  - rewrite xorUint8Array_cons. simpl. now rewrite IH.
Qed.

(** X5: [xorUint8Array(a, b)] has the length of [a] whatever the length of
    [b], and applying it twice with the same [b] gives [a] back. *)
Theorem xorUint8Array_involutive (a b : list Z) :
  bytes_ok a -> bytes_ok b ->
  length (xorUint8Array a b) = length a
  /\ bytes_ok (xorUint8Array a b)
  /\ xorUint8Array (xorUint8Array a b) b = a.
Proof.
  intros Ha. revert b.
  induction Ha as [|x a Hx Ha IH]; intros b Hb.
  - repeat split. constructor.
  - assert (Hh : 0 <= nth 0 b 0 < 256).
    { destruct Hb as [|y b Hy _]; simpl; [lia|exact Hy]. }
    assert (Ht : bytes_ok (tl b)).
    { destruct Hb as [|y b _ Hb]; simpl; [constructor|exact Hb]. }
    destruct (IH (tl b) Ht) as [Hlen [Hok Hinv]].
    destruct (xor_byte x (nth 0 b 0) Hx Hh) as [E Hr].
    rewrite xorUint8Array_cons, E. split; [|split].
    + simpl. now rewrite Hlen.
    + constructor; assumption.
    + rewrite xorUint8Array_cons, Hinv.
      destruct (xor_byte (Z.lxor x (nth 0 b 0)) (nth 0 b 0) Hr Hh) as [E' _].
      rewrite E'. f_equal.
      now rewrite Z.lxor_assoc, Z.lxor_nilpotent, Z.lxor_0_r.
Qed.

Lemma xorUint8Array_involutive_witness :
  length (xorUint8Array [1; 2; 3] [255]) = length [1; 2; 3]
  /\ bytes_ok (xorUint8Array [1; 2; 3] [255])
  /\ xorUint8Array (xorUint8Array [1; 2; 3] [255]) [255] = [1; 2; 3].
Proof.
  apply (xorUint8Array_involutive [1; 2; 3] [255]);
    repeat constructor; lia.
Defined.

(** ** The codec on a big-endian host *)

Lemma map_ToUint32_idem (l : list Z) :
  map JS.ToUint32 (map JS.ToUint32 l) = map JS.ToUint32 l.
Proof.
  rewrite map_map. apply map_ext. intros x.
  apply ToUint32_id, ToUint32_range.
Qed.

(** [blockToBinary] does not tell apart fields that agree modulo 2^32. *)
Lemma blockToBinary_uint32_block (host : endianness) (block : Block.t) :
  blockToBinary host (uint32_block block) = blockToBinary host block.
Proof.
  rewrite !blockToBinary_layout. do 3 f_equal.
  unfold header_words, uint32_block.
  cbn [Block.indices Block.k Block.bytes Block.checksum].
  rewrite length_map. cbn [map]. rewrite !map_app. cbn [map].
  rewrite map_ToUint32_idem.
  now rewrite !(ToUint32_id (JS.ToUint32 _)) by apply ToUint32_range.
Qed.

Lemma uint32_block_representable (block : Block.t) :
  bytes_ok (Block.data block) ->
  Z.of_nat (length (Block.indices block)) < 2 ^ 32 ->
  block_representable (uint32_block block).
Proof.
  intros Hdata Hdeg. split; [|exact Hdata]. unfold header_words, uint32_block.
  cbn [Block.indices Block.k Block.bytes Block.checksum].
  constructor.
  - rewrite length_map. unfold uint32. lia.
  - apply Forall_app. split.
    + apply Forall_map, Forall_forall. intros x _. apply ToUint32_range.
    + repeat constructor; apply ToUint32_range.
Qed.

(** X6: on a big-endian host every block with byte data comes back from the
    codec with its fields reduced modulo 2^32: a negative checksum comes back
    2^32 higher. *)
Theorem roundtrip_big_endian_uint32 (block : Block.t) :
  bytes_ok (Block.data block) ->
  Z.of_nat (length (Block.indices block)) < 2 ^ 32 ->
  exists binary,
    blockToBinary BigEndian block = Ok binary
    /\ binaryToBlock (U8.fresh binary) = Ok (uint32_block block)
    /\ (block_representable block -> uint32_block block = block)
    /\ (- 2 ^ 31 <= Block.checksum block < 0 ->
        Block.checksum (uint32_block block) = Block.checksum block + 2 ^ 32).
Proof.
  intros Hdata Hdeg.
  destruct (roundtrip_big_endian _ (uint32_block_representable block Hdata Hdeg))
    as [binary [Henc Hdec]].
  rewrite blockToBinary_uint32_block in Henc.
  exists binary. split; [exact Henc|]. split; [exact Hdec|]. split.
  - intros [Hws _]. unfold header_words in Hws.
    inversion Hws as [|? ? _ Hrest]; subst.
    apply Forall_app in Hrest. destruct Hrest as [Hind Hrest].
    inversion Hrest as [|? ? Hk Hrest1]; subst.
    inversion Hrest1 as [|? ? Hb Hrest2]; subst.
    inversion Hrest2 as [|? ? Hc _]; subst.
    unfold uint32_block. rewrite !ToUint32_id by assumption.
    replace (map JS.ToUint32 (Block.indices block)) with (Block.indices block).
    + now destruct block.
    + clear - Hind. induction Hind as [|i l Hi _ IH]; simpl.
      * reflexivity.
      * now rewrite <- IH, ToUint32_id.
  - intros Hc. unfold uint32_block. cbn [Block.checksum].
    unfold JS.ToUint32. change (2 ^ 31) with 2147483648 in Hc.
    change (2 ^ 32) with 4294967296.
    rewrite <- (Z.mod_add _ 1) by lia. apply Z.mod_small. lia.
Qed.

Lemma roundtrip_big_endian_uint32_witness :
  exists binary,
    blockToBinary BigEndian (Block.mk 1 1 (-390611390) [0] [7]) = Ok binary
    /\ binaryToBlock (U8.fresh binary)
       = Ok (uint32_block (Block.mk 1 1 (-390611390) [0] [7]))
    /\ (block_representable (Block.mk 1 1 (-390611390) [0] [7]) ->
        uint32_block (Block.mk 1 1 (-390611390) [0] [7])
        = Block.mk 1 1 (-390611390) [0] [7])
    /\ (- 2 ^ 31 <= Block.checksum (Block.mk 1 1 (-390611390) [0] [7]) < 0 ->
        Block.checksum (uint32_block (Block.mk 1 1 (-390611390) [0] [7]))
        = Block.checksum (Block.mk 1 1 (-390611390) [0] [7]) + 2 ^ 32).
Proof.
  apply (roundtrip_big_endian_uint32 (Block.mk 1 1 (-390611390) [0] [7])).
  - repeat constructor; lia.
  - simpl. lia.
Defined.

(** The four bytes at [p] are the big-endian bytes of their value. *)
Lemma word_bytes_be_at (l : list Z) (p : nat) :
  bytes_ok l -> (p + 4 <= length l)%nat ->
  word_bytes_be (be32_at l p) = firstn 4 (skipn p l).
Proof.
  intros Hok Hp.
  rewrite <- (firstn_skipn p l) in Hok. apply Forall_app in Hok.
  destruct Hok as [_ Hok].
  assert (Hnth : forall j, nth (p + j) l 0 = nth j (skipn p l) 0).
  { intros j. rewrite <- (firstn_skipn p l) at 1.
    rewrite app_nth2; rewrite length_firstn; [|lia].
    f_equal. lia. }
  unfold be32_at.
  replace p with (p + 0)%nat at 1 by lia.
  replace (p + 1 + 0)%nat with (p + 1)%nat by lia.
  rewrite !Hnth.
  assert (Hl : (4 <= length (skipn p l))%nat) by (rewrite length_skipn; lia).
  destruct (skipn p l) as [|b0 [|b1 [|b2 [|b3 rest]]]]; simpl in Hl; try lia.
  inversion Hok as [|? ? H0 Hok1]; subst.
  inversion Hok1 as [|? ? H1 Hok2]; subst.
  inversion Hok2 as [|? ? H2 Hok3]; subst.
  inversion Hok3 as [|? ? H3 _]; subst.
  cbn [nth firstn]. unfold word_bytes_be, word_bytes_le. cbn [rev app].
  repeat f_equal.
  - change (2 ^ 24) with 16777216. change (2 ^ 16) with 65536.
    change (2 ^ 8) with 256.
    replace (b0 * 16777216 + b1 * 65536 + b2 * 256 + b3)
      with (b1 * 65536 + b2 * 256 + b3 + b0 * 16777216) by lia.
    rewrite Z.div_add by lia. rewrite Z.div_small by lia.
    now rewrite Z.mod_small by lia.
  - change (2 ^ 24) with 16777216. change (2 ^ 16) with 65536.
    change (2 ^ 8) with 256.
    replace (b0 * 16777216 + b1 * 65536 + b2 * 256 + b3)
      with (b2 * 256 + b3 + (b0 * 256 + b1) * 65536) by lia.
    rewrite Z.div_add by lia. rewrite Z.div_small by lia.
    replace (0 + (b0 * 256 + b1)) with (b1 + b0 * 256) by lia.
    rewrite Z.mod_add by lia. now rewrite Z.mod_small by lia.
  - change (2 ^ 24) with 16777216. change (2 ^ 16) with 65536.
    change (2 ^ 8) with 256.
    replace (b0 * 16777216 + b1 * 65536 + b2 * 256 + b3)
      with (b3 + (b0 * 65536 + b1 * 256 + b2) * 256) by lia.
    rewrite Z.div_add by lia. rewrite Z.div_small by lia.
    replace (0 + (b0 * 65536 + b1 * 256 + b2))
      with (b2 + (b0 * 256 + b1) * 256) by lia.
    rewrite Z.mod_add by lia. now rewrite Z.mod_small by lia.
  - change (2 ^ 24) with 16777216. change (2 ^ 16) with 65536.
    change (2 ^ 8) with 256.
    replace (b0 * 16777216 + b1 * 65536 + b2 * 256 + b3)
      with (b3 + (b0 * 65536 + b1 * 256 + b2) * 256) by lia.
    rewrite Z.mod_add by lia. now rewrite Z.mod_small by lia.
Qed.

(** The big-endian bytes of the first [n] words of a byte sequence are its
    first [4 n] bytes. *)
Lemma words_bytes_prefix (l : list Z) (n : nat) :
  bytes_ok l -> (n * 4 <= length l)%nat ->
  flat_map word_bytes_be (map (fun j => be32_at l (j * 4)) (seq 0 n))
  = firstn (n * 4) l.
Proof.
  intros Hok. induction n as [|n IH]; intros Hn.
  - reflexivity.
  - rewrite seq_S, map_app, flat_map_app, IH by lia.
    cbn [map flat_map Nat.add]. rewrite app_nil_r.
    rewrite word_bytes_be_at by (assumption || lia).
    replace (S n * 4)%nat with (n * 4 + 4)%nat by lia.
    rewrite <- (firstn_skipn (n * 4) l) at 3.
    rewrite firstn_app, length_firstn.
    replace (n * 4 + 4 - Nat.min (n * 4) (length l))%nat with 4%nat by lia.
    f_equal. rewrite firstn_firstn. f_equal. lia.
Qed.

Lemma header_words_block_read (bytes : list Z) :
  bytes_ok bytes ->
  header_words (block_read (U8.fresh bytes))
  = map (fun j => be32_at bytes (j * 4))
      (seq 0 (Z.to_nat (be32_at bytes 0) + 4)).
Proof.
  intros Hok. pose proof (be32_at_range bytes 0 Hok) as [Hd _].
  unfold header_words, block_read, U8.fresh, DataView_new.
  cbn [U8.buffer U8.byteOffset Block.indices Block.k Block.bytes Block.checksum skipn].
  set (d := Z.to_nat (be32_at bytes 0)).
  unfold indices_read. rewrite length_map, length_seq.
  replace (d + 4)%nat with (S d + 3)%nat by lia.
  rewrite seq_app. cbn [seq map Nat.add]. rewrite map_app. cbn [map].
  rewrite <- app_comm_cons. f_equal; [unfold d; cbn [Nat.mul]; lia|].
  rewrite <- seq_shift, map_map. f_equal.
  - apply map_ext. intros i. f_equal. lia.
  - replace (S (S (S d))) with (d + 3)%nat by lia.
    replace (S (S d)) with (d + 2)%nat by lia.
    replace (S d) with (d + 1)%nat by lia. reflexivity.
Qed.

(** X7: on a big-endian host encoding is the inverse of decoding as well:
    a byte sequence that [binaryToBlock] decodes is what [blockToBinary]
    makes of the block. *)
Theorem blockToBinary_of_binaryToBlock (bytes : list Z) (block : Block.t) :
  bytes_ok bytes ->
  binaryToBlock (U8.fresh bytes) = Ok block ->
  blockToBinary BigEndian block = Ok bytes.
Proof.
  intros Hok Hdec.
  set (binary := U8.fresh bytes) in *.
  assert (Hbuf : bytes_ok (U8.buffer binary)) by exact Hok.
  assert (Hav : available binary = length bytes) by reflexivity.
  assert (Hdf : degree_field binary = be32_at bytes 0) by reflexivity.
  destruct (Z_lt_le_dec (Z.of_nat (available binary)) ((degree_field binary + 4) * 4))
    as [Hshort|Hfits].
  { rewrite (binaryToBlock_outside binary Hbuf) in Hdec by (right; exact Hshort).
    discriminate Hdec. }
  rewrite (binaryToBlock_inside binary Hbuf Hfits) in Hdec.
  injection Hdec as <-.
  pose proof (be32_at_range bytes 0 Hok) as [Hd _].
  set (d := Z.to_nat (be32_at bytes 0)).
  assert (Hn : ((d + 4) * 4 <= length bytes)%nat) by (unfold d; lia).
  assert (Hdata : Block.data (block_read binary) = skipn ((d + 4) * 4) bytes).
  { unfold block_read, binary, U8.fresh, DataView_new, U8.contents.
    cbn [U8.buffer U8.byteOffset U8.length Block.data skipn].
    now rewrite firstn_all. }
  rewrite blockToBinary_big_endian.
  - unfold binary. rewrite header_words_block_read by exact Hok. fold d.
    rewrite words_bytes_prefix by assumption.
    fold binary. rewrite Hdata. now rewrite firstn_skipn.
  - split.
    + unfold binary. rewrite header_words_block_read by exact Hok.
      apply Forall_map, Forall_forall. intros j _. now apply be32_at_range.
    + rewrite Hdata. now apply bytes_ok_skipn.
Qed.

Lemma blockToBinary_of_binaryToBlock_witness :
  blockToBinary BigEndian (Block.mk 2 5 9 [1] [7; 8])
  = Ok [0; 0; 0; 1;  0; 0; 0; 1;  0; 0; 0; 2;  0; 0; 0; 5;  0; 0; 0; 9;  7; 8].
Proof.
  apply (blockToBinary_of_binaryToBlock
           [0; 0; 0; 1;  0; 0; 0; 1;  0; 0; 0; 2;  0; 0; 0; 5;  0; 0; 0; 9;  7; 8]).
  - repeat constructor; lia.
  - reflexivity.
Defined.

(** X8: the header is read from the buffer, not from the array: an array
    that ends before its header does, on a buffer that holds the header, is
    decoded, with no data, instead of being refused. *)
Theorem binaryToBlock_header_past_array (binary : U8.t) :
  bytes_ok (U8.buffer binary) ->
  (degree_field binary + 4) * 4 <= Z.of_nat (available binary) ->
  Z.of_nat (U8.length binary) <= (degree_field binary + 4) * 4 ->
  binaryToBlock binary = Ok (block_read binary)
  /\ Block.data (block_read binary) = [].
Proof.
  intros Hok Hfits Hshort. split; [now apply binaryToBlock_inside|].
  pose proof (be32_at_range _ 0 (DataView_ok binary Hok)) as [Hd _].
  fold (degree_field binary) in Hd.
  unfold block_read. cbn [Block.data].
  fold (degree_field binary).
  apply skipn_all2. unfold U8.contents. rewrite length_firstn. lia.
Qed.

Lemma binaryToBlock_header_past_array_witness :
  binaryToBlock
    (U8.mk [0; 0; 0; 1;  0; 0; 0; 0;  0; 0; 0; 1;  0; 0; 0; 1;  0; 0; 0; 0;  7]
       0 8)
  = Ok (block_read
          (U8.mk [0; 0; 0; 1;  0; 0; 0; 0;  0; 0; 0; 1;  0; 0; 0; 1;  0; 0; 0; 0;  7]
             0 8))
  /\ Block.data
       (block_read
          (U8.mk [0; 0; 0; 1;  0; 0; 0; 0;  0; 0; 0; 1;  0; 0; 0; 1;  0; 0; 0; 0;  7]
             0 8))
     = [].
Proof.
  apply binaryToBlock_header_past_array.
  - repeat constructor; lia.
  - vm_compute. congruence.
  - vm_compute. congruence.
Defined.

(** ** The codec on a little-endian host *)

Lemma roundtrip_little_endian_throws_witness :
  exists binary,
    blockToBinary LittleEndian (Block.mk 2 5 9 [1; 0] [7; 8]) = Ok binary
    /\ binaryToBlock (U8.fresh binary) = Throw RangeError.
Proof.
  apply (roundtrip_little_endian_throws (Block.mk 2 5 9 [1; 0] [7; 8])).
  - repeat constructor; lia.
  - simpl. lia.
  - simpl. lia.
Defined.

(** ** The stream, block by block *)

(** X9: every block of the stream carries the encoder's [k], [bytes] and
    [checksum] and, as data, [sliceSize] bytes: the XOR of the slices its
    indices name, one slice as it is for a block of degree 1. The stream
    takes its draws in order, at least two for a block. *)
Theorem fountain_blocks (this : LtEncoder.t) (n : nat) (draws : list float)
    (blocks : list Block.t) (this' : LtEncoder.t) (rest : list float) :
  encoder_ok this ->
  (1 <= LtEncoder.sliceSize this)%nat ->
  LtEncoder.k this < 2 ^ 53 ->
  Forall unit_draw draws ->
  fountain n this draws = Ok (blocks, this', rest) ->
  Forall
    (fun block =>
       Block.k block = LtEncoder.k this
       /\ Block.bytes block = LtEncoder.bytes this
       /\ Block.checksum block = LtEncoder.checksum this
       /\ length (Block.data block) = LtEncoder.sliceSize this
       /\ Block.data block
          = xor_slices (LtEncoder.sliceSize this)
              (map (slice_of this) (Block.indices block))
       /\ (forall i, Block.indices block = [i] ->
             Block.data block = slice_of this i))
    blocks
  /\ exists used, draws = used ++ rest /\ (2 * n <= length used)%nat.
Proof.
  intros Hok Hs Hk. revert draws blocks this' rest.
  induction n as [|n IH]; intros draws blocks this' rest Hdraws Hrun.
  - simpl in Hrun. injection Hrun as <- <- <-.
    split; [constructor|]. exists []. split; [reflexivity|simpl; lia].
  - simpl in Hrun.
    destruct (fountain_next this draws) as [[[b this1] draws1]| |] eqn:Eb;
      try discriminate.
    destruct (fountain_next_inv _ _ _ _ _ Hok Hs Hk Hdraws Eb)
      as [-> [Hdraws1 [[r [used [degree [-> [Hd [Hrange [Hlen Horder]]]]]]]
                         [Hnd [Hin Hb]]]]].
    cbn [JS.bind fst snd] in Hrun.
    destruct (fountain n this draws1) as [[[bs this2] draws2]| |] eqn:En;
      try discriminate.
    cbn [JS.bind fst snd] in Hrun. injection Hrun as <- <- <-.
    destruct (IH _ _ _ _ Hdraws1 En) as [Hall [used' [-> Hused']]].
    split.
    + constructor; [|exact Hall].
      destruct (slices_named_ok this (Block.indices b) Hok Hin) as [Hlens Hoks].
      rewrite Hb at 1 2 3 4 5. cbn [Block.k Block.bytes Block.checksum Block.data].
      repeat split.
      * unfold xor_slices. apply fold_xor_bytes_length; [exact Hlens|].
        apply repeat_length.
      * intros i Ei. rewrite Hb. cbn [Block.data]. rewrite Ei in *.
        inversion Hin as [|? ? Hi _]; subst.
        destruct (slice_of_ok this i Hok Hi) as [Hl Hbytes].
        unfold xor_slices. cbn [map fold_left].
        rewrite <- Hl. now apply xor_bytes_zero.
    + exists (r :: used ++ used'). split.
      * simpl. now rewrite <- app_assoc.
      * assert (1 <= length used)%nat.
        { destruct used as [|u used]; [|simpl; lia].
          unfold drawn_order in Horder. simpl in Horder.
          rewrite Horder in Hlen. simpl in Hlen. lia. }
        simpl. rewrite length_app. lia.
Qed.

Lemma fountain_blocks_witness :
  Forall
    (fun block =>
       Block.k block = LtEncoder.k encoder_seven
       /\ Block.bytes block = LtEncoder.bytes encoder_seven
       /\ Block.checksum block = LtEncoder.checksum encoder_seven
       /\ length (Block.data block) = LtEncoder.sliceSize encoder_seven
       /\ Block.data block
          = xor_slices (LtEncoder.sliceSize encoder_seven)
              (map (slice_of encoder_seven) (Block.indices block))
       /\ (forall i, Block.indices block = [i] ->
             Block.data block = slice_of encoder_seven i))
    [Block.mk 3 7 (LtEncoder.checksum encoder_seven) [2; 0] [6; 2; 3];
     Block.mk 3 7 (LtEncoder.checksum encoder_seven) [1] [4; 5; 6]]
  /\ exists used,
       [0.5; 0.75; 0.25; 0.25; 0.5; 0.125]%float = used ++ [0.125]%float
       /\ (2 * 2 <= length used)%nat.
Proof.
  apply (fountain_blocks encoder_seven 2
           [0.5; 0.75; 0.25; 0.25; 0.5; 0.125]%float _ encoder_seven
           [0.125]%float).
  - exact encoder_seven_ok.
  - simpl. lia.
  - vm_compute. reflexivity.
  - repeat constructor.
  - vm_compute. reflexivity.
Defined.

(** ** An empty payload *)

Lemma randomIndex_zero (r : float) : unit_draw r -> randomIndex 0 r = 0.
Proof.
  intros Hr. unfold randomIndex, Math_floor. rewrite mul_spec.
  change (Prim2SF (num 0)) with (S754_zero false).
  destruct (unit_draw_spec r Hr) as [[s ->]|[m [e [-> _]]]]; reflexivity.
Qed.

(** X10: over an empty payload the constructor returns an encoder with no
    slice and [k = 0], and the first block of its stream is never made:
    [getRandomDegree(0)] gives the degree 1, the index drawn is 0, and
    [createBlock] throws a [TypeError] on the slice that is missing. *)
Theorem fountain_empty_payload (deflate : list Z -> list Z) (fuel : nat)
    (data : list Z) (sliceSize : nat) (compress : bool)
    (r1 r2 : float) (draws : list float) :
  (1 <= sliceSize)%nat ->
  (if compress then deflate data else data) = [] ->
  unit_draw r1 -> unit_draw r2 ->
  exists this,
    LtEncoder_new deflate fuel data sliceSize compress = Ok this
    /\ LtEncoder.k this = 0
    /\ LtEncoder.indices this = []
    /\ getRandomDegree (LtEncoder.k this) (r1 :: r2 :: draws) = Ok (1, r2 :: draws)
    /\ getRandomIndices (LtEncoder.k this) 1 (r2 :: draws) = Ok ([0], draws)
    /\ fountain_next this (r1 :: r2 :: draws) = Throw TypeError.
Proof.
  intros Hs Hempty Hr1 Hr2.
  assert (Hnew : LtEncoder_new deflate fuel data sliceSize compress
                 = Ok (LtEncoder.mk data sliceSize compress [] [] 0
                         (getChecksum data 0) 0)).
  { unfold LtEncoder_new. rewrite Hempty. unfold sliceData.
    destruct fuel; reflexivity. }
  eexists. split; [exact Hnew|].
  cbn [LtEncoder.k LtEncoder.indices].
  assert (Hd : getRandomDegree 0 (r1 :: r2 :: draws) = Ok (1, r2 :: draws))
    by now apply getRandomDegree_zero.
  assert (Hi : getRandomIndices 0 1 (r2 :: draws) = Ok ([0], draws)).
  { unfold getRandomIndices. cbn [getRandomIndices_loop length Z.of_nat Z.ltb Z.compare].
    fold (randomIndex 0 r2). rewrite randomIndex_zero by exact Hr2.
    destruct draws; reflexivity. }
  repeat split; try assumption.
  unfold fountain_next. cbn [LtEncoder.k]. rewrite Hd. cbn [JS.bind fst snd].
  rewrite Hi. cbn [JS.bind fst snd].
  unfold createBlock. cbn [createBlock_loop LtEncoder.indices LtEncoder.sliceSize].
  unfold Array_get. cbn [Z.ltb Z.compare Z.to_nat nth_error].
  destruct sliceSize; [lia|reflexivity].
Qed.

Lemma fountain_empty_payload_witness :
  exists this,
    LtEncoder_new (fun data => data) 0 [] 3 false = Ok this
    /\ LtEncoder.k this = 0
    /\ LtEncoder.indices this = []
    /\ getRandomDegree (LtEncoder.k this) [0.5; 0.25; 0.75]%float
       = Ok (1, [0.25; 0.75]%float)
    /\ getRandomIndices (LtEncoder.k this) 1 [0.25; 0.75]%float
       = Ok ([0], [0.75]%float)
    /\ fountain_next this [0.5; 0.25; 0.75]%float = Throw TypeError.
Proof.
  apply (fountain_empty_payload (fun data => data) 0 [] 3 false
           0.5%float 0.25%float [0.75%float]).
  - lia.
  - reflexivity.
  - split; reflexivity.
  - split; reflexivity.
Defined.

(** ** The slices end to end *)

(** X11: the slices of an encoder end to end, cut at [bytes], are the
    (compressed) payload: [bytes] tells a receiver where the padding of the
    last slice begins. *)
Theorem LtEncoder_new_reassembly (deflate : list Z -> list Z) (fuel : nat)
    (data : list Z) (sliceSize : nat) (compress : bool) (this : LtEncoder.t) :
  (1 <= sliceSize)%nat ->
  bytes_ok (if compress then deflate data else data) ->
  LtEncoder_new deflate fuel data sliceSize compress = Ok this ->
  LtEncoder.compressed this = (if compress then deflate data else data)
  /\ LtEncoder.bytes this = Z.of_nat (length (LtEncoder.compressed this))
  /\ firstn (Z.to_nat (LtEncoder.bytes this)) (concat (LtEncoder.indices this))
     = LtEncoder.compressed this
  /\ Forall (fun b => b = 0)
       (skipn (Z.to_nat (LtEncoder.bytes this)) (concat (LtEncoder.indices this)))
  /\ (length (concat (LtEncoder.indices this))
      < length (LtEncoder.compressed this) + sliceSize)%nat.
Proof.
  intros Hs Hok Hnew.
  destruct (LtEncoder_new_returns _ _ _ _ _ _ Hok Hnew) as [-> _].
  unfold encoder_of.
  cbn [LtEncoder.compressed LtEncoder.bytes LtEncoder.indices].
  set (compressed := if compress then deflate data else data) in *.
  split; [reflexivity|]. split; [reflexivity|].
  rewrite Nat2Z.id. unfold slices_of.
  rewrite (concat_slices_from compressed sliceSize Hs _ 0) by reflexivity.
  cbn [Nat.mul skipn Nat.add].
  pose proof (ceil_div_bounds (length compressed) sliceSize Hs) as [Hlo Hhi].
  split; [|split].
  - rewrite firstn_app, firstn_all, Nat.sub_diag. cbn [firstn].
    apply app_nil_r.
  - rewrite skipn_app, skipn_all, Nat.sub_diag. cbn [skipn app].
    apply Forall_forall. intros b Hb. now apply repeat_spec in Hb.
  - rewrite length_app, repeat_length. lia.
Qed.

Lemma LtEncoder_new_reassembly_witness :
  LtEncoder.compressed encoder_seven = [1; 2; 3; 4; 5; 6; 7]
  /\ LtEncoder.bytes encoder_seven
     = Z.of_nat (length (LtEncoder.compressed encoder_seven))
  /\ firstn (Z.to_nat (LtEncoder.bytes encoder_seven))
       (concat (LtEncoder.indices encoder_seven))
     = LtEncoder.compressed encoder_seven
  /\ Forall (fun b => b = 0)
       (skipn (Z.to_nat (LtEncoder.bytes encoder_seven))
          (concat (LtEncoder.indices encoder_seven)))
  /\ (length (concat (LtEncoder.indices encoder_seven))
      < length (LtEncoder.compressed encoder_seven) + 3)%nat.
Proof.
  apply (LtEncoder_new_reassembly (fun data => data) 7 [1; 2; 3; 4; 5; 6; 7] 3
           false encoder_seven).
  - lia.
  - repeat constructor; lia.
  - vm_compute. reflexivity.
Defined.

(** ** [getRandomIndices] asked for too many indices, or none *)

Lemma indices_at_most (k : Z) (indices : list Z) :
  0 <= k -> NoDup indices -> Forall (fun i => 0 <= i < k) indices ->
  Z.of_nat (length indices) <= k.
Proof.
  intros Hk Hnd Hin.
  assert (Hincl : incl indices (map Z.of_nat (seq 0 (Z.to_nat k)))).
  { intros i Hi. rewrite Forall_forall in Hin. specialize (Hin i Hi).
    apply in_map_iff. exists (Z.to_nat i). split; [lia|].
    apply in_seq. lia. }
  apply (NoDup_incl_length Hnd) in Hincl.
  rewrite length_map, length_seq in Hincl. lia.
Qed.

Lemma getRandomIndices_loop_above (k degree : Z) (draws : list float) :
  1 <= k < 2 ^ 53 -> k < degree -> Forall unit_draw draws ->
  forall indices,
    NoDup indices -> Forall (fun i => 0 <= i < k) indices ->
    getRandomIndices_loop k degree indices draws = Pending.
Proof.
  intros Hk Hdeg Hdraws.
  induction Hdraws as [|r draws Hr _ IH]; intros indices Hnd Hin;
    pose proof (indices_at_most k indices ltac:(lia) Hnd Hin) as Hle;
    cbn [getRandomIndices_loop];
    destruct (Z.ltb_spec (Z.of_nat (length indices)) degree) as [_|Hge];
    try lia.
  - reflexivity.
  - fold (randomIndex k r). apply IH.
    + now apply Set_add_NoDup.
    + apply Forall_forall. intros i Hi. apply Set_add_In in Hi.
      destruct Hi as [->|Hi].
      * now apply random_index_range.
      * rewrite Forall_forall in Hin. now apply Hin.
Qed.

(** X12: asked for more indices than there are slices, [getRandomIndices]
    never returns, whatever it draws: the set cannot grow beyond [k]. Asked
    for none, it returns the empty list without a draw. *)
Theorem getRandomIndices_degree_out_of_range (k degree : Z) (draws : list float) :
  1 <= k < 2 ^ 53 ->
  Forall unit_draw draws ->
  (k < degree -> getRandomIndices k degree draws = Pending)
  /\ (degree <= 0 -> getRandomIndices k degree draws = Ok ([], draws)).
Proof.
  intros Hk Hdraws. split.
  - intros Hdeg. apply getRandomIndices_loop_above; try assumption; constructor.
  - intros Hdeg. unfold getRandomIndices.
    destruct draws; cbn [getRandomIndices_loop length Z.of_nat];
      destruct (Z.ltb_spec 0 degree); (lia || reflexivity).
Qed.

Lemma getRandomIndices_degree_out_of_range_witness :
  (3 < 4 -> getRandomIndices 3 4 [0.5; 0.75; 0.25; 0.125]%float = Pending)
  /\ (4 <= 0 -> getRandomIndices 3 4 [0.5; 0.75; 0.25; 0.125]%float
                = Ok ([], [0.5; 0.75; 0.25; 0.125]%float)).
Proof.
  apply (getRandomIndices_degree_out_of_range 3 4 [0.5; 0.75; 0.25; 0.125]%float).
  - vm_compute. split; congruence.
  - repeat constructor.
Defined.

(** ** The checksum *)

Lemma ToInt32_range (x : Z) : - 2 ^ 31 <= JS.ToInt32 x < 2 ^ 31.
Proof.
  unfold JS.ToInt32.
  pose proof (Z.mod_pos_bound (x + 2 ^ 31) (2 ^ 32) ltac:(lia)). lia.
Qed.

Lemma lxor_int32 (a b : Z) :
  - 2 ^ 31 <= a < 2 ^ 31 -> - 2 ^ 31 <= b < 2 ^ 31 ->
  - 2 ^ 31 <= Z.lxor a b < 2 ^ 31.
Proof.
  intros Ha Hb.
  assert (Hpos : forall u v, 0 <= u < 2 ^ 31 -> 0 <= v < 2 ^ 31 ->
            0 <= Z.lxor u v < 2 ^ 31)
    by (intros u v Hu Hv; apply lxor_bound; lia).
  destruct (Z.neg_nonneg_cases a) as [Han|Hap];
    destruct (Z.neg_nonneg_cases b) as [Hbn|Hbp].
  - replace a with (Z.lnot (Z.lnot a)) by apply Z.lnot_involutive.
    replace b with (Z.lnot (Z.lnot b)) by apply Z.lnot_involutive.
    rewrite Z.lxor_lnot_lnot.
    pose proof (Hpos (Z.lnot a) (Z.lnot b)) as H. unfold Z.lnot in *.
    rewrite <- !Z.sub_1_r in *. lia.
  - replace a with (Z.lnot (Z.lnot a)) by apply Z.lnot_involutive.
    rewrite <- Z.lnot_lxor_l.
    pose proof (Hpos (Z.lnot a) b) as H. unfold Z.lnot in *.
    rewrite <- !Z.sub_1_r in *. lia.
  - replace b with (Z.lnot (Z.lnot b)) by apply Z.lnot_involutive.
    rewrite <- Z.lnot_lxor_r.
    pose proof (Hpos a (Z.lnot b)) as H. unfold Z.lnot in *.
    rewrite <- !Z.sub_1_r in *. lia.
  - pose proof (Hpos a b). lia.
Qed.

(** X13: [getChecksum] returns the int32 whose bits are those of
    [crc32(data) XOR k]: it lies in [-2^31, 2^31), it is that number modulo
    2^32, and for [k] below 2^31 it is negative exactly when the CRC-32 has
    its top bit set. *)
Theorem getChecksum_int32 (data : list Z) (k : Z) :
  - 2 ^ 31 <= getChecksum data k < 2 ^ 31
  /\ JS.ToUint32 (getChecksum data k) = Z.lxor (crc32 data) (JS.ToUint32 k)
  /\ (0 <= k < 2 ^ 31 -> (getChecksum data k < 0 <-> 2 ^ 31 <= crc32 data)).
Proof.
  split; [|split].
  - unfold getChecksum, JS.xor. apply lxor_int32; apply ToInt32_range.
  - unfold getChecksum. rewrite ToUint32_xor.
    now rewrite (ToUint32_id (crc32 data)) by apply crc32_range.
  - intros Hk. pose proof (crc32_range data) as Hc. unfold uint32 in Hc.
    unfold getChecksum, JS.xor. rewrite (ToInt32_small k) by exact Hk.
    destruct (Z_lt_le_dec (crc32 data) (2 ^ 31)) as [Hlo|Hhi].
    + rewrite ToInt32_small by lia. split; [|lia].
      intros Hneg. exfalso.
      assert (0 <= Z.lxor (crc32 data) k) by (apply Z.lxor_nonneg; lia). lia.
    + split; [lia|]. intros _.
      assert (Hneg : JS.ToInt32 (crc32 data) < 0).
      { unfold JS.ToInt32. change (2 ^ 31) with 2147483648 in *.
        change (2 ^ 32) with 4294967296 in *.
        replace (crc32 data + 2147483648)
          with (crc32 data - 2147483648 + 1 * 4294967296) by lia.
        rewrite Z.mod_add, Z.mod_small by lia. lia. }
      apply Z.nle_gt. intros Hge. apply Z.lxor_nonneg in Hge. lia.
Qed.

(** *** The register, bit by bit *)

Lemma crc32_bit_range (c : Z) : uint32 c -> uint32 (crc32_bit c).
Proof.
  unfold uint32, crc32_bit. intros Hc.
  assert (Hs : 0 <= Z.shiftr c 1 < 2 ^ 31).
  { rewrite Z.shiftr_div_pow2 by lia. change (2 ^ 1) with 2.
    change (2 ^ 31) with 2147483648. change (2 ^ 32) with 4294967296 in Hc.
    split; [apply Z.div_pos; lia|apply Z.div_lt_upper_bound; lia]. }
  destruct (Z.odd c).
  - apply lxor_bound; [lia| |vm_compute; split; congruence].
    change (2 ^ 32) with 4294967296. change (2 ^ 31) with 2147483648 in Hs. lia.
  - change (2 ^ 32) with 4294967296. change (2 ^ 31) with 2147483648 in Hs. lia.
Qed.

Lemma crc32_bit_top (c : Z) : uint32 c -> Z.testbit (crc32_bit c) 31 = Z.odd c.
Proof.
  unfold uint32, crc32_bit. intros Hc.
  assert (Hs : Z.testbit (Z.shiftr c 1) 31 = false).
  { rewrite Z.shiftr_spec by lia. change (31 + 1) with 32.
    apply Z.testbit_false; [lia|]. rewrite Z.div_small by exact Hc. reflexivity. }
  destruct (Z.odd c).
  - rewrite Z.lxor_spec, Hs. reflexivity.
  - exact Hs.
Qed.

Lemma crc32_bit_inj (c c' : Z) :
  uint32 c -> uint32 c' -> crc32_bit c = crc32_bit c' -> c = c'.
Proof.
  intros Hc Hc' E.
  assert (Hodd : Z.odd c = Z.odd c')
    by (rewrite <- (crc32_bit_top c Hc), <- (crc32_bit_top c' Hc'); now rewrite E).
  unfold crc32_bit in E. rewrite <- Hodd in E.
  assert (Hs : Z.shiftr c 1 = Z.shiftr c' 1).
  { destruct (Z.odd c); [|exact E].
    apply (f_equal (fun z => Z.lxor z 0xEDB88320)) in E.
    now rewrite !Z.lxor_assoc, Z.lxor_nilpotent, !Z.lxor_0_r in E. }
  rewrite !Z.shiftr_div_pow2 in Hs by lia. change (2 ^ 1) with 2 in Hs.
  rewrite (Z.div_mod c 2), (Z.div_mod c' 2) by lia.
  rewrite Hs. f_equal.
  rewrite !Zmod_odd, Hodd. reflexivity.
Qed.

Lemma crc32_bit_iter_range (n : nat) (c : Z) :
  uint32 c -> uint32 (Nat.iter n crc32_bit c).
Proof.
  intros Hc. induction n as [|n IH]; [exact Hc|].
  simpl. now apply crc32_bit_range.
Qed.

Lemma crc32_bit_iter_inj (n : nat) (c c' : Z) :
  uint32 c -> uint32 c' ->
  Nat.iter n crc32_bit c = Nat.iter n crc32_bit c' -> c = c'.
Proof.
  intros Hc Hc'. induction n as [|n IH]; intros E; [exact E|].
  simpl in E. apply crc32_bit_inj in E; try (now apply crc32_bit_iter_range).
  now apply IH.
Qed.

Lemma lxor_byte_uint32 (c b : Z) :
  uint32 c -> 0 <= b < 256 -> uint32 (Z.lxor c b).
Proof.
  unfold uint32. intros Hc Hb. apply lxor_bound; [lia|exact Hc|].
  change (2 ^ 32) with 4294967296. lia.
Qed.

Lemma crc32_byte_range (c b : Z) :
  uint32 c -> 0 <= b < 256 -> uint32 (crc32_byte c b).
Proof.
  intros Hc Hb. unfold crc32_byte.
  now apply crc32_bit_iter_range, lxor_byte_uint32.
Qed.

Lemma crc32_byte_inj (c c' b b' : Z) :
  uint32 c -> uint32 c' -> 0 <= b < 256 -> 0 <= b' < 256 ->
  crc32_byte c b = crc32_byte c' b' -> Z.lxor c b = Z.lxor c' b'.
Proof.
  intros Hc Hc' Hb Hb' E. unfold crc32_byte in E.
  apply crc32_bit_iter_inj in E; try (now apply lxor_byte_uint32). exact E.
Qed.

Lemma crc32_fold_range (buf : list Z) :
  bytes_ok buf -> forall c, uint32 c -> uint32 (fold_left crc32_byte buf c).
Proof.
  induction 1 as [|b buf Hb _ IH]; intros c Hc; simpl.
  - exact Hc.
  - now apply IH, crc32_byte_range.
Qed.

Lemma crc32_fold_inj (buf : list Z) :
  bytes_ok buf ->
  forall c c', uint32 c -> uint32 c' ->
    fold_left crc32_byte buf c = fold_left crc32_byte buf c' -> c = c'.
Proof.
  induction 1 as [|b buf Hb _ IH]; intros c c' Hc Hc' E; simpl in E.
  - exact E.
  - apply IH in E; try (now apply crc32_byte_range).
    apply crc32_byte_inj in E; try assumption.
    apply (f_equal (fun z => Z.lxor z b)) in E.
    now rewrite !Z.lxor_assoc, Z.lxor_nilpotent, !Z.lxor_0_r in E.
Qed.

Lemma ToInt32_inj (x y : Z) :
  uint32 x -> uint32 y -> JS.ToInt32 x = JS.ToInt32 y -> x = y.
Proof.
  intros Hx Hy E.
  apply (f_equal JS.ToUint32) in E. rewrite !ToUint32_ToInt32 in E.
  now rewrite !ToUint32_id in E.
Qed.

(** X14: a change confined to one byte of the data always changes the
    CRC-32, and with it the checksum for any [k]. *)
Theorem crc32_detects_byte_change (a b : list Z) (x y : Z) :
  bytes_ok a -> bytes_ok b ->
  0 <= x < 256 -> 0 <= y < 256 -> x <> y ->
  crc32 (a ++ x :: b) <> crc32 (a ++ y :: b)
  /\ forall k, getChecksum (a ++ x :: b) k <> getChecksum (a ++ y :: b) k.
Proof.
  intros Ha Hb Hx Hy Hxy.
  assert (Hreg : forall buf, bytes_ok buf ->
            crc32 buf = Z.lxor (fold_left crc32_byte buf 0xFFFFFFFF) 0xFFFFFFFF).
  { intros buf Hok. unfold crc32, JS.ushr.
    change (0 mod 32) with 0. rewrite Z.shiftr_0_r.
    now rewrite ToUint32_xor, crc32_fold_spec by exact Hok. }
  assert (Hax : bytes_ok (a ++ x :: b))
    by (apply Forall_app; split; [exact Ha|now constructor]).
  assert (Hay : bytes_ok (a ++ y :: b))
    by (apply Forall_app; split; [exact Ha|now constructor]).
  assert (Hne : crc32 (a ++ x :: b) <> crc32 (a ++ y :: b)).
  { rewrite !Hreg by assumption. intros E.
    apply (f_equal (fun z => Z.lxor z 0xFFFFFFFF)) in E.
    rewrite !Z.lxor_assoc, Z.lxor_nilpotent, !Z.lxor_0_r in E.
    rewrite !fold_left_app in E. cbn [fold_left] in E.
    set (c := fold_left crc32_byte a 0xFFFFFFFF) in *.
    assert (Hc : uint32 c).
    { apply crc32_fold_range; [exact Ha|]. vm_compute. split; congruence. }
    apply crc32_fold_inj in E; try assumption;
      try (now apply crc32_byte_range).
    apply crc32_byte_inj in E; try assumption.
    apply Hxy.
    apply (f_equal (Z.lxor c)) in E.
    now rewrite <- !Z.lxor_assoc, Z.lxor_nilpotent, !Z.lxor_0_l in E. }
  split; [exact Hne|].
  intros k E. apply Hne. unfold getChecksum, JS.xor in E.
  apply (f_equal (fun z => Z.lxor z (JS.ToInt32 k))) in E.
  rewrite !Z.lxor_assoc, Z.lxor_nilpotent, !Z.lxor_0_r in E.
  apply ToInt32_inj in E; [exact E| |]; apply crc32_range.
Qed.

Lemma crc32_detects_byte_change_witness :
  crc32 ([1; 2] ++ 3 :: [4]) <> crc32 ([1; 2] ++ 7 :: [4])
  /\ forall k, getChecksum ([1; 2] ++ 3 :: [4]) k <> getChecksum ([1; 2] ++ 7 :: [4]) k.
Proof.
  apply (crc32_detects_byte_change [1; 2] [4] 3 7);
    try (repeat constructor; lia); lia.
Defined.

(** The CRC-32 of the test sentence, by the table and bit by bit. *)
Lemma crc32_is_ieee_witness : crc32 fox = crc32_ieee fox.
Proof.
  apply (crc32_is_ieee fox). unfold fox. repeat constructor; lia.
Defined.

(** ** A block of an encoder through the codec *)

(** X15: on a big-endian host a block that an encoder makes comes back from
    the codec as it is but for the checksum, which comes back as the uint32
    [crc32(data) XOR k] of the payload. *)
Theorem encoder_block_roundtrip (deflate : list Z -> list Z) (data : list Z)
    (sliceSize : nat) (compress : bool) (indices : list Z) :
  let this := encoder_of deflate data sliceSize compress in
  (1 <= sliceSize)%nat ->
  bytes_ok (LtEncoder.compressed this) ->
  LtEncoder.bytes this < 2 ^ 32 ->
  Forall (fun i => 0 <= i < LtEncoder.k this) indices ->
  Z.of_nat (length indices) < 2 ^ 32 ->
  exists block binary,
    createBlock this indices = Ok (block, this)
    /\ blockToBinary BigEndian block = Ok binary
    /\ binaryToBlock (U8.fresh binary)
       = Ok (Block.mk (Block.k block) (Block.bytes block)
               (Z.lxor (crc32 data) (LtEncoder.k this))
               (Block.indices block) (Block.data block)).
Proof.
  intros this Hs Hok Hbytes Hind Hlen.
  assert (Hwf : encoder_ok this) by now apply encoder_of_ok.
  rewrite createBlock_spec by assumption.
  set (block := Block.mk (LtEncoder.k this) (LtEncoder.bytes this)
                  (LtEncoder.checksum this) indices
                  (xor_slices (LtEncoder.sliceSize this)
                     (map (slice_of this) indices))).
  assert (Hdata : bytes_ok (Block.data block)).
  { destruct (slices_named_ok this indices Hwf Hind) as [_ Hoks].
    unfold block. cbn [Block.data]. unfold xor_slices.
    apply fold_xor_bytes_ok; [exact Hoks|apply repeat_zero_ok]. }
  destruct (roundtrip_big_endian _ (uint32_block_representable block Hdata Hlen))
    as [binary [Henc Hdec]].
  rewrite blockToBinary_uint32_block in Henc.
  exists block, binary. split; [reflexivity|]. split; [exact Henc|].
  rewrite Hdec. unfold block, uint32_block.
  cbn [Block.k Block.bytes Block.checksum Block.indices Block.data].
  assert (Hk : 0 <= LtEncoder.k this <= LtEncoder.bytes this).
  { unfold this, encoder_of. cbn [LtEncoder.k LtEncoder.bytes].
    pose proof (ceil_div_le
                  (length (if compress then deflate data else data)) sliceSize Hs).
    lia. }
  assert (Hku : uint32 (LtEncoder.k this)) by (unfold uint32; lia).
  assert (Hbu : uint32 (LtEncoder.bytes this)) by (unfold uint32; lia).
  rewrite (ToUint32_id _ Hku), (ToUint32_id _ Hbu).
  assert (Hc : JS.ToUint32 (LtEncoder.checksum this)
               = Z.lxor (crc32 data) (LtEncoder.k this)).
  { change (LtEncoder.checksum this) with (getChecksum data (LtEncoder.k this)).
    rewrite getChecksum_mod. now rewrite (ToUint32_id _ Hku). }
  rewrite Hc. do 2 f_equal.
  clear - Hind Hku. induction Hind as [|i l Hi _ IH]; simpl.
  - reflexivity.
  - rewrite IH. f_equal. apply ToUint32_id. unfold uint32 in *. lia.
Qed.

Lemma encoder_block_roundtrip_witness :
  exists block binary,
    createBlock encoder_seven [2; 0] = Ok (block, encoder_seven)
    /\ blockToBinary BigEndian block = Ok binary
    /\ binaryToBlock (U8.fresh binary)
       = Ok (Block.mk (Block.k block) (Block.bytes block)
               (Z.lxor (crc32 [1; 2; 3; 4; 5; 6; 7]) (LtEncoder.k encoder_seven))
               (Block.indices block) (Block.data block)).
Proof.
  apply (encoder_block_roundtrip (fun data => data) [1; 2; 3; 4; 5; 6; 7] 3 false
           [2; 0]).
  - lia.
  - repeat constructor; lia.
  - vm_compute. reflexivity.
  - repeat constructor; vm_compute; congruence.
  - vm_compute. reflexivity.
Defined.
(** ** [binaryToBase64] *)

Lemma list_ind3 {A : Type} (P : list A -> Prop) :
  P [] -> (forall a, P [a]) -> (forall a b, P [a; b]) ->
  (forall a b c l, P l -> P (a :: b :: c :: l)) ->
  forall l, P l.
Proof.
  intros H0 H1 H2 H3.
  fix IH 1. intros [|a [|b [|c l]]]; [exact H0|apply H1|apply H2|].
  apply H3, IH.
Qed.

Lemma lor_mul_add (a b n : Z) :
  0 <= n -> 0 <= b < 2 ^ n -> Z.lor (a * 2 ^ n) b = a * 2 ^ n + b.
Proof.
  intros Hn Hb. rewrite <- Z.add_lor_land.
  replace (Z.land (a * 2 ^ n) b) with 0; [lia|].
  symmetry. rewrite <- Z.shiftl_mul_pow2 by exact Hn.
  apply Z.bits_inj'. intros m Hm.
  rewrite Z.land_spec, Z.bits_0.
  destruct (Z.lt_ge_cases m n) as [Hlt|Hge].
  - now rewrite Z.shiftl_spec_low.
  - replace (Z.testbit b m) with false; [apply andb_false_r|].
    symmetry. apply Z.testbit_false; [exact Hm|].
    rewrite Z.div_small; [reflexivity|].
    split; [lia|]. apply Z.lt_le_trans with (2 ^ n); [lia|].
    apply Z.pow_le_mono_r; lia.
Qed.

(** The triplet of the code is the 24-bit number of the three bytes. *)
Lemma triplet_spec (b1 b2 b3 : Z) :
  0 <= b1 < 256 -> 0 <= b2 < 256 -> 0 <= b3 < 256 ->
  Int32.or (Int32.or (Int32.shl b1 16) (Int32.shl b2 8)) b3 = group24 b1 b2 b3.
Proof.
  intros H1 H2 H3. unfold Int32.or, Int32.shl, group24.
  change (16 mod 32) with 16. change (8 mod 32) with 8.
  rewrite (ToInt32_small b1), (ToInt32_small b2), (ToInt32_small b3) by lia.
  rewrite !Z.shiftl_mul_pow2 by lia.
  assert (Hx : 0 <= b1 * 2 ^ 16 < 2 ^ 31) by lia.
  assert (Hy : 0 <= b2 * 2 ^ 8 < 2 ^ 16) by lia.
  rewrite !(ToInt32_small (b1 * 2 ^ 16)) by exact Hx.
  rewrite !(ToInt32_small (b2 * 2 ^ 8)) by lia.
  rewrite (lor_mul_add b1 (b2 * 2 ^ 8) 16) by lia.
  rewrite ToInt32_small by lia.
  replace (b1 * 2 ^ 16 + b2 * 2 ^ 8) with ((b1 * 2 ^ 8 + b2) * 2 ^ 8) by lia.
  apply lor_mul_add; lia.
Qed.

Lemma group24_range (b1 b2 b3 : Z) :
  0 <= b1 < 256 -> 0 <= b2 < 256 -> 0 <= b3 < 256 ->
  0 <= group24 b1 b2 b3 < 2 ^ 24.
Proof.
  unfold group24. change (2 ^ 16) with 65536. change (2 ^ 8) with 256.
  change (2 ^ 24) with 16777216. lia.
Qed.

Lemma sextet_range (t j : Z) : 0 <= sextet t j < 64.
Proof. unfold sextet. apply Z.mod_pos_bound. lia. Qed.

(** The shifts and masks of the code give the 6-bit parts. *)
Lemma sextet_spec (t : Z) :
  0 <= t < 2 ^ 24 ->
  JS.and (Int32.sar t 18) 0x3F = sextet t 0
  /\ JS.and (Int32.sar t 12) 0x3F = sextet t 1
  /\ JS.and (Int32.sar t 6) 0x3F = sextet t 2
  /\ JS.and t 0x3F = sextet t 3.
Proof.
  intros Ht. change (2 ^ 24) with 16777216 in Ht.
  assert (Hmask : forall x, 0 <= x < 2 ^ 31 -> JS.and x 0x3F = x mod 64).
  { intros x Hx. unfold JS.and. rewrite (ToInt32_small x) by exact Hx.
    change (JS.ToInt32 63) with (Z.ones 6). now rewrite Z.land_ones by lia. }
  assert (Hshift : forall s, 0 <= s < 32 ->
            Int32.sar t s = t / 2 ^ s /\ 0 <= t / 2 ^ s < 2 ^ 31).
  { intros s Hs. unfold Int32.sar. rewrite (Z.mod_small s) by lia.
    rewrite ToInt32_small by (change (2 ^ 31) with 2147483648; lia).
    rewrite Z.shiftr_div_pow2 by lia. split; [reflexivity|].
    assert (0 < 2 ^ s) by (apply Z.pow_pos_nonneg; lia).
    split; [apply Z.div_pos; lia|].
    apply Z.le_lt_trans with t; [|change (2 ^ 31) with 2147483648; lia].
    apply Z.div_le_upper_bound; nia. }
  unfold sextet. change (18 - 6 * 0) with 18. change (18 - 6 * 1) with 12.
  change (18 - 6 * 2) with 6. change (18 - 6 * 3) with 0.
  destruct (Hshift 18 ltac:(lia)) as [-> H18].
  destruct (Hshift 12 ltac:(lia)) as [-> H12].
  destruct (Hshift 6 ltac:(lia)) as [-> H6].
  rewrite !Hmask by (assumption || (change (2 ^ 31) with 2147483648; lia)).
  change (2 ^ 0) with 1. rewrite Z.div_1_r. repeat split.
Qed.

Lemma String_at_chars (n : Z) :
  0 <= n < 64 -> String_at chars n = [base64_char n].
Proof.
  intros Hn. unfold String_at, base64_char.
  destruct (Z.ltb_spec n 0) as [|_]; [lia|].
  assert (Hlen : (Z.to_nat n < length chars)%nat)
    by (change (length chars) with 64%nat; lia).
  destruct (nth_error chars (Z.to_nat n)) as [c|] eqn:E.
  - now rewrite (nth_error_nth _ _ _ E).
  - apply nth_error_None in E. lia.
Qed.

Lemma or_zero_byte (b : Z) : or_zero (Some b) = b.
Proof. unfold or_zero. destruct (Z.eqb_spec b 0); congruence. Qed.

(** One pass of the loop appends the characters of the group at [i]. *)
Lemma base64_pass_spec (binary : list Z) (i : nat) (base64 : JSString) :
  bytes_ok binary -> (i < length binary)%nat ->
  base64_pass binary (i, base64)
  = ((i + 3)%nat, base64 ++ base64_group (skipn i binary)).
Proof.
  intros Hok Hi.
  assert (Hnth : forall j, nth_error binary (i + j) = nth_error (skipn i binary) j).
  { intros j. rewrite <- (firstn_skipn i binary) at 1.
    rewrite nth_error_app2; rewrite length_firstn; [|lia]. f_equal. lia. }
  assert (Hlen : length binary = (i + length (skipn i binary))%nat)
    by (rewrite length_skipn; lia).
  pose proof (bytes_ok_skipn i binary Hok) as Hl. unfold bytes_ok in Hl.
  unfold base64_pass. cbn [fst snd].
  replace (S i) with (i + 1)%nat by lia.
  replace (S (i + 1)) with (i + 2)%nat by lia.
  replace (S (i + 2)) with (i + 3)%nat by lia.
  assert (H0 : nth_error binary i = nth_error (skipn i binary) 0)
    by (rewrite <- Hnth; f_equal; lia).
  rewrite H0, !Hnth, Hlen. clear H0 Hnth.
  destruct (skipn i binary) as [|b1 [|b2 [|b3 rest]]];
    [simpl in Hlen; lia| | |];
    repeat match goal with
           | H : Forall _ (_ :: _) |- _ =>
               let Hb := fresh "Hb" in
               let Hr := fresh "Hr" in
               inversion H as [|? ? Hb Hr]; subst; clear H
           end;
    cbn [nth_error length]; rewrite ?or_zero_byte; cbn [or_zero].
  - rewrite triplet_spec by lia.
    destruct (sextet_spec (group24 b1 0 0)) as [-> [-> [_ _]]];
      [apply group24_range; lia|].
    rewrite !String_at_chars by apply sextet_range.
    destruct (Nat.ltb_spec (i + 1 + 1) (i + 3)); [|lia].
    destruct (Nat.ltb_spec (i + 1) (i + 3)); [|lia].
    cbn [base64_group]. rewrite <- !app_assoc. reflexivity.
  - rewrite triplet_spec by lia.
    destruct (sextet_spec (group24 b1 b2 0)) as [-> [-> [-> _]]];
      [apply group24_range; lia|].
    rewrite !String_at_chars by apply sextet_range.
    destruct (Nat.ltb_spec (i + 2 + 1) (i + 3)); [lia|].
    destruct (Nat.ltb_spec (i + 2) (i + 3)); [|lia].
    cbn [base64_group]. rewrite <- !app_assoc. reflexivity.
  - rewrite triplet_spec by lia.
    destruct (sextet_spec (group24 b1 b2 b3)) as [-> [-> [-> ->]]];
      [apply group24_range; lia|].
    rewrite !String_at_chars by apply sextet_range.
    destruct (Nat.ltb_spec (i + S (S (S (length rest))) + 1) (i + 3)); [lia|].
    destruct (Nat.ltb_spec (i + S (S (S (length rest)))) (i + 3)); [lia|].
    cbn [base64_group]. rewrite <- !app_assoc. reflexivity.
Qed.

Lemma base64_rfc_unfold (l : list Z) :
  base64_rfc l = base64_group l ++ base64_rfc (skipn 3 l).
Proof.
  destruct l as [|b1 [|b2 [|b3 rest]]]; cbn [base64_rfc skipn base64_group];
    rewrite ?app_nil_r; reflexivity.
Qed.

Lemma binaryToBase64_loop_spec (binary : list Z) :
  bytes_ok binary ->
  forall passes i base64,
    (length binary <= i + 3 * passes)%nat ->
    binaryToBase64_loop passes binary (i, base64)
    = base64 ++ base64_rfc (skipn i binary).
Proof.
  intros Hok. induction passes as [|passes IH]; intros i base64 Hfuel.
  - cbn [binaryToBase64_loop fst snd].
    destruct (Nat.ltb_spec i (length binary)); [lia|].
    rewrite skipn_all2 by lia. cbn. now rewrite app_nil_r.
  - cbn [binaryToBase64_loop fst snd].
    destruct (Nat.ltb_spec i (length binary)) as [Hi|Hi].
    + rewrite base64_pass_spec by assumption.
      rewrite IH by lia. rewrite <- app_assoc. f_equal.
      rewrite (base64_rfc_unfold (skipn i binary)). f_equal.
      rewrite skipn_skipn. f_equal. f_equal. lia.
    + rewrite skipn_all2 by lia. cbn. now rewrite app_nil_r.
Qed.

(** X16: [binaryToBase64] is Base64 with padding as RFC 4648 defines it. *)
Theorem binaryToBase64_rfc (binary : list Z) :
  bytes_ok binary -> binaryToBase64 binary = base64_rfc binary.
Proof.
  intros Hok. unfold binaryToBase64.
  rewrite binaryToBase64_loop_spec by (assumption || lia).
  reflexivity.
Qed.

Ltac base64_unfold :=
  unfold binaryToBase64;
  rewrite binaryToBase64_loop_spec by (assumption || lia);
  cbn [skipn app].

Lemma forallb_below (f : nat -> bool) (n : nat) :
  forallb f (seq 0 n) = true -> forall i, (i < n)%nat -> f i = true.
Proof.
  intros H i Hi. rewrite forallb_forall in H. apply H, in_seq. lia.
Qed.

Lemma base64_char_index (n : Z) :
  0 <= n < 64 -> base64_index (base64_char n) = Some (Z.to_nat n).
Proof.
  intros Hn.
  assert (H : forallb
                (fun i => match base64_index (nth i chars 0) with
                          | Some j => (j =? i)%nat
                          | None => false
                          end) (seq 0 64) = true) by (vm_compute; reflexivity).
  pose proof (forallb_below _ _ H (Z.to_nat n) ltac:(lia)) as Hi.
  cbv beta in Hi. unfold base64_char.
  destruct (base64_index (nth (Z.to_nat n) chars 0)) as [j|]; [|discriminate].
  apply Nat.eqb_eq in Hi. now subst.
Qed.

Lemma base64_char_inj (n m : Z) :
  0 <= n < 64 -> 0 <= m < 64 -> base64_char n = base64_char m -> n = m.
Proof.
  intros Hn Hm E. apply (f_equal base64_index) in E.
  rewrite !base64_char_index in E by assumption.
  injection E as E. lia.
Qed.

Lemma base64_char_in (n : Z) : 0 <= n < 64 -> In (base64_char n) chars.
Proof.
  intros Hn. unfold base64_char. apply nth_In.
  change (length chars) with 64%nat. lia.
Qed.

Lemma base64_index_pad : base64_index pad_char = None.
Proof. vm_compute. reflexivity. Qed.

Lemma base64_char_not_pad (n : Z) : 0 <= n < 64 -> base64_char n <> pad_char.
Proof.
  intros Hn E. apply (f_equal base64_index) in E.
  rewrite base64_char_index, base64_index_pad in E by exact Hn. discriminate.
Qed.

Lemma ceil_div_3 (n : nat) : ceil_div (S (S (S n))) 3 = S (ceil_div n 3).
Proof.
  unfold ceil_div.
  replace (S (S (S n)) + 3 - 1)%nat with (n + 3 - 1 + 1 * 3)%nat by lia.
  rewrite Nat.div_add by lia. lia.
Qed.

Lemma pad_count_3 (n : nat) : pad_count (S (S (S n))) = pad_count n.
Proof.
  unfold pad_count.
  replace (S (S (S n))) with (n + 1 * 3)%nat by lia.
  now rewrite Nat.Div0.mod_add.
Qed.

Ltac in_alphabet :=
  repeat (apply Forall_cons; [apply base64_char_in, sextet_range|]);
  try apply Forall_nil.

Lemma base64_rfc_shape (l : list Z) :
  length (base64_rfc l) = (4 * ceil_div (length l) 3)%nat
  /\ exists body,
       base64_rfc l = body ++ repeat pad_char (pad_count (length l))
       /\ Forall (fun c => In c chars) body
       /\ length body = (4 * ceil_div (length l) 3 - pad_count (length l))%nat.
Proof.
  induction l as [|b1|b1 b2|b1 b2 b3 l [IHlen [body [IHeq [IHin IHbody]]]]]
    using list_ind3.
  - split; [reflexivity|]. exists []. repeat split. constructor.
  - split; [reflexivity|]. eexists [_; _].
    split; [reflexivity|]. split; [|reflexivity].
    in_alphabet.
  - split; [reflexivity|]. eexists [_; _; _].
    split; [reflexivity|]. split; [|reflexivity].
    in_alphabet.
  - cbn [base64_rfc length]. rewrite ceil_div_3, pad_count_3. split.
    + rewrite length_app, IHlen. cbn [base64_group length]. lia.
    + eexists (base64_group (b1 :: b2 :: b3 :: l) ++ body).
      rewrite IHeq, app_assoc. split; [reflexivity|]. split.
      * apply Forall_app. split; [|exact IHin].
        in_alphabet.
      * rewrite length_app, IHbody. cbn [base64_group length].
        assert (pad_count (length l) <= 2)%nat.
        { unfold pad_count. destruct (length l mod 3)%nat as [|[|[|?]]]; lia. }
        assert (Hc : (length l = 0 \/ 1 <= ceil_div (length l) 3)%nat).
        { destruct l as [|x l]; [now left|right].
          apply (ceil_div_spec _ 3 0); simpl; lia. }
        destruct Hc as [Hz|Hc]; [rewrite Hz; vm_compute; reflexivity|lia].
Qed.

(** X17: the Base64 of [n] bytes has [4 ceil(n / 3)] characters: characters of
    the alphabet followed by two [=] when [n] is 1 modulo 3, by one when it
    is 2, by none when it is 0. *)
Theorem binaryToBase64_shape (binary : list Z) :
  bytes_ok binary ->
  length (binaryToBase64 binary) = (4 * ceil_div (length binary) 3)%nat
  /\ exists body,
       binaryToBase64 binary
       = body ++ repeat pad_char (pad_count (length binary))
       /\ Forall (fun c => In c chars) body
       /\ length body
          = (4 * ceil_div (length binary) 3 - pad_count (length binary))%nat.
Proof.
  intros Hok. base64_unfold. apply base64_rfc_shape.
Qed.

Lemma binaryToBase64_shape_witness :
  length (binaryToBase64 [77; 97]) = (4 * ceil_div (length [77; 97]) 3)%nat
  /\ exists body,
       binaryToBase64 [77; 97]
       = body ++ repeat pad_char (pad_count (length [77; 97]))
       /\ Forall (fun c => In c chars) body
       /\ length body
          = (4 * ceil_div (length [77; 97]) 3 - pad_count (length [77; 97]))%nat.
Proof.
  apply (binaryToBase64_shape [77; 97]). repeat constructor; lia.
Defined.

(** X18: Base64 of a sequence cut at a multiple of three bytes is the Base64
    of the parts, one after the other. *)
Theorem binaryToBase64_app (a b : list Z) :
  bytes_ok a -> bytes_ok b -> (length a mod 3 = 0)%nat ->
  binaryToBase64 (a ++ b) = binaryToBase64 a ++ binaryToBase64 b.
Proof.
  intros Ha Hb Hlen.
  assert (Hab : bytes_ok (a ++ b)) by (apply Forall_app; now split).
  unfold binaryToBase64.
  rewrite !binaryToBase64_loop_spec by (assumption || lia).
  cbn [skipn app]. clear Ha Hab.
  induction a as [|b1|b1 b2|b1 b2 b3 a IH] using list_ind3.
  - reflexivity.
  - discriminate Hlen.
  - discriminate Hlen.
  - cbn [app base64_rfc]. rewrite IH.
    + cbn [base64_group]. rewrite <- app_assoc. reflexivity.
    + cbn [length] in Hlen.
      replace (S (S (S (length a)))) with (length a + 1 * 3)%nat in Hlen by lia.
      now rewrite Nat.Div0.mod_add in Hlen.
Qed.

Lemma binaryToBase64_app_witness :
  binaryToBase64 ([77; 97; 110] ++ [77]) = binaryToBase64 [77; 97; 110] ++ binaryToBase64 [77].
Proof.
  apply (binaryToBase64_app [77; 97; 110] [77]).
  - repeat constructor; lia.
  - repeat constructor; lia.
  - reflexivity.
Defined.

(** *** Distinct byte sequences have distinct encodings *)

Lemma sextets_determine (t t' : Z) :
  0 <= t < 2 ^ 24 -> 0 <= t' < 2 ^ 24 ->
  sextet t 0 = sextet t' 0 -> sextet t 1 = sextet t' 1 ->
  sextet t 2 = sextet t' 2 -> sextet t 3 = sextet t' 3 ->
  t = t'.
Proof.
  unfold sextet. change (18 - 6 * 0) with 18. change (18 - 6 * 1) with 12.
  change (18 - 6 * 2) with 6. change (18 - 6 * 3) with 0.
  change (2 ^ 0) with 1. rewrite !Z.div_1_r.
  change (2 ^ 24) with 16777216. change (2 ^ 18) with 262144.
  change (2 ^ 12) with 4096. change (2 ^ 6) with 64.
  intros Ht Ht' E0 E1 E2 E3.
  Z.div_mod_to_equations. lia.
Qed.

Lemma group24_inj (b1 b2 b3 c1 c2 c3 : Z) :
  0 <= b1 < 256 -> 0 <= b2 < 256 -> 0 <= b3 < 256 ->
  0 <= c1 < 256 -> 0 <= c2 < 256 -> 0 <= c3 < 256 ->
  group24 b1 b2 b3 = group24 c1 c2 c3 -> b1 = c1 /\ b2 = c2 /\ b3 = c3.
Proof.
  unfold group24. change (2 ^ 16) with 65536. change (2 ^ 8) with 256. lia.
Qed.

Lemma sextet_low_zero (b1 b2 : Z) :
  0 <= b1 < 256 -> 0 <= b2 < 256 ->
  sextet (group24 b1 0 0) 2 = 0 /\ sextet (group24 b1 0 0) 3 = 0
  /\ sextet (group24 b1 b2 0) 3 = 0.
Proof.
  unfold sextet, group24. change (18 - 6 * 2) with 6. change (18 - 6 * 3) with 0.
  change (2 ^ 0) with 1. rewrite !Z.div_1_r.
  change (2 ^ 16) with 65536. change (2 ^ 8) with 256. change (2 ^ 6) with 64.
  intros H1 H2. Z.div_mod_to_equations. lia.
Qed.

Lemma group_chars_inj (b1 b2 b3 c1 c2 c3 : Z) :
  0 <= b1 < 256 -> 0 <= b2 < 256 -> 0 <= b3 < 256 ->
  0 <= c1 < 256 -> 0 <= c2 < 256 -> 0 <= c3 < 256 ->
  sextet (group24 b1 b2 b3) 0 = sextet (group24 c1 c2 c3) 0 ->
  sextet (group24 b1 b2 b3) 1 = sextet (group24 c1 c2 c3) 1 ->
  sextet (group24 b1 b2 b3) 2 = sextet (group24 c1 c2 c3) 2 ->
  sextet (group24 b1 b2 b3) 3 = sextet (group24 c1 c2 c3) 3 ->
  b1 = c1 /\ b2 = c2 /\ b3 = c3.
Proof.
  intros Hb1 Hb2 Hb3 Hc1 Hc2 Hc3 E0 E1 E2 E3.
  apply group24_inj; try assumption.
  apply sextets_determine; try assumption; now apply group24_range.
Qed.

Ltac char_eq H :=
  apply base64_char_inj in H; [|apply sextet_range|apply sextet_range].

Ltac char_pad :=
  exfalso;
  match goal with
  | H : pad_char = base64_char _ |- _ =>
      exact (base64_char_not_pad _ (sextet_range _ _) (eq_sym H))
  | H : base64_char _ = pad_char |- _ =>
      exact (base64_char_not_pad _ (sextet_range _ _) H)
  end.

Lemma base64_rfc_inj (a : list Z) :
  forall b, bytes_ok a -> bytes_ok b -> base64_rfc a = base64_rfc b -> a = b.
Proof.
  unfold bytes_ok.
  induction a as [|b1|b1 b2|b1 b2 b3 a IH] using list_ind3;
    intros [|c1 [|c2 [|c3 b]]] Ha Hb E;
    cbn [base64_rfc base64_group app] in E;
    try discriminate E; try reflexivity;
    repeat match goal with
           | H : Forall _ (_ :: _) |- _ =>
               let Hx := fresh "Hx" in
               let Hr := fresh "Hr" in
               inversion H as [|? ? Hx Hr]; subst; clear H
           end.
  - injection E as E0 E1. char_eq E0. char_eq E1.
    destruct (sextet_low_zero b1 0 ltac:(lia) ltac:(lia)) as [B2 [B3 _]].
    destruct (sextet_low_zero c1 0 ltac:(lia) ltac:(lia)) as [C2 [C3 _]].
    destruct (group_chars_inj b1 0 0 c1 0 0) as [-> _];
      try lia; try assumption; congruence.
  - injection E; intros. char_pad.
  - injection E; intros. char_pad.
  - injection E; intros. char_pad.
  - injection E as E0 E1 E2. char_eq E0. char_eq E1. char_eq E2.
    destruct (sextet_low_zero b1 b2 ltac:(lia) ltac:(lia)) as [_ [_ B3]].
    destruct (sextet_low_zero c1 c2 ltac:(lia) ltac:(lia)) as [_ [_ C3]].
    destruct (group_chars_inj b1 b2 0 c1 c2 0) as [-> [-> _]];
      try lia; try assumption; congruence.
  - injection E; intros. char_pad.
  - injection E; intros. char_pad.
  - injection E; intros. char_pad.
  - injection E as E0 E1 E2 E3 Erest.
    char_eq E0. char_eq E1. char_eq E2. char_eq E3.
    destruct (group_chars_inj b1 b2 b3 c1 c2 c3) as [-> [-> ->]];
      try assumption.
    do 3 f_equal. now apply IH.
Qed.

(** X19: [binaryToBase64] is injective: two byte sequences with the same
    Base64 are the same sequence. *)
Theorem binaryToBase64_injective (a b : list Z) :
  bytes_ok a -> bytes_ok b ->
  binaryToBase64 a = binaryToBase64 b -> a = b.
Proof.
  intros Ha Hb. unfold binaryToBase64.
  rewrite !binaryToBase64_loop_spec by (assumption || lia).
  cbn [skipn app]. now apply base64_rfc_inj.
Qed.

Lemma binaryToBase64_injective_witness : [77; 97] = [77; 97].
Proof.
  apply (binaryToBase64_injective [77; 97] [77; 97]).
  - repeat constructor; lia.
  - repeat constructor; lia.
  - reflexivity.
Defined.

Lemma binaryToBase64_rfc_witness :
  binaryToBase64 (str "foobar") = base64_rfc (str "foobar").
Proof.
  apply (binaryToBase64_rfc (str "foobar")).
  vm_compute. repeat constructor; congruence.
Defined.

(** The test vectors of RFC 4648. *)
Lemma binaryToBase64_test_vectors :
  binaryToBase64 (str "") = str ""
  /\ binaryToBase64 (str "f") = str "Zg=="
  /\ binaryToBase64 (str "fo") = str "Zm8="
  /\ binaryToBase64 (str "foo") = str "Zm9v"
  /\ binaryToBase64 (str "foob") = str "Zm9vYg=="
  /\ binaryToBase64 (str "fooba") = str "Zm9vYmE="
  /\ binaryToBase64 (str "foobar") = str "Zm9vYmFy".
Proof. repeat split; vm_compute; reflexivity. Qed.

(** ** [generateBlockQRCode] *)

(** X20: the QR code of a block is made by the library from the prefix
    followed by the Base64 of the binary form of the block,
    [4 ceil(((degree + 4) * 4 + length of the data) / 3)] characters, with a
    border of 5, level M, 256 by 256 and the default colours. *)
Theorem generateBlockQRCode_content (QRCode_svg : QRCode.options -> result JSString)
    (host : endianness) (block : Block.t) (prefix : JSString) :
  bytes_ok (Block.data block) ->
  exists binary,
    blockToBinary host block = Ok binary
    /\ generateBlockQRCode QRCode_svg host block prefix
       = QRCode_svg
           (QRCode.mk (prefix ++ binaryToBase64 binary) 5 256 256
              (str "#000000") (str "#ffffff") (str "M"))
    /\ length (prefix ++ binaryToBase64 binary)
       = (length prefix
          + 4 * ceil_div ((length (Block.indices block) + 4) * 4
                          + length (Block.data block)) 3)%nat.
Proof.
  intros Hdata. eexists. split; [apply blockToBinary_layout|].
  rewrite (map_ToUint8_id _ Hdata).
  set (binary := Uint32Array_buffer host (map JS.ToUint32 (header_words block))
                   ++ Block.data block).
  assert (Hok : bytes_ok binary)
    by (apply Forall_app; split; [apply Uint32Array_buffer_ok|exact Hdata]).
  split.
  - unfold generateBlockQRCode. rewrite blockToBinary_layout.
    rewrite (map_ToUint8_id _ Hdata). reflexivity.
  - rewrite length_app. f_equal.
    unfold binaryToBase64.
    rewrite binaryToBase64_loop_spec by (assumption || lia).
    cbn [skipn app].
    destruct (base64_rfc_shape binary) as [-> _]. do 2 f_equal.
    unfold binary.
    rewrite length_app, Uint32Array_buffer_length, length_map, header_words_length.
    reflexivity.
Qed.

Lemma generateBlockQRCode_content_witness :
  exists binary,
    blockToBinary LittleEndian block_one = Ok binary
    /\ generateBlockQRCode (fun options => Ok (QRCode.content options))
         LittleEndian block_one (str "qrs:")
       = Ok (QRCode.content
               (QRCode.mk (str "qrs:" ++ binaryToBase64 binary) 5 256 256
                  (str "#000000") (str "#ffffff") (str "M")))
    /\ length (str "qrs:" ++ binaryToBase64 binary)
       = (length (str "qrs:")
          + 4 * ceil_div ((length (Block.indices block_one) + 4) * 4
                          + length (Block.data block_one)) 3)%nat.
Proof.
  apply (generateBlockQRCode_content (fun options => Ok (QRCode.content options))
           LittleEndian block_one (str "qrs:")).
  repeat constructor; lia.
Defined.
(** ** file-handler.js: merging and splitting *)

Lemma ToInt32_int32 (x : Z) : - 2 ^ 31 <= x < 2 ^ 31 -> JS.ToInt32 x = x.
Proof.
  intros H. unfold JS.ToInt32. rewrite Z.mod_small; lia.
Qed.

Lemma ToInt32_shift (x : Z) : exists c, JS.ToInt32 x = x + c * 2 ^ 32.
Proof.
  unfold JS.ToInt32. exists (- ((x + 2 ^ 31) / 2 ^ 32)).
  rewrite Z.mod_eq by lia. lia.
Qed.

(** The byte of a number that a shift and the mask [0xFF] select. *)
Lemma byte_of (x s : Z) :
  0 <= s <= 24 ->
  JS.and (Int32.sar x s) 0xFF = (x / 2 ^ s) mod 256.
Proof.
  intros Hs. unfold JS.and, Int32.sar. rewrite (Z.mod_small s) by lia.
  pose proof (ToInt32_range x) as Hr.
  assert (Hp : 0 < 2 ^ s) by (apply Z.pow_pos_nonneg; lia).
  assert (Hy : - 2 ^ 31 <= Z.shiftr (JS.ToInt32 x) s < 2 ^ 31).
  { rewrite Z.shiftr_div_pow2 by lia. split.
    - apply Z.div_le_lower_bound; nia.
    - apply Z.div_lt_upper_bound; nia. }
  rewrite (ToInt32_int32 _ Hy).
  change (JS.ToInt32 255) with (Z.ones 8). rewrite Z.land_ones by lia.
  rewrite Z.shiftr_div_pow2 by lia.
  destruct (ToInt32_shift x) as [c ->].
  replace (2 ^ 32) with (2 ^ (32 - s) * 2 ^ s)
    by (rewrite <- Z.pow_add_r by lia; f_equal; lia).
  rewrite Z.mul_assoc, Z.div_add by lia.
  replace (2 ^ (32 - s)) with (2 ^ (24 - s) * 2 ^ 8)
    by (rewrite <- Z.pow_add_r by lia; f_equal; lia).
  rewrite Z.mul_assoc. change (2 ^ 8) with 256. now rewrite Z.mod_add by lia.
Qed.

Lemma byte_low (x : Z) : JS.and x 0xFF = x mod 256.
Proof.
  unfold JS.and. change (JS.ToInt32 255) with (Z.ones 8).
  rewrite Z.land_ones by lia.
  destruct (ToInt32_shift x) as [c ->].
  change (2 ^ 32) with (16777216 * 2 ^ 8). rewrite Z.mul_assoc.
  now rewrite Z.mod_add by lia.
Qed.

Lemma Uint8Array_store_at (front : list Z) (z v : Z) (back : list Z) :
  Uint8Array_store (front ++ z :: back) (length front) v
  = front ++ JS.ToUint8 v :: back.
Proof.
  induction front as [|x front IH]; simpl.
  - reflexivity.
  - now rewrite IH.
Qed.

Lemma Uint8Array_set_middle (front : list Z) (source : list Z) (n : nat) :
  Uint8Array_set (front ++ repeat 0 (length source + n)) source (length front)
  = Ok (front ++ map JS.ToUint8 source ++ repeat 0 n).
Proof.
  unfold Uint8Array_set.
  rewrite length_app, repeat_length.
  destruct (Nat.leb_spec (length front + length source)
              (length front + (length source + n))) as [_|]; [|lia].
  rewrite firstn_app, firstn_all, Nat.sub_diag. cbn [firstn]. rewrite app_nil_r.
  rewrite skipn_app, skipn_all2 by lia.
  replace (length front + length source - length front)%nat
    with (length source) by lia.
  rewrite repeat_app, skipn_app, skipn_all2 by (rewrite repeat_length; lia).
  rewrite repeat_length, Nat.sub_diag. reflexivity.
Qed.

Lemma frames_length (arrays : list (list Z)) :
  length (frames arrays)
  = fold_left (fun sum arr => (sum + length arr + 4)%nat) arrays 0%nat.
Proof.
  assert (H : forall n,
            fold_left (fun sum arr => (sum + length arr + 4)%nat) arrays n
            = (n + length (frames arrays))%nat).
  { induction arrays as [|arr arrays IH]; intros n; simpl.
    - lia.
    - rewrite IH. unfold frame. rewrite !length_app. simpl. lia. }
  rewrite H. lia.
Qed.

Lemma word_bytes_be_bytes (w : Z) :
  word_bytes_be w
  = [(w / 2 ^ 24) mod 256; (w / 2 ^ 16) mod 256; (w / 2 ^ 8) mod 256; w mod 256].
Proof. reflexivity. Qed.

Lemma Uint8Array_store_4 (front back : list Z) (z1 z2 z3 z4 v1 v2 v3 v4 : Z) :
  Uint8Array_store
    (Uint8Array_store
       (Uint8Array_store
          (Uint8Array_store (front ++ z1 :: z2 :: z3 :: z4 :: back)
             (length front) v1)
          (S (length front)) v2)
       (S (S (length front))) v3)
    (S (S (S (length front)))) v4
  = front ++ JS.ToUint8 v1 :: JS.ToUint8 v2 :: JS.ToUint8 v3 :: JS.ToUint8 v4
      :: back.
Proof.
  induction front as [|x front IH]; simpl.
  - reflexivity.
  - now rewrite IH.
Qed.

(** One chunk: its frame is written at [offset]. *)
Lemma merge_chunk_spec (front arr : list Z) (n : nat) :
  bytes_ok arr ->
  merge_chunk (Ok (front ++ repeat 0 (length (frame arr) + n), length front)) arr
  = Ok (front ++ frame arr ++ repeat 0 n, length (front ++ frame arr)).
Proof.
  intros Harr. unfold merge_chunk. cbn [JS.bind fst snd].
  unfold frame at 1. rewrite length_app.
  cbn [word_bytes_be word_bytes_le rev app length Nat.add repeat].
  rewrite Uint8Array_store_4.
  rewrite !byte_of by lia. rewrite byte_low.
  rewrite !ToUint8_id by (apply Z.mod_pos_bound; lia).
  set (len := Z.of_nat (length arr)).
  replace (front
             ++ (len / 2 ^ 24) mod 256 :: (len / 2 ^ 16) mod 256
                :: (len / 2 ^ 8) mod 256 :: len mod 256
                :: repeat 0 (length arr + n))
    with ((front ++ word_bytes_be len) ++ repeat 0 (length arr + n))
    by (rewrite <- app_assoc; reflexivity).
  replace (S (S (S (S (length front))))) with (length (front ++ word_bytes_be len))
    by (rewrite length_app; simpl; lia).
  rewrite Uint8Array_set_middle. cbn [JS.bind].
  rewrite (map_ToUint8_id _ Harr). unfold frame. fold len.
  rewrite <- !app_assoc. do 2 f_equal.
  rewrite !length_app. change (length (word_bytes_be len)) with 4%nat. lia.
Qed.

Lemma merge_fold_spec (arrays : list (list Z)) :
  Forall bytes_ok arrays ->
  forall front,
    fold_left merge_chunk arrays
      (Ok (front ++ repeat 0 (length (frames arrays)), length front))
    = Ok (front ++ frames arrays, length (front ++ frames arrays)).
Proof.
  induction 1 as [|arr arrays Harr _ IH]; intros front.
  - cbn [fold_left frames flat_map length repeat]. now rewrite !app_nil_r.
  - cbn [fold_left frames flat_map]. rewrite length_app.
    rewrite merge_chunk_spec by exact Harr.
    rewrite app_assoc. fold (frames arrays). rewrite IH.
    now rewrite <- !app_assoc.
Qed.

(** X21: [mergeUint8Arrays] writes the chunks one after the other, each after
    its length as four big-endian bytes (the length modulo 2^32): the result
    has the lengths of the chunks and four bytes for each. *)
Theorem mergeUint8Arrays_layout (arrays : list (list Z)) :
  Forall bytes_ok arrays ->
  mergeUint8Arrays arrays = Ok (frames arrays)
  /\ length (frames arrays)
     = (list_sum (map (@length Z) arrays) + 4 * length arrays)%nat.
Proof.
  intros Hok. split.
  - unfold mergeUint8Arrays. rewrite <- frames_length.
    unfold Uint8Array_new.
    pose proof (merge_fold_spec arrays Hok []) as H.
    cbn [app length] in H. rewrite H. reflexivity.
  - clear Hok. induction arrays as [|arr arrays IH]; simpl.
    + reflexivity.
    + rewrite length_app, IH. lia.
Qed.

Lemma mergeUint8Arrays_layout_witness :
  mergeUint8Arrays [[1; 2; 3]; []; [9]] = Ok (frames [[1; 2; 3]; []; [9]])
  /\ length (frames [[1; 2; 3]; []; [9]])
     = (list_sum (map (@length Z) [[1; 2; 3]%Z; []; [9]%Z])
        + 4 * length [[1; 2; 3]%Z; []; [9]%Z])%nat.
Proof.
  apply (mergeUint8Arrays_layout [[1; 2; 3]; []; [9]]).
  repeat constructor; lia.
Defined.

(** *** Reading a length *)

Lemma ToInt32_high (x : Z) : 2 ^ 31 <= x < 2 ^ 32 -> JS.ToInt32 x = x - 2 ^ 32.
Proof.
  intros H. unfold JS.ToInt32.
  replace (x + 2 ^ 31) with (x - 2 ^ 31 + 1 * 2 ^ 32) by lia.
  rewrite Z.mod_add, Z.mod_small by lia. lia.
Qed.

(** The length [splitUint8Arrays] computes from four bytes: their
    big-endian value as an int32. *)
Lemma read_length_spec (b1 b2 b3 b4 : Z) :
  0 <= b1 < 256 -> 0 <= b2 < 256 -> 0 <= b3 < 256 -> 0 <= b4 < 256 ->
  Int32.or
    (Int32.or (Int32.or (Int32.shl b1 24) (Int32.shl b2 16)) (Int32.shl b3 8))
    b4
  = JS.ToInt32 (b1 * 2 ^ 24 + b2 * 2 ^ 16 + b3 * 2 ^ 8 + b4).
Proof.
  intros H1 H2 H3 H4. unfold Int32.or, Int32.shl.
  change (24 mod 32) with 24. change (16 mod 32) with 16.
  change (8 mod 32) with 8.
  rewrite (ToInt32_small b1), (ToInt32_small b2), (ToInt32_small b3),
    (ToInt32_small b4) by lia.
  rewrite !Z.shiftl_mul_pow2 by lia.
  assert (Ha : exists a, - 128 <= a < 128
                 /\ JS.ToInt32 (b1 * 2 ^ 24) = a * 2 ^ 24
                 /\ JS.ToInt32 (b1 * 2 ^ 24 + b2 * 2 ^ 16 + b3 * 2 ^ 8 + b4)
                    = a * 2 ^ 24 + b2 * 2 ^ 16 + b3 * 2 ^ 8 + b4).
  { destruct (Z_lt_le_dec b1 128) as [Hlo|Hhi].
    - exists b1. split; [lia|]. split; apply ToInt32_small; lia.
    - exists (b1 - 256). split; [lia|]. split.
      + rewrite ToInt32_high by lia. lia.
      + rewrite ToInt32_high by lia. lia. }
  destruct Ha as [a [Har [-> ->]]].
  rewrite (ToInt32_int32 (a * 2 ^ 24)) by lia.
  rewrite !(ToInt32_small (b2 * 2 ^ 16)), !(ToInt32_small (b3 * 2 ^ 8)) by lia.
  rewrite (lor_mul_add a (b2 * 2 ^ 16) 24) by lia.
  rewrite (ToInt32_int32 (a * 2 ^ 24 + b2 * 2 ^ 16)) by lia.
  replace (a * 2 ^ 24 + b2 * 2 ^ 16) with ((a * 2 ^ 8 + b2) * 2 ^ 16) by lia.
  rewrite (lor_mul_add _ (b3 * 2 ^ 8) 16) by lia.
  rewrite ToInt32_int32 by lia.
  replace ((a * 2 ^ 8 + b2) * 2 ^ 16 + b3 * 2 ^ 8)
    with (((a * 2 ^ 8 + b2) * 2 ^ 8 + b3) * 2 ^ 8) by lia.
  rewrite (lor_mul_add _ b4 8) by lia. lia.
Qed.

Lemma Uint8Array_at_nat (a : list Z) (i : nat) :
  Uint8Array_at a (Z.of_nat i) = nth i a 0.
Proof.
  unfold Uint8Array_at. destruct (Z.ltb_spec (Z.of_nat i) 0); [lia|].
  now rewrite Nat2Z.id.
Qed.

(** A slice that begins inside or past the array. *)
Lemma Uint8Array_slice_from (a : list Z) (s L : nat) :
  Uint8Array_slice a (Z.of_nat s) (Z.of_nat s + Z.of_nat L)
  = firstn L (skipn s a).
Proof.
  unfold Uint8Array_slice, relative_index.
  destruct (Z.ltb_spec (Z.of_nat s) 0); [lia|].
  destruct (Z.ltb_spec (Z.of_nat s + Z.of_nat L) 0); [lia|].
  destruct (Nat.le_gt_cases (length a) s) as [Hpast|Hin].
  - rewrite Z.min_r by lia. rewrite Z.min_r by lia.
    rewrite Z.sub_diag, (skipn_all2 a (n := s)) by lia.
    cbn [Z.to_nat firstn]. now destruct L.
  - rewrite (Z.min_l (Z.of_nat s)) by lia. rewrite Nat2Z.id.
    destruct (Nat.le_gt_cases L (length a - s)) as [Hfit|Hover].
    + rewrite Z.min_l by lia. f_equal. lia.
    + rewrite Z.min_r by lia.
      rewrite !firstn_all2; try reflexivity; rewrite length_skipn; lia.
Qed.

(** *** The loop of [splitUint8Arrays] *)

Lemma nth_byte (l : list Z) (j : nat) : bytes_ok l -> 0 <= nth j l 0 < 256.
Proof.
  intros Hok. destruct (Nat.lt_ge_cases j (length l)) as [Hj|Hj].
  - unfold bytes_ok in Hok. rewrite Forall_forall in Hok.
    apply Hok, nth_In, Hj.
  - rewrite nth_overflow by exact Hj. lia.
Qed.

(** One pass at the start of [rest], which is not empty. *)
Lemma split_pass (fuel : nat) (front rest : list Z) (arrays : list (list Z)) :
  bytes_ok rest -> rest <> [] ->
  splitUint8Arrays_loop (S fuel) (front ++ rest) (Z.of_nat (length front)) arrays
  = let len := JS.ToInt32 (be32_at rest 0) in
    splitUint8Arrays_loop fuel (front ++ rest)
      (Z.of_nat (length front + 4) + len)
      (arrays
         ++ [Uint8Array_slice (front ++ rest) (Z.of_nat (length front + 4))
               (Z.of_nat (length front + 4) + len)]).
Proof.
  intros Hok Hne. cbn [splitUint8Arrays_loop].
  assert (Hlen : (length front < length (front ++ rest))%nat).
  { rewrite length_app. destruct rest; [congruence|simpl; lia]. }
  destruct (Z.ltb_spec (Z.of_nat (length front))
              (Z.of_nat (length (front ++ rest)))) as [_|]; [|lia].
  replace (Z.of_nat (length front) + 1) with (Z.of_nat (length front + 1)) by lia.
  replace (Z.of_nat (length front + 1) + 1)
    with (Z.of_nat (length front + 2)) by lia.
  replace (Z.of_nat (length front + 2) + 1)
    with (Z.of_nat (length front + 3)) by lia.
  replace (Z.of_nat (length front + 3) + 1)
    with (Z.of_nat (length front + 4)) by lia.
  rewrite !Uint8Array_at_nat.
  replace (nth (length front) (front ++ rest) 0) with (nth 0 rest 0)
    by (rewrite app_nth2, Nat.sub_diag by lia; reflexivity).
  rewrite !app_nth2_plus.
  rewrite read_length_spec by (apply nth_byte; exact Hok).
  reflexivity.
Qed.

Lemma be32_at_frame (arr more : list Z) :
  Z.of_nat (length arr) < 2 ^ 31 ->
  JS.ToInt32 (be32_at (frame arr ++ more) 0) = Z.of_nat (length arr).
Proof.
  intros Hlen. unfold frame. rewrite <- app_assoc.
  rewrite be32_of_word_bytes_be by (unfold uint32; lia).
  apply ToInt32_small. lia.
Qed.

Lemma frame_ok (arr : list Z) : bytes_ok arr -> bytes_ok (frame arr).
Proof.
  intros Hok. apply Forall_app. split; [apply word_bytes_be_ok|exact Hok].
Qed.

Lemma frames_ok (arrays : list (list Z)) :
  Forall bytes_ok arrays -> bytes_ok (frames arrays).
Proof.
  induction 1 as [|arr arrays Harr _ IH].
  - constructor.
  - cbn [frames flat_map]. apply Forall_app.
    split; [now apply frame_ok|exact IH].
Qed.

(** The passes over the whole frames of a buffer. *)
Lemma split_loop_frames (arrays : list (list Z)) (suffix : list Z) :
  Forall bytes_ok arrays ->
  Forall (fun arr => Z.of_nat (length arr) < 2 ^ 31) arrays ->
  bytes_ok suffix ->
  forall fuel front acc,
    splitUint8Arrays_loop (length arrays + fuel) (front ++ frames arrays ++ suffix)
      (Z.of_nat (length front)) acc
    = splitUint8Arrays_loop fuel (front ++ frames arrays ++ suffix)
        (Z.of_nat (length (front ++ frames arrays))) (acc ++ arrays).
Proof.
  intros Hok Hlen Hsuffix.
  induction Hok as [|arr arrays Harr Hok IH]; intros fuel front acc.
  - cbn [frames flat_map length Nat.add app]. now rewrite !app_nil_r.
  - inversion Hlen as [|? ? Hl Hlen']; subst. specialize (IH Hlen').
    cbn [frames flat_map length Nat.add]. fold (frames arrays).
    rewrite <- app_assoc.
    rewrite split_pass.
    + cbv zeta. rewrite be32_at_frame by exact Hl.
      assert (Hoff : Z.of_nat (length front + 4) + Z.of_nat (length arr)
                     = Z.of_nat (length (front ++ frame arr))).
      { rewrite length_app. unfold frame. rewrite length_app.
        change (length (word_bytes_be (Z.of_nat (length arr)))) with 4%nat.
        lia. }
      rewrite Uint8Array_slice_from.
      replace (skipn (length front + 4) (front ++ frame arr ++ frames arrays ++ suffix))
        with (arr ++ frames arrays ++ suffix).
      * rewrite firstn_app, firstn_all, Nat.sub_diag. cbn [firstn].
        rewrite app_nil_r, Hoff.
        replace (front ++ frame arr ++ frames arrays ++ suffix)
          with ((front ++ frame arr) ++ frames arrays ++ suffix)
          by (rewrite <- app_assoc; reflexivity).
        rewrite IH. rewrite <- !app_assoc. reflexivity.
      * unfold frame. rewrite <- !app_assoc.
        rewrite skipn_app, skipn_all2 by lia.
        replace (length front + 4 - length front)%nat with 4%nat by lia.
        reflexivity.
    + apply Forall_app. split; [now apply frame_ok|].
      apply Forall_app. split; [now apply frames_ok|exact Hsuffix].
    + unfold frame. discriminate.
Qed.

(** X22: splitting what [mergeUint8Arrays] made gives the chunks back, when
    every chunk is shorter than 2^31 bytes. *)
Theorem splitUint8Arrays_mergeUint8Arrays (arrays : list (list Z)) (fuel : nat) :
  Forall bytes_ok arrays ->
  Forall (fun arr => Z.of_nat (length arr) < 2 ^ 31) arrays ->
  (length arrays <= fuel)%nat ->
  exists merged,
    mergeUint8Arrays arrays = Ok merged
    /\ splitUint8Arrays fuel merged = Ok arrays.
Proof.
  intros Hok Hlen Hfuel. exists (frames arrays).
  split.
  - unfold mergeUint8Arrays. rewrite <- frames_length. unfold Uint8Array_new.
    pose proof (merge_fold_spec arrays Hok []) as H.
    cbn [app length] in H. now rewrite H.
  - unfold splitUint8Arrays.
    pose proof (split_loop_frames arrays [] Hok Hlen ltac:(constructor)
                  (fuel - length arrays) [] []) as H.
    rewrite app_nil_r in H. cbn [app length] in H.
    change (Z.of_nat 0) with 0 in H.
    replace (length arrays + (fuel - length arrays))%nat with fuel in H by lia.
    rewrite H.
    destruct (fuel - length arrays)%nat; cbn [splitUint8Arrays_loop];
      destruct (Z.ltb_spec (Z.of_nat (length (frames arrays)))
                  (Z.of_nat (length (frames arrays)))); (lia || reflexivity).
Qed.

Lemma splitUint8Arrays_mergeUint8Arrays_witness :
  exists merged,
    mergeUint8Arrays [[1; 2; 3]; []; [9]] = Ok merged
    /\ splitUint8Arrays 3 merged = Ok [[1; 2; 3]; []; [9]].
Proof.
  apply (splitUint8Arrays_mergeUint8Arrays [[1; 2; 3]; []; [9]] 3).
  - repeat constructor; lia.
  - repeat constructor.
  - simpl. lia.
Defined.

(** *** Buffers that no merge made *)

Lemma split_loop_exit (fuel : nat) (mergedArray : list Z) (offset : Z)
    (arrays : list (list Z)) :
  Z.of_nat (length mergedArray) <= offset ->
  splitUint8Arrays_loop fuel mergedArray offset arrays = Ok arrays.
Proof.
  intros H. destruct fuel; cbn [splitUint8Arrays_loop];
    destruct (Z.ltb_spec offset (Z.of_nat (length mergedArray)));
    (lia || reflexivity).
Qed.

(** The length read at the start of a frame that is cut short. *)
Lemma partial_frame_length (arr : list Z) (n : nat) :
  Z.of_nat (length arr) < 2 ^ 31 ->
  (1 <= n < length (frame arr))%nat ->
  exists L : nat,
    JS.ToInt32 (be32_at (firstn n (frame arr)) 0) = Z.of_nat L
    /\ (n <= 4 + L)%nat
    /\ (length (skipn 4 (firstn n (frame arr))) <= L)%nat.
Proof.
  intros Hlen Hn.
  assert (Hfl : length (frame arr) = (4 + length arr)%nat)
    by (unfold frame; rewrite length_app; reflexivity).
  destruct (Nat.le_gt_cases 4 n) as [Hge|Hlt].
  - exists (length arr).
    assert (E : firstn n (frame arr)
                = word_bytes_be (Z.of_nat (length arr)) ++ firstn (n - 4) arr).
    { unfold frame. rewrite firstn_app.
      change (length (word_bytes_be (Z.of_nat (length arr)))) with 4%nat.
      now rewrite firstn_all2 by (simpl; lia). }
    rewrite E. split; [|split].
    + rewrite be32_of_word_bytes_be by (unfold uint32; lia).
      apply ToInt32_small. lia.
    + lia.
    + rewrite skipn_app.
      change (length (word_bytes_be (Z.of_nat (length arr)))) with 4%nat.
      rewrite skipn_all2 by (simpl; lia). cbn [app Nat.sub skipn].
      rewrite length_firstn. lia.
  - set (len := Z.of_nat (length arr)) in *.
    assert (Hb1 : 0 <= (len / 2 ^ 24) mod 256 < 128).
    { assert (0 <= len / 2 ^ 24 < 128).
      { split; [apply Z.div_pos; lia|apply Z.div_lt_upper_bound; lia]. }
      rewrite Z.mod_small; lia. }
    pose proof (Z.mod_pos_bound (len / 2 ^ 16) 256 ltac:(lia)) as Hb2.
    pose proof (Z.mod_pos_bound (len / 2 ^ 8) 256 ltac:(lia)) as Hb3.
    assert (Hv : exists v, be32_at (firstn n (frame arr)) 0 = v
                           /\ 0 <= v < 2 ^ 31).
    { unfold frame. rewrite word_bytes_be_bytes. fold len. unfold be32_at.
      destruct n as [|[|[|[|n]]]]; try lia; cbn [firstn app nth Nat.add];
        eexists; (split; [reflexivity|lia]). }
    destruct Hv as [v [-> Hv]].
    exists (Z.to_nat v). split; [|split].
    + rewrite ToInt32_small by exact Hv. lia.
    + lia.
    + rewrite length_skipn, length_firstn. lia.
Qed.

(** X23: a buffer cut short inside its last frame is split without an error:
    the chunks before come back whole and the last one as far as it goes,
    empty when the cut falls inside its length. *)
Theorem splitUint8Arrays_truncated (arrays : list (list Z)) (arr : list Z)
    (n fuel : nat) :
  Forall bytes_ok arrays ->
  Forall (fun arr => Z.of_nat (length arr) < 2 ^ 31) arrays ->
  bytes_ok arr ->
  Z.of_nat (length arr) < 2 ^ 31 ->
  (1 <= n < length (frame arr))%nat ->
  (length arrays < fuel)%nat ->
  splitUint8Arrays fuel (frames arrays ++ firstn n (frame arr))
  = Ok (arrays ++ [skipn 4 (firstn n (frame arr))]).
Proof.
  intros Hok Hlen Harr Hl Hn Hfuel.
  set (partial := firstn n (frame arr)).
  assert (Hpart : bytes_ok partial) by (apply bytes_ok_firstn, frame_ok, Harr).
  assert (Hplen : length partial = n)
    by (unfold partial; rewrite length_firstn; lia).
  unfold splitUint8Arrays.
  pose proof (split_loop_frames arrays partial Hok Hlen Hpart
                (fuel - length arrays) [] []) as H.
  cbn [app length] in H. change (Z.of_nat 0) with 0 in H.
  replace (length arrays + (fuel - length arrays))%nat with fuel in H by lia.
  rewrite H. clear H.
  destruct (fuel - length arrays)%nat as [|fuel'] eqn:Ef; [lia|].
  rewrite split_pass; [|exact Hpart|].
  - cbv zeta.
    destruct (partial_frame_length arr n Hl Hn) as [L [EL [HnL Hskip]]].
    fold partial in EL, Hskip. rewrite EL.
    rewrite Uint8Array_slice_from.
    rewrite split_loop_exit by (rewrite length_app; lia).
    do 3 f_equal.
    rewrite skipn_app, skipn_all2 by lia.
    replace (length (frames arrays) + 4 - length (frames arrays))%nat
      with 4%nat by lia.
    cbn [app]. now apply firstn_all2.
  - intros E. rewrite E in Hplen. simpl in Hplen. lia.
Qed.

Lemma splitUint8Arrays_truncated_witness :
  splitUint8Arrays 2 (frames [[1; 2; 3]] ++ firstn 6 (frame [7; 8; 9]))
  = Ok ([[1; 2; 3]] ++ [skipn 4 (firstn 6 (frame [7; 8; 9]))]).
Proof.
  apply (splitUint8Arrays_truncated [[1; 2; 3]] [7; 8; 9] 6 2).
  - repeat constructor; lia.
  - repeat constructor.
  - repeat constructor; lia.
  - reflexivity.
  - simpl. lia.
  - simpl. lia.
Defined.

Lemma split_loop_minus_four (rest : list Z) (fuel : nat) :
  forall arrays,
    splitUint8Arrays_loop fuel (255 :: 255 :: 255 :: 252 :: rest) 0 arrays
    = Pending.
Proof.
  induction fuel as [|fuel IH]; intros arrays.
  - reflexivity.
  - cbn [splitUint8Arrays_loop].
    destruct (Z.ltb_spec 0 (Z.of_nat (length (255 :: 255 :: 255 :: 252 :: rest))))
      as [_|H]; [|simpl in H; lia].
    change (Uint8Array_at (255 :: 255 :: 255 :: 252 :: rest) 0) with 255.
    change (Uint8Array_at (255 :: 255 :: 255 :: 252 :: rest) (0 + 1)) with 255.
    change (Uint8Array_at (255 :: 255 :: 255 :: 252 :: rest) (0 + 1 + 1)) with 255.
    change (Uint8Array_at (255 :: 255 :: 255 :: 252 :: rest) (0 + 1 + 1 + 1))
      with 252.
    change (Int32.or
              (Int32.or (Int32.or (Int32.shl 255 24) (Int32.shl 255 16))
                 (Int32.shl 255 8)) 252) with (-4).
    change (0 + 1 + 1 + 1 + 1 + -4) with 0. apply IH.
Qed.

(** X24: a buffer that begins with the length -4 (the bytes FF FF FF FC) is
    never split: the length is read as an int32, the offset comes back to 0,
    and the loop goes on for ever, whatever follows. *)
Theorem splitUint8Arrays_diverges (rest : list Z) (fuel : nat) :
  splitUint8Arrays fuel (255 :: 255 :: 255 :: 252 :: rest) = Pending.
Proof. apply split_loop_minus_four. Qed.

(** ** Strings and bytes *)

Lemma store_fold_shift (f : nat -> Z) (l : list nat) :
  forall h t,
    fold_left (fun data i => Uint8Array_store data i (f i)) (map S l) (h :: t)
    = h :: fold_left (fun data i => Uint8Array_store data i (f (S i))) l t.
Proof.
  induction l as [|i l IH]; intros h t; simpl.
  - reflexivity.
  - apply IH.
Qed.

Lemma stringToUint8Array_spec (s : JSString) :
  stringToUint8Array s = map JS.ToUint8 s.
Proof.
  induction s as [|c s IH].
  - reflexivity.
  - unfold stringToUint8Array. simpl length. simpl seq. rewrite <- seq_shift.
    cbn [fold_left Uint8Array_new repeat Uint8Array_store charCodeAt nth].
    rewrite (store_fold_shift (fun i => charCodeAt (c :: s) i)).
    cbn [map]. f_equal. exact IH.
Qed.

(** Within the limit on the arguments of a call the conversion returns. *)
Lemma uint8ArrayToString_returns (arguments_limit : nat) (data : list Z) :
  (length data <= arguments_limit)%nat ->
  uint8ArrayToString arguments_limit data = Ok (map (fun b => b mod 2 ^ 16) data).
Proof.
  intros Hlen. unfold uint8ArrayToString.
  destruct (Nat.leb_spec (length data) arguments_limit) as [_|Hgt];
    [reflexivity|lia].
Qed.

(** Past the limit it throws. *)
Lemma uint8ArrayToString_throws (arguments_limit : nat) (data : list Z) :
  (arguments_limit < length data)%nat ->
  uint8ArrayToString arguments_limit data = Throw RangeError.
Proof.
  intros Hlen. unfold uint8ArrayToString.
  destruct (Nat.leb_spec (length data) arguments_limit) as [Hle|_];
    [lia|reflexivity].
Qed.

Lemma uint8ArrayToString_stringToUint8Array (arguments_limit : nat) (s : JSString) :
  uint8ArrayToString arguments_limit (stringToUint8Array s)
  = if (length s <=? arguments_limit)%nat then Ok (map (fun c => c mod 256) s)
    else Throw RangeError.
Proof.
  rewrite stringToUint8Array_spec. unfold uint8ArrayToString.
  rewrite length_map.
  destruct (length s <=? arguments_limit)%nat; [|reflexivity]. f_equal.
  rewrite map_map. apply map_ext. intros c. unfold JS.ToUint8.
  apply Z.mod_small.
  pose proof (Z.mod_pos_bound c (2 ^ 8) ltac:(lia)).
  change (2 ^ 16) with 65536. change (2 ^ 8) with 256 in *. lia.
Qed.

Lemma latin1_mod_256 (s : JSString) :
  latin1 s -> map (fun c => c mod 256) s = s.
Proof.
  intros Hs. induction Hs as [|c s Hc _ IH]; cbn [map].
  - reflexivity.
  - now rewrite IH, Z.mod_small.
Qed.

(** X25: within the number of arguments the platform takes in a call, a
    string written to bytes and read back comes back with every code unit
    reduced modulo 256: as it was when all its code units are below 256, and
    changed at every other one; and bytes read as a string and written back
    are the same bytes. Past that number [uint8ArrayToString] throws a
    [RangeError], on bytes that were a string as on any other. *)
Theorem string_bytes_roundtrip (arguments_limit : nat) (s : JSString)
    (data : list Z) :
  (length s <= arguments_limit)%nat ->
  (length data <= arguments_limit)%nat ->
  bytes_ok data ->
  uint8ArrayToString arguments_limit (stringToUint8Array s)
  = Ok (map (fun c => c mod 256) s)
  /\ (latin1 s ->
      uint8ArrayToString arguments_limit (stringToUint8Array s) = Ok s)
  /\ (exists s',
        uint8ArrayToString arguments_limit data = Ok s'
        /\ stringToUint8Array s' = data)
  /\ (forall long : list Z,
        (arguments_limit < length long)%nat ->
        uint8ArrayToString arguments_limit long = Throw RangeError)
  /\ (forall long : JSString,
        (arguments_limit < length long)%nat ->
        uint8ArrayToString arguments_limit (stringToUint8Array long)
        = Throw RangeError).
Proof.
  intros Hs Hdata Hd.
  assert (E : uint8ArrayToString arguments_limit (stringToUint8Array s)
              = Ok (map (fun c => c mod 256) s)).
  { rewrite uint8ArrayToString_stringToUint8Array.
    destruct (Nat.leb_spec (length s) arguments_limit) as [_|Hgt];
      [reflexivity|lia]. }
  split; [exact E|]. split; [|split; [|split]].
  - intros Hl. rewrite E. now rewrite latin1_mod_256.
  - exists (map (fun b => b mod 2 ^ 16) data).
    split; [now apply uint8ArrayToString_returns|].
    rewrite stringToUint8Array_spec, map_map. clear Hdata.
    induction Hd as [|b data Hb _ IH]; cbn [map].
    + reflexivity.
    + rewrite IH. f_equal. unfold JS.ToUint8.
      change (2 ^ 16) with 65536. change (2 ^ 8) with 256.
      rewrite (Z.mod_small b 65536) by lia. now apply Z.mod_small.
  - intros long Hlong. now apply uint8ArrayToString_throws.
  - intros long Hlong. apply uint8ArrayToString_throws.
    rewrite stringToUint8Array_spec, length_map. exact Hlong.
Qed.

Lemma string_bytes_roundtrip_witness :
  uint8ArrayToString 4 (stringToUint8Array [104; 8364])
  = Ok (map (fun c => c mod 256) [104; 8364])
  /\ (latin1 [104; 8364] ->
      uint8ArrayToString 4 (stringToUint8Array [104; 8364]) = Ok [104; 8364])
  /\ (exists s',
        uint8ArrayToString 4 [0; 255; 7] = Ok s'
        /\ stringToUint8Array s' = [0; 255; 7])
  /\ (forall long : list Z,
        (4 < length long)%nat -> uint8ArrayToString 4 long = Throw RangeError)
  /\ (forall long : JSString,
        (4 < length long)%nat ->
        uint8ArrayToString 4 (stringToUint8Array long) = Throw RangeError).
Proof.
  apply (string_bytes_roundtrip 4 [104; 8364] [0; 255; 7]).
  - simpl. lia.
  - simpl. lia.
  - unfold bytes_ok. repeat constructor; lia.
Defined.

(** ** Metadata *)

Lemma stringToUint8Array_ok (s : JSString) : bytes_ok (stringToUint8Array s).
Proof.
  rewrite stringToUint8Array_spec. apply Forall_map, Forall_forall.
  intros c _. apply ToUint8_range.
Qed.

Lemma stringToUint8Array_length (s : JSString) :
  length (stringToUint8Array s) = length s.
Proof. rewrite stringToUint8Array_spec. apply length_map. Qed.

Lemma merge_frames (arrays : list (list Z)) :
  Forall bytes_ok arrays -> mergeUint8Arrays arrays = Ok (frames arrays).
Proof.
  intros Hok. unfold mergeUint8Arrays. rewrite <- frames_length.
  unfold Uint8Array_new.
  pose proof (merge_fold_spec arrays Hok []) as H.
  cbn [app length] in H. now rewrite H.
Qed.

Lemma split_frames (arrays : list (list Z)) (fuel : nat) :
  Forall bytes_ok arrays ->
  Forall (fun arr => Z.of_nat (length arr) < 2 ^ 31) arrays ->
  (length arrays <= fuel)%nat ->
  splitUint8Arrays fuel (frames arrays) = Ok arrays.
Proof.
  intros Hok Hlen Hfuel. unfold splitUint8Arrays.
  pose proof (split_loop_frames arrays [] Hok Hlen ltac:(constructor)
                (fuel - length arrays) [] []) as H.
  rewrite app_nil_r in H. cbn [app length] in H.
  change (Z.of_nat 0) with 0 in H.
  replace (length arrays + (fuel - length arrays))%nat with fuel in H by lia.
  rewrite H. apply split_loop_exit. lia.
Qed.

Section MetaProperties.

Variable arguments_limit : nat.
Variable JSON_stringify : value -> JSString.
Variable JSON_parse : JSString -> option value.

(** What [readMetaFromBuffer] makes of a buffer of [appendMetaToBuffer]. *)
Lemma readMetaFromBuffer_appended (data : list Z) (meta : value) (fuel : nat) :
  bytes_ok data ->
  Z.of_nat (length data) < 2 ^ 31 ->
  Z.of_nat (length (JSON_stringify meta)) < 2 ^ 31 ->
  (2 <= fuel)%nat ->
  exists buffer,
    appendMetaToBuffer JSON_stringify data meta = Ok buffer
    /\ readMetaFromBuffer arguments_limit JSON_parse fuel buffer
       = if (length (JSON_stringify meta) <=? arguments_limit)%nat then
           match JSON_parse (map (fun c => c mod 256) (JSON_stringify meta)) with
           | Some meta' => Returns (data, meta')
           | None => Raises SyntaxError
           end
         else Raises (Builtin RangeError).
Proof.
  intros Hdata Hlen Hjson Hfuel.
  set (json := JSON_stringify meta) in *.
  assert (Hok : Forall bytes_ok [stringToUint8Array json; data])
    by (repeat constructor; [apply stringToUint8Array_ok|exact Hdata]).
  exists (frames [stringToUint8Array json; data]). split.
  - unfold appendMetaToBuffer. fold json. now apply merge_frames.
  - unfold readMetaFromBuffer. rewrite split_frames; try assumption.
    + cbn [of_result outcome_bind length Nat.eqb negb nth].
      rewrite uint8ArrayToString_stringToUint8Array. fold json.
      destruct (length json <=? arguments_limit)%nat; reflexivity.
    + repeat constructor; [rewrite stringToUint8Array_length|]; assumption.
Qed.

End MetaProperties.

(** X26: what [readMetaFromBuffer] reads from a buffer of [appendMetaToBuffer].
    When the JSON text of the metadata has more code units than the platform
    takes arguments in a call, it throws a [RangeError]. Else it returns the
    data as they were, and as metadata what [JSON.parse] makes of the JSON
    text with every code unit reduced modulo 256, or throws the
    [SyntaxError] of [JSON.parse]: the metadata come back as they were when
    the text has no code unit above 255 and [JSON.parse] reads back what
    [JSON.stringify] wrote. *)
Theorem readMetaFromBuffer_appendMetaToBuffer (arguments_limit : nat)
    (JSON_stringify : value -> JSString)
    (JSON_parse : JSString -> option value) (data : list Z) (meta : value)
    (fuel : nat) :
  bytes_ok data ->
  Z.of_nat (length data) < 2 ^ 31 ->
  Z.of_nat (length (JSON_stringify meta)) < 2 ^ 31 ->
  (2 <= fuel)%nat ->
  exists buffer,
    appendMetaToBuffer JSON_stringify data meta = Ok buffer
    /\ ((arguments_limit < length (JSON_stringify meta))%nat ->
        readMetaFromBuffer arguments_limit JSON_parse fuel buffer
        = Raises (Builtin RangeError))
    /\ ((length (JSON_stringify meta) <= arguments_limit)%nat ->
        readMetaFromBuffer arguments_limit JSON_parse fuel buffer
        = match JSON_parse (map (fun c => c mod 256) (JSON_stringify meta)) with
          | Some meta' => Returns (data, meta')
          | None => Raises SyntaxError
          end
        /\ (latin1 (JSON_stringify meta) ->
            JSON_parse (JSON_stringify meta) = Some meta ->
            readMetaFromBuffer arguments_limit JSON_parse fuel buffer
            = Returns (data, meta))).
Proof.
  intros Hdata Hlen Hjson Hfuel.
  destruct (readMetaFromBuffer_appended arguments_limit JSON_stringify JSON_parse
              data meta fuel Hdata Hlen Hjson Hfuel) as [buffer [Happ Hread]].
  exists buffer. split; [exact Happ|].
  destruct (Nat.leb_spec (length (JSON_stringify meta)) arguments_limit)
    as [Hle|Hgt].
  - split; [intros Hgt; lia|]. intros _. split; [exact Hread|].
    intros Hl Hp. rewrite Hread, (latin1_mod_256 _ Hl). now rewrite Hp.
  - split; [intros _; exact Hread|]. intros Hle. lia.
Qed.

(** X27: [readMetaFromBuffer] refuses with "Invalid buffer" every buffer that
    holds a number of chunks other than two, the empty buffer among them. *)
Theorem readMetaFromBuffer_invalid (arguments_limit : nat)
    (JSON_parse : JSString -> option value)
    (arrays : list (list Z)) (fuel : nat) :
  Forall bytes_ok arrays ->
  Forall (fun arr => Z.of_nat (length arr) < 2 ^ 31) arrays ->
  (length arrays <= fuel)%nat ->
  length arrays <> 2%nat ->
  readMetaFromBuffer arguments_limit JSON_parse fuel (frames arrays)
  = Raises (Error (str "Invalid buffer")).
Proof.
  intros Hok Hlen Hfuel Hn. unfold readMetaFromBuffer.
  rewrite split_frames by assumption. cbn [of_result outcome_bind].
  destruct (Nat.eqb_spec (length arrays) 2) as [E|_]; [contradiction|].
  reflexivity.
Qed.

Lemma readMetaFromBuffer_appendMetaToBuffer_witness :
  exists buffer,
    appendMetaToBuffer (fun _ => str "{}") [1; 2] (VObject []) = Ok buffer
    /\ ((100 < length (str "{}"))%nat ->
        readMetaFromBuffer 100 (fun _ => Some (VObject [])) 2 buffer
        = Raises (Builtin RangeError))
    /\ ((length (str "{}") <= 100)%nat ->
        readMetaFromBuffer 100 (fun _ => Some (VObject [])) 2 buffer
        = match (fun _ : JSString => Some (VObject []))
                  (map (fun c => c mod 256) (str "{}")) with
          | Some meta' => Returns ([1; 2], meta')
          | None => Raises SyntaxError
          end
        /\ (latin1 (str "{}") ->
            (fun _ : JSString => Some (VObject [])) (str "{}") = Some (VObject []) ->
            readMetaFromBuffer 100 (fun _ => Some (VObject [])) 2 buffer
            = Returns ([1; 2], VObject []))).
Proof.
  apply (readMetaFromBuffer_appendMetaToBuffer 100 (fun _ => str "{}")
           (fun _ => Some (VObject [])) [1; 2] (VObject []) 2).
  - repeat constructor; lia.
  - vm_compute. reflexivity.
  - vm_compute. reflexivity.
  - lia.
Defined.

Lemma readMetaFromBuffer_invalid_witness :
  readMetaFromBuffer 100 (fun _ => Some VNull) 3
    (frames [[123; 125]; []; [7; 255]])
  = Raises (Error (str "Invalid buffer")).
Proof.
  apply (readMetaFromBuffer_invalid 100 (fun _ => Some VNull)
           [[123; 125]; []; [7; 255]] 3).
  - repeat constructor; lia.
  - repeat constructor.
  - simpl. lia.
  - simpl. lia.
Defined.

(** *** The content type *)

Lemma JSString_eqb_eq (a b : JSString) : JSString_eqb a b = true <-> a = b.
Proof.
  unfold JSString_eqb. destruct (list_eq_dec Z.eq_dec a b); split; congruence.
Qed.

Lemma JSString_eqb_neq (a b : JSString) : JSString_eqb a b = false <-> a <> b.
Proof.
  unfold JSString_eqb. destruct (list_eq_dec Z.eq_dec a b); split; congruence.
Qed.

Lemma property_assign_same (properties : list (JSString * value))
    (key : JSString) (v : value) :
  property (assign properties key v) key = Some v.
Proof.
  induction properties as [|[name w] rest IH]; cbn [assign property].
  - replace (JSString_eqb key key) with true; [reflexivity|].
    symmetry. now apply JSString_eqb_eq.
  - destruct (JSString_eqb name key) eqn:E; cbn [property]; rewrite E.
    + reflexivity.
    + exact IH.
Qed.

Lemma property_assign_other (properties : list (JSString * value))
    (key key' : JSString) (v : value) :
  key' <> key ->
  property (assign properties key v) key' = property properties key'.
Proof.
  intros Hne.
  induction properties as [|[name w] rest IH]; cbn [assign property].
  - replace (JSString_eqb key key') with false; [reflexivity|].
    symmetry. apply JSString_eqb_neq. congruence.
  - destruct (JSString_eqb name key) eqn:E; cbn [property].
    + apply JSString_eqb_eq in E. subst name.
      replace (JSString_eqb key key') with false; [reflexivity|].
      symmetry. apply JSString_eqb_neq. congruence.
    + now rewrite IH.
Qed.

(** X28: when the metadata read are an object, [readFileHeaderMetaFromBuffer]
    returns the data with an object whose [contentType] is truthy: the
    object as it was when it had one, else the object with [contentType] set
    to "application/octet-stream" and its other properties as they were.
    Metadata that are [null] are a [TypeError]. *)
Theorem readFileHeaderMetaFromBuffer_contentType (arguments_limit : nat)
    (JSON_parse : JSString -> option value) (strict : bool) (fuel : nat)
    (buffer data : list Z) (meta : value) :
  readMetaFromBuffer arguments_limit JSON_parse fuel buffer = Returns (data, meta) ->
  (meta = VNull ->
   readFileHeaderMetaFromBuffer arguments_limit JSON_parse strict fuel buffer
   = Raises (Builtin TypeError))
  /\ forall properties,
       meta = VObject properties ->
       exists properties',
         readFileHeaderMetaFromBuffer arguments_limit JSON_parse strict fuel buffer
         = Returns (data, VObject properties')
         /\ ToBoolean (property properties' (str "contentType")) = true
         /\ (ToBoolean (property properties (str "contentType")) = true ->
             properties' = properties)
         /\ (ToBoolean (property properties (str "contentType")) = false ->
             property properties' (str "contentType")
             = Some (VString (str "application/octet-stream")))
         /\ forall key, key <> str "contentType" ->
              property properties' key = property properties key.
Proof.
  intros Hread. unfold readFileHeaderMetaFromBuffer. rewrite Hread.
  cbn [outcome_bind fst snd]. split.
  - intros ->. reflexivity.
  - intros properties ->. cbn [Get outcome_bind].
    destruct (ToBoolean (property properties (str "contentType"))) eqn:E;
      cbn [negb].
    + exists properties. repeat split; try assumption; congruence.
    + cbn [Put outcome_bind]. eexists. split; [reflexivity|].
      rewrite property_assign_same. repeat split; try congruence.
      intros key Hkey. now apply property_assign_other.
Qed.

Lemma readFileHeaderMetaFromBuffer_contentType_witness :
  (VObject [(str "filename", VString (str "a"))] = VNull ->
   readFileHeaderMetaFromBuffer 100
     (fun _ => Some (VObject [(str "filename", VString (str "a"))]))
     false 2 (frames [[123; 125]; [7]])
   = Raises (Builtin TypeError))
  /\ forall properties,
       VObject [(str "filename", VString (str "a"))] = VObject properties ->
       exists properties',
         readFileHeaderMetaFromBuffer 100
           (fun _ => Some (VObject [(str "filename", VString (str "a"))]))
           false 2 (frames [[123; 125]; [7]])
         = Returns ([7], VObject properties')
         /\ ToBoolean (property properties' (str "contentType")) = true
         /\ (ToBoolean (property properties (str "contentType")) = true ->
             properties' = properties)
         /\ (ToBoolean (property properties (str "contentType")) = false ->
             property properties' (str "contentType")
             = Some (VString (str "application/octet-stream")))
         /\ forall key, key <> str "contentType" ->
              property properties' key = property properties key.
Proof.
  apply (readFileHeaderMetaFromBuffer_contentType 100
           (fun _ => Some (VObject [(str "filename", VString (str "a"))]))
           false 2 (frames [[123; 125]; [7]]) [7]
           (VObject [(str "filename", VString (str "a"))])).
  vm_compute. reflexivity.
Defined.

(** *** A file on its way to the encoder and back *)

(** X29: [handleFileSelection] rejects a file that is missing with "No file
    selected". For a file that is read it resolves to the name, to the type
    or "application/octet-stream" when the type is empty, and to data from
    which [readFileHeaderMetaFromBuffer] reads the bytes of the file and
    this name and type back, when the JSON text of the two has no more code
    units than the platform takes arguments in a call, none of them above
    255, and [JSON.parse] reads back what [JSON.stringify] wrote. *)
Theorem handleFileSelection_roundtrip (arguments_limit : nat)
    (JSON_stringify : value -> JSString)
    (JSON_parse : JSString -> option value) (strict : bool) (file : File)
    (bytes : list Z) (fuel : nat) :
  File_arrayBuffer file = Returns bytes ->
  bytes_ok bytes ->
  Z.of_nat (length bytes) < 2 ^ 31 ->
  Z.of_nat (length (JSON_stringify (meta_of file))) < 2 ^ 31 ->
  (length (JSON_stringify (meta_of file)) <= arguments_limit)%nat ->
  latin1 (JSON_stringify (meta_of file)) ->
  JSON_parse (JSON_stringify (meta_of file)) = Some (meta_of file) ->
  (2 <= fuel)%nat ->
  handleFileSelection JSON_stringify None = Raises (Error (str "No file selected"))
  /\ contentType_of file <> []
  /\ exists data,
       handleFileSelection JSON_stringify (Some file)
       = Returns (mkSelection data (File_name file) (contentType_of file))
       /\ readFileHeaderMetaFromBuffer arguments_limit JSON_parse strict fuel data
          = Returns (bytes, meta_of file).
Proof.
  intros Hread Hbytes Hlen Hjson Hlimit Hlatin Hparse Hfuel.
  split; [reflexivity|].
  assert (Hct : contentType_of file <> []).
  { unfold contentType_of.
    destruct (JSString_eqb (File_type file) []) eqn:E; [discriminate|].
    now apply JSString_eqb_neq. }
  split; [exact Hct|].
  destruct (readMetaFromBuffer_appended arguments_limit JSON_stringify JSON_parse
              bytes (meta_of file) fuel Hbytes Hlen Hjson Hfuel)
    as [data [Happ Hmeta]].
  apply Nat.leb_le in Hlimit. rewrite Hlimit in Hmeta.
  exists data. split.
  - unfold handleFileSelection. rewrite Hread. cbn [outcome_bind].
    unfold appendFileHeaderMetaToBuffer.
    fold (contentType_of file). fold (meta_of file).
    rewrite Happ. reflexivity.
  - unfold readFileHeaderMetaFromBuffer. rewrite Hmeta.
    replace (map (fun c => c mod 256) (JSON_stringify (meta_of file)))
      with (JSON_stringify (meta_of file)).
    + rewrite Hparse. cbn [outcome_bind fst snd].
      unfold meta_of at 1. cbn [Get outcome_bind].
      replace (ToBoolean
                 (property
                    [(str "filename", VString (File_name file));
                     (str "contentType", VString (contentType_of file))]
                    (str "contentType"))) with true; [reflexivity|].
      symmetry. cbn [property].
      change (JSString_eqb (str "filename") (str "contentType")) with false.
      change (JSString_eqb (str "contentType") (str "contentType")) with true.
      cbn [ToBoolean]. apply negb_true_iff. now apply JSString_eqb_neq.
    + clear - Hlatin. induction Hlatin as [|c s Hc _ IH]; cbn [map].
      * reflexivity.
      * now rewrite <- IH, Z.mod_small.
Qed.

Lemma handleFileSelection_roundtrip_witness :
  handleFileSelection (fun _ => str "{}") None
  = Raises (Error (str "No file selected"))
  /\ contentType_of file_abc <> []
  /\ exists data,
       handleFileSelection (fun _ => str "{}") (Some file_abc)
       = Returns (mkSelection data (File_name file_abc) (contentType_of file_abc))
       /\ readFileHeaderMetaFromBuffer 100 (fun _ => Some (meta_of file_abc)) false 2 data
          = Returns ([1; 2; 3], meta_of file_abc).
Proof.
  apply (handleFileSelection_roundtrip 100 (fun _ => str "{}")
           (fun _ => Some (meta_of file_abc)) false file_abc [1; 2; 3] 2).
  - reflexivity.
  - repeat constructor; lia.
  - vm_compute. reflexivity.
  - vm_compute. reflexivity.
  - simpl. lia.
  - repeat constructor; vm_compute; congruence.
  - reflexivity.
  - lia.
Defined.

(** ** The drop zone *)

Lemma In_add (token t : JSString) (classList : list JSString) :
  In t (DropZone.add token classList) <-> t = token \/ In t classList.
Proof.
  unfold DropZone.add.
  destruct (existsb (JSString_eqb token) classList) eqn:E.
  - split; [now right|]. intros [->|H]; [|exact H].
    apply existsb_exists in E. destruct E as [x [Hx Ex]].
    apply JSString_eqb_eq in Ex. now subst.
  - rewrite in_app_iff. cbn [In]. split.
    + intros [H|[H|[]]]; [now right|now left].
    + intros [->|H]; [right; now left|now left].
Qed.

Lemma In_remove (token t : JSString) (classList : list JSString) :
  In t (DropZone.remove token classList) <-> t <> token /\ In t classList.
Proof.
  unfold DropZone.remove. rewrite filter_In. split.
  - intros [H E]. split; [|exact H].
    apply negb_true_iff, JSString_eqb_neq in E. congruence.
  - intros [Hne H]. split; [exact H|].
    apply negb_true_iff, JSString_eqb_neq. congruence.
Qed.

Lemma remove_remove (token : JSString) (classList : list JSString) :
  DropZone.remove token (DropZone.remove token classList)
  = DropZone.remove token classList.
Proof.
  unfold DropZone.remove. induction classList as [|t l IH]; simpl.
  - reflexivity.
  - destruct (negb (JSString_eqb token t)) eqn:E; simpl; rewrite ?E, IH;
      reflexivity.
Qed.

Lemma remove_add (token : JSString) (classList : list JSString) :
  DropZone.remove token (DropZone.add token classList)
  = DropZone.remove token classList.
Proof.
  unfold DropZone.add.
  destruct (existsb (JSString_eqb token) classList); [reflexivity|].
  unfold DropZone.remove. rewrite filter_app. simpl.
  replace (JSString_eqb token token) with true
    by (symmetry; now apply JSString_eqb_eq).
  simpl. apply app_nil_r.
Qed.

Lemma handle_ok (classList : list JSString) (e : DropZone.event)
    (st : DropZone.state) :
  DropZone_ok classList st -> DropZone_ok classList (fst (DropZone.handle e st)).
Proof.
  intros [Hc [Hd Hr]]. unfold DropZone_ok.
  destruct e as [| | |dataTransfer]; cbn [DropZone.handle].
  - unfold DropZone.onDragEnter.
    cbn [fst DropZone.dragCounter DropZone.classList].
    split; [lia|]. split.
    + rewrite In_add. split; [lia|]. now left.
    + now rewrite remove_add.
  - unfold DropZone.onDragLeave.
    destruct (Z.leb_spec (DropZone.dragCounter st - 1) 0) as [Hle|Hgt];
      cbn [fst DropZone.dragCounter DropZone.classList].
    + split; [lia|]. split.
      * rewrite In_remove. split; [intros [Hne _]; congruence|lia].
      * now rewrite remove_remove.
    + split; [lia|]. split; [|exact Hr].
      split; [lia|]. intros _. apply Hd. lia.
  - cbn [DropZone.onDragOver fst]. repeat split; (assumption || apply Hd).
  - assert (E : fst (DropZone.onDrop dataTransfer st)
                = DropZone.mk 0 (DropZone.remove (str "dragging")
                                   (DropZone.classList st))).
    { unfold DropZone.onDrop. destruct dataTransfer as [[|file files]|]; reflexivity. }
    rewrite E. cbn [DropZone.dragCounter DropZone.classList].
    split; [lia|]. split.
    + rewrite In_remove. split; [intros [Hne _]; congruence|lia].
    + now rewrite remove_remove.
Qed.

Lemma handle_files (e : DropZone.event) (st : DropZone.state) :
  files_handed (snd (DropZone.handle e st)) = files_dropped [e].
Proof.
  destruct e as [| | |[[|file files]|]]; try reflexivity.
  cbn [DropZone.handle]. unfold DropZone.onDragLeave.
  destruct (DropZone.dragCounter st - 1 <=? 0); reflexivity.
Qed.

(** X30: whatever the events, the counter of the drop zone is never negative,
    the zone has the class "dragging" exactly while the counter is positive,
    its other classes stay as they were, and the callback is given the first
    file of every drop that carries files, and nothing else. *)
Theorem DropZone_run (classList : list JSString) (events : list DropZone.event) :
  ~ In (str "dragging") classList ->
  DropZone_ok classList (fst (DropZone.run events (DropZone.setup classList)))
  /\ files_handed (snd (DropZone.run events (DropZone.setup classList)))
     = files_dropped events.
Proof.
  intros Hno.
  assert (H0 : DropZone_ok classList (DropZone.setup classList)).
  { unfold DropZone_ok, DropZone.setup.
    cbn [DropZone.dragCounter DropZone.classList].
    split; [lia|]. split; [split; [contradiction|lia]|].
    unfold DropZone.remove. clear - Hno.
    induction classList as [|t l IH]; simpl; [reflexivity|].
    destruct (JSString_eqb (str "dragging") t) eqn:E.
    - apply JSString_eqb_eq in E. exfalso. apply Hno. now left.
    - simpl. f_equal. apply IH. intros H. apply Hno. now right. }
  revert H0. generalize (DropZone.setup classList) as st.
  induction events as [|e events IH]; intros st Hst.
  - split; [exact Hst|reflexivity].
  - cbn [DropZone.run fst snd].
    destruct (IH _ (handle_ok classList e st Hst)) as [Hok Hfiles].
    split; [exact Hok|].
    unfold files_handed in *. rewrite flat_map_app, Hfiles.
    fold (files_handed (snd (DropZone.handle e st))).
    rewrite handle_files. unfold files_dropped. cbn [flat_map].
    now rewrite app_nil_r.
Qed.

Lemma DropZone_run_witness :
  DropZone_ok [str "zone"]
    (fst (DropZone.run
            [DropZone.dragenter; DropZone.dragenter; DropZone.dragleave;
             DropZone.drop (Some [file_abc])]
            (DropZone.setup [str "zone"])))
  /\ files_handed
       (snd (DropZone.run
               [DropZone.dragenter; DropZone.dragenter; DropZone.dragleave;
                DropZone.drop (Some [file_abc])]
               (DropZone.setup [str "zone"])))
     = files_dropped
         [DropZone.dragenter; DropZone.dragenter; DropZone.dragleave;
          DropZone.drop (Some [file_abc])].
Proof.
  apply (DropZone_run [str "zone"]
           [DropZone.dragenter; DropZone.dragenter; DropZone.dragleave;
            DropZone.drop (Some [file_abc])]).
  vm_compute. intros [H|[]]. discriminate H.
Defined.
